(** * The Starlark tokenizer and load-statement parser of ffs

    A shallow embedding of [starlark/token.h], [starlark/tokenizer.h] and
    [starlark/parser.h], followed by the properties the specification states
    about them.

    Conventions.
    - [std::string_view] and [std::string] are lists of characters
      ([list ascii]); [sv] turns a literal into one.
    - The cursor [pos_] is a [std::size_t]; it is modelled by a [nat].  The
      largest value the code ever computes from it is [pos_ + 3], and
      [pos_] never exceeds the input length (lemma [tokenize_cursor]), so no
      operation wraps for an input that fits in memory.
    - A member function that moves the cursor takes the tokenizer and returns
      its result together with the tokenizer after the call.
    - [std::optional<T>] is [option T], [std::nullopt] is [None].
    - Diagnostics written to [std::cerr] are not part of any result and are
      left out. *)

From Stdlib Require Import List Ascii String Arith Bool Lia NArith ZArith.
From Stdlib Require Import Permutation Sorted.
Import ListNotations.

(* ================================================================= *)
(** ** Characters and string views *)

Definition string_view := list ascii.

Definition sv (s : string) : string_view := list_ascii_of_string s.

(** The double quote, line feed, horizontal tab and carriage return. *)
Definition dquote : ascii := "034"%char.
Definition LF : ascii := "010"%char.
Definition TAB : ascii := "009"%char.
Definition CR : ascii := "013"%char.

(** The raw string of three double quotes that opens and closes a multiline
    string. *)
Definition triple_quote : string_view := [dquote; dquote; dquote].

(** Comparison of two [char]s by their code.  The code only compares within
    ranges of characters below 128, where a signed [char] gives the same
    answers (lemmas [is_alpha_signed_eq] and [is_digit_signed_eq]). *)
Definition char_le (a b : ascii) : bool := (N_of_ascii a <=? N_of_ascii b)%N.

(** [a == b] on string views. *)
Fixpoint sv_eqb (a b : string_view) : bool :=
  match a, b with
  | [], [] => true
  | x :: a', y :: b' => Ascii.eqb x y && sv_eqb a' b'
  | _, _ => false
  end.

(** [s.size()]. *)
Abbreviation size := (@Datatypes.length ascii) (only parsing).

(** [s[i]]; the code only indexes below [size s]. *)
Definition at_ (s : string_view) (i : nat) : ascii := nth i s zero.

(** [s.substr(pos, count)] for [pos <= s.size()]: at most [count] characters
    starting at [pos]. *)
Definition substr (s : string_view) (pos count : nat) : string_view :=
  firstn count (skipn pos s).

(* ================================================================= *)
(** ** token.h *)

Module token.

Inductive Punctuator : Type :=
  | Plus | Minus | Star | Slash | DoubleSlash | Percent | DoubleStar | Tilde
  | Ampersand | Pipe | Caret | LShift | RShift | Dot | Comma | Equals
  | Semicolon | Colon | LParen | RParen | LBracket | RBracket | LBrace
  | RBrace | Less | Greater | GreaterOrEqual | LessOrEqual | EqualEqual
  | NotEqual | PlusEquals | MinusEquals | StarEquals | SlashEquals
  | DoubleSlashEquals | PercentEquals | AmpersandEquals | PipeEquals
  | CaretEquals | LShiftEquals | RShiftEquals.

Definition Punctuator_eqb (a b : Punctuator) : bool :=
  match a, b with
  | Plus, Plus | Minus, Minus | Star, Star | Slash, Slash
  | DoubleSlash, DoubleSlash | Percent, Percent | DoubleStar, DoubleStar
  | Tilde, Tilde | Ampersand, Ampersand | Pipe, Pipe | Caret, Caret
  | LShift, LShift | RShift, RShift | Dot, Dot | Comma, Comma
  | Equals, Equals | Semicolon, Semicolon | Colon, Colon | LParen, LParen
  | RParen, RParen | LBracket, LBracket | RBracket, RBracket
  | LBrace, LBrace | RBrace, RBrace | Less, Less | Greater, Greater
  | GreaterOrEqual, GreaterOrEqual | LessOrEqual, LessOrEqual
  | EqualEqual, EqualEqual | NotEqual, NotEqual | PlusEquals, PlusEquals
  | MinusEquals, MinusEquals | StarEquals, StarEquals
  | SlashEquals, SlashEquals | DoubleSlashEquals, DoubleSlashEquals
  | PercentEquals, PercentEquals | AmpersandEquals, AmpersandEquals
  | PipeEquals, PipeEquals | CaretEquals, CaretEquals
  | LShiftEquals, LShiftEquals | RShiftEquals, RShiftEquals => true
  | _, _ => false
  end.

(** [to_string(Punctuator)]. *)
Definition Punctuator_to_string (p : Punctuator) : string_view :=
  match p with
  | Plus => sv "+" | Minus => sv "-" | Star => sv "*" | Slash => sv "/"
  | DoubleSlash => sv "//" | Percent => sv "%" | DoubleStar => sv "**"
  | Tilde => sv "~" | Ampersand => sv "&" | Pipe => sv "|" | Caret => sv "^"
  | LShift => sv "<<" | RShift => sv ">>" | Dot => sv "." | Comma => sv ","
  | Equals => sv "=" | Semicolon => sv ";" | Colon => sv ":"
  | LParen => sv "(" | RParen => sv ")" | LBracket => sv "["
  | RBracket => sv "]" | LBrace => sv "{" | RBrace => sv "}"
  | Less => sv "<" | Greater => sv ">" | GreaterOrEqual => sv ">="
  | LessOrEqual => sv "<=" | EqualEqual => sv "==" | NotEqual => sv "!="
  | PlusEquals => sv "+=" | MinusEquals => sv "-=" | StarEquals => sv "*="
  | SlashEquals => sv "/=" | DoubleSlashEquals => sv "//="
  | PercentEquals => sv "%=" | AmpersandEquals => sv "&="
  | PipeEquals => sv "|=" | CaretEquals => sv "^=" | LShiftEquals => sv "<<="
  | RShiftEquals => sv ">>="
  end.

Inductive Keyword : Type :=
  | And | Else | Load | Break | For | Not | Continue | If | Or | Def | In
  | Pass | Elif | Lambda | Return.

Definition Keyword_eqb (a b : Keyword) : bool :=
  match a, b with
  | And, And | Else, Else | Load, Load | Break, Break | For, For | Not, Not
  | Continue, Continue | If, If | Or, Or | Def, Def | In, In | Pass, Pass
  | Elif, Elif | Lambda, Lambda | Return, Return => true
  | _, _ => false
  end.

(** [to_string(Keyword)]. *)
Definition Keyword_to_string (k : Keyword) : string_view :=
  match k with
  | And => sv "and" | Else => sv "else" | Load => sv "load"
  | Break => sv "break" | For => sv "for" | Not => sv "not"
  | Continue => sv "continue" | If => sv "if" | Or => sv "or"
  | Def => sv "def" | In => sv "in" | Pass => sv "pass" | Elif => sv "elif"
  | Lambda => sv "lambda" | Return => sv "return"
  end.

(** All values of the enumeration, in declaration order. *)
Definition all_keywords : list Keyword :=
  [And; Else; Load; Break; For; Not; Continue; If; Or; Def; In; Pass; Elif;
   Lambda; Return].

End token.

(** [Token], the variant over punctuators, keywords, [Identifier{name}],
    [StringLiteral{value}] and [Eof{}]. *)
Inductive Token : Type :=
  | TPunctuator (p : token.Punctuator)
  | TKeyword (k : token.Keyword)
  | TIdentifier (name : string_view)
  | TStringLiteral (value : string_view)
  | TEof.

(** [operator==] of the variant: same alternative and equal payload. *)
Definition Token_eqb (a b : Token) : bool :=
  match a, b with
  | TPunctuator p, TPunctuator q => token.Punctuator_eqb p q
  | TKeyword k, TKeyword l => token.Keyword_eqb k l
  | TIdentifier n, TIdentifier m => sv_eqb n m
  | TStringLiteral v, TStringLiteral w => sv_eqb v w
  | TEof, TEof => true
  | _, _ => false
  end.

(** [to_string(Token)]. *)
Definition to_string (t : Token) : string_view :=
  match t with
  | TPunctuator p => token.Punctuator_to_string p
  | TKeyword k => token.Keyword_to_string k
  | TIdentifier name => name
  | TStringLiteral value => dquote :: value ++ [dquote]
  | TEof => sv "<eof>"
  end.

(* ================================================================= *)
(** ** tokenizer.h: class Tokenizer *)

Module Tokenizer.

Record t : Type := mk { input_ : string_view; pos_ : nat }.

(** [Tokenizer(input)]: the cursor starts at 0. *)
Definition make (input : string_view) : t := mk input 0.

Definition remaining_input (tk : t) : string_view :=
  skipn (pos_ tk) (input_ tk).

Definition is_whitespace (c : ascii) : bool :=
  Ascii.eqb c " " || Ascii.eqb c TAB || Ascii.eqb c LF || Ascii.eqb c CR.

Definition is_alpha (c : ascii) : bool :=
  (char_le "a" c && char_le c "z") || (char_le "A" c && char_le c "Z")
  || Ascii.eqb c "_".

Definition is_digit (c : ascii) : bool := char_le "0" c && char_le c "9".

(** The loop [while (pos < input.size() && P(input[pos])) ++pos], which
    occurs four times in the class.  [fuel] bounds the number of
    iterations; every caller passes the number of characters left,
    [size input - pos], which the loop cannot exceed (lemma
    [scan_while_exit]). *)
Fixpoint scan_while (P : ascii -> bool) (input : string_view)
    (fuel pos : nat) : nat :=
  match fuel with
  | 0 => pos
  | S fuel' =>
      if (pos <? size input) && P (at_ input pos)
      then scan_while P input fuel' (S pos)
      else pos
  end.

Definition while_ (P : ascii -> bool) (input : string_view) (pos : nat) :=
  scan_while P input (size input - pos) pos.

(** The loop of [skip_comments_and_whitespace].  An iteration that sets
    [continue_skipping] has stepped over a ['#'], so the number of
    characters left also bounds the number of iterations. *)
Fixpoint skip_loop (fuel : nat) (input : string_view) (pos : nat) : nat :=
  let pos := while_ is_whitespace input pos in
  if (pos <? size input) && Ascii.eqb (at_ input pos) "#" then
    let pos := while_ (fun c => negb (Ascii.eqb c LF)) input pos in
    match fuel with
    | 0 => pos
    | S fuel' => skip_loop fuel' input pos
    end
  else pos.

Definition skip_comments_and_whitespace (tk : t) : t :=
  mk (input_ tk) (skip_loop (size (input_ tk) - pos_ tk) (input_ tk) (pos_ tk)).

(** The loop of [tokenize_multiline_string]:
    [while (pos + 2 < size && substr(pos, 3) != triple_quote) pos++]. *)
Fixpoint scan_triple (input : string_view) (fuel pos : nat) : nat :=
  match fuel with
  | 0 => pos
  | S fuel' =>
      if (pos + 2 <? size input)
         && negb (sv_eqb (substr input pos 3) triple_quote)
      then scan_triple input fuel' (S pos)
      else pos
  end.

Definition tokenize_multiline_string (tk : t) : option Token * t :=
  let input := input_ tk in
  let pos := pos_ tk + 3 in
  let start := pos in
  let pos := scan_triple input (size input - pos) pos in
  if size input <=? pos + 2 then (None, mk input pos)
  else
    let value := substr input start (pos - start) in
    (Some (TStringLiteral value), mk input (pos + 3)).

Definition tokenize_string (tk : t) : option Token * t :=
  let input := input_ tk in
  let pos := S (pos_ tk) in
  let start := pos in
  let pos := while_ (fun c => negb (Ascii.eqb c dquote)) input pos in
  if size input <=? pos then (None, mk input pos)
  else
    let value := substr input start (pos - start) in
    (Some (TStringLiteral value), mk input (S pos)).

(** The chain of comparisons at the end of [tokenize_identifier]. *)
Definition classify (name : string_view) : Token :=
  if sv_eqb name (sv "and") then TKeyword token.And
  else if sv_eqb name (sv "else") then TKeyword token.Else
  else if sv_eqb name (sv "load") then TKeyword token.Load
  else if sv_eqb name (sv "break") then TKeyword token.Break
  else if sv_eqb name (sv "for") then TKeyword token.For
  else if sv_eqb name (sv "not") then TKeyword token.Not
  else if sv_eqb name (sv "continue") then TKeyword token.Continue
  else if sv_eqb name (sv "if") then TKeyword token.If
  else if sv_eqb name (sv "or") then TKeyword token.Or
  else if sv_eqb name (sv "def") then TKeyword token.Def
  else if sv_eqb name (sv "in") then TKeyword token.In
  else if sv_eqb name (sv "pass") then TKeyword token.Pass
  else if sv_eqb name (sv "elif") then TKeyword token.Elif
  else if sv_eqb name (sv "lambda") then TKeyword token.Lambda
  else if sv_eqb name (sv "return") then TKeyword token.Return
  else TIdentifier name.

Definition tokenize_identifier (tk : t) : option Token * t :=
  let input := input_ tk in
  let start := pos_ tk in
  let pos := while_ (fun c => is_alpha c || is_digit c) input start in
  let name := substr input start (pos - start) in
  (Some (classify name), mk input pos).

(** The initializer of [kPunctuators], in the order it is written. *)
Definition punctuators : list (string_view * token.Punctuator) :=
  [ (sv "+", token.Plus); (sv "-", token.Minus); (sv "*", token.Star);
    (sv "/", token.Slash); (sv "//", token.DoubleSlash);
    (sv "%", token.Percent); (sv "**", token.DoubleStar);
    (sv "&", token.Ampersand); (sv "|", token.Pipe); (sv "^", token.Caret);
    (sv "<<", token.LShift); (sv ">>", token.RShift); (sv ".", token.Dot);
    (sv ",", token.Comma); (sv "=", token.Equals);
    (sv ";", token.Semicolon); (sv ":", token.Colon);
    (sv "(", token.LParen); (sv ")", token.RParen);
    (sv "[", token.LBracket); (sv "]", token.RBracket);
    (sv "{", token.LBrace); (sv "}", token.RBrace); (sv "<", token.Less);
    (sv ">", token.Greater); (sv "==", token.EqualEqual);
    (sv "!=", token.NotEqual); (sv "+=", token.PlusEquals);
    (sv "-=", token.MinusEquals); (sv "*=", token.StarEquals);
    (sv "/=", token.SlashEquals); (sv "%=", token.PercentEquals);
    (sv "~", token.Tilde); (sv "&=", token.AmpersandEquals);
    (sv "|=", token.PipeEquals); (sv "^=", token.CaretEquals);
    (sv "<=", token.LessOrEqual); (sv "<<=", token.LShiftEquals);
    (sv ">=", token.GreaterOrEqual); (sv ">>=", token.RShiftEquals) ].

(** The comparator of the sort: [a.size() > b.size()] on the spellings. *)
Definition longer (a b : string_view * token.Punctuator) : bool :=
  size (fst b) <? size (fst a).

(** [std::ranges::sort] leaves the relative order of spellings of equal
    length unspecified.  The table is modelled by one order the sort may
    produce (insertion sort, which keeps equal lengths in written order);
    lemma [first_match_any_order] shows that the choice cannot be observed. *)
Fixpoint insert_longer (e : string_view * token.Punctuator)
    (l : list (string_view * token.Punctuator)) :=
  match l with
  | [] => [e]
  | x :: l' => if longer x e then x :: insert_longer e l' else e :: l
  end.

Definition sort_longer (l : list (string_view * token.Punctuator)) :=
  fold_right insert_longer [] l.

Definition kPunctuators : list (string_view * token.Punctuator) :=
  sort_longer punctuators.

(** The [for] loop over the table: the first entry whose spelling is found
    at the cursor. *)
Fixpoint first_match (table : list (string_view * token.Punctuator))
    (input : string_view) (pos : nat)
    : option (string_view * token.Punctuator) :=
  match table with
  | [] => None
  | (str, punctuator) :: table' =>
      if sv_eqb (substr input pos (size str)) str
      then Some (str, punctuator)
      else first_match table' input pos
  end.

Definition tokenize_punctuator (tk : t) : option Token * t :=
  match first_match kPunctuators (input_ tk) (pos_ tk) with
  | Some (str, punctuator) =>
      (Some (TPunctuator punctuator), mk (input_ tk) (pos_ tk + size str))
  | None => (None, tk)
  end.

Definition tokenize (tk : t) : option Token * t :=
  let tk := skip_comments_and_whitespace tk in
  let input := input_ tk in
  let pos := pos_ tk in
  if size input <=? pos then (Some TEof, tk)
  else if sv_eqb (substr input pos 3) triple_quote
  then tokenize_multiline_string tk
  else if Ascii.eqb (at_ input pos) dquote then tokenize_string tk
  else if is_alpha (at_ input pos) then tokenize_identifier tk
  else tokenize_punctuator tk.

End Tokenizer.

(* ================================================================= *)
(** ** tokenizer.h: the free function [tokenize] *)

(** The [while (true)] loop of [tokenize].  The outer [option] is [None]
    only when [fuel] runs out; the inner one is the function's
    [std::optional]. *)
Fixpoint tokenize_loop (fuel : nat) (tokenizer : Tokenizer.t)
    (tokens : list Token) : option (option (list Token)) :=
  match fuel with
  | 0 => None
  | S fuel' =>
      match Tokenizer.tokenize tokenizer with
      | (None, _) => Some None
      | (Some TEof, _) => Some (Some tokens)
      | (Some tok, tokenizer') =>
          tokenize_loop fuel' tokenizer' (tokens ++ [tok])
      end
  end.

(** Every token but [Eof] takes at least one character, so one more
    iteration than there are characters is always enough (lemma
    [tokenize_loop_fuel]). *)
Definition tokenize (input : string_view) : option (list Token) :=
  match tokenize_loop (S (size input)) (Tokenizer.make input) [] with
  | Some r => r
  | None => None
  end.

(* ================================================================= *)
(** ** parser.h *)

Record LoadStmt : Type := mkLoadStmt {
  module_name : string_view;
  symbols : list (string_view * string_view)
}.

(** [Statement], a variant with the single alternative [LoadStmt]. *)
Inductive Statement : Type :=
  | SLoadStmt (load : LoadStmt).

Record Program : Type := mkProgram { statements : list Statement }.

Module Parser.

(** The parser's only member is [tokenizer_]; a member function takes it
    and returns it after the call. *)

(** [expect_next_token(expected)]. *)
Definition expect_next_token (expected : Token) (tokenizer_ : Tokenizer.t)
    : bool * Tokenizer.t :=
  let (next_token, tokenizer_) := Tokenizer.tokenize tokenizer_ in
  match next_token with
  | None => (false, tokenizer_)
  | Some tok =>
      if negb (Token_eqb tok expected) then (false, tokenizer_)
      else (true, tokenizer_)
  end.

(** [next_token_as<token::StringLiteral>()], the only instance in use; the
    result is the literal's [value]. *)
Definition next_token_as_StringLiteral (tokenizer_ : Tokenizer.t)
    : option string_view * Tokenizer.t :=
  let (next_token, tokenizer_) := Tokenizer.tokenize tokenizer_ in
  match next_token with
  | None => (None, tokenizer_)
  | Some (TStringLiteral value) => (Some value, tokenizer_)
  | Some _ => (None, tokenizer_)
  end.

(** The [while (true)] loop of [parse_load_stmt].  It leaves with [break]
    (the symbols read) or with [return std::nullopt].  The outer [option]
    is [None] only when [fuel] runs out. *)
Fixpoint load_symbols (fuel : nat)
    (symbols : list (string_view * string_view)) (tokenizer_ : Tokenizer.t)
    : option (option (list (string_view * string_view)) * Tokenizer.t) :=
  match fuel with
  | 0 => None
  | S fuel' =>
      let (maybe_comma_or_rparen, tokenizer_) :=
        Tokenizer.tokenize tokenizer_ in
      match maybe_comma_or_rparen with
      | None => Some (None, tokenizer_)
      | Some (TPunctuator comma_or_rparen) =>
          if token.Punctuator_eqb comma_or_rparen token.RParen
          then Some (Some symbols, tokenizer_)
          else if negb (token.Punctuator_eqb comma_or_rparen token.Comma)
          then Some (None, tokenizer_)
          else
            let (maybe_ident_or_symbol, tokenizer_) :=
              Tokenizer.tokenize tokenizer_ in
            match maybe_ident_or_symbol with
            | None => Some (None, tokenizer_)
            | Some (TStringLiteral value) =>
                load_symbols fuel' (symbols ++ [(value, value)]) tokenizer_
            | Some (TIdentifier name) =>
                let (ok, tokenizer_) :=
                  expect_next_token (TPunctuator token.Equals) tokenizer_ in
                if negb ok then Some (None, tokenizer_)
                else
                  let (symbol, tokenizer_) :=
                    next_token_as_StringLiteral tokenizer_ in
                  match symbol with
                  | None => Some (None, tokenizer_)
                  | Some value =>
                      load_symbols fuel' (symbols ++ [(name, value)])
                        tokenizer_
                  end
            | Some _ => Some (None, tokenizer_)
            end
      | Some _ => Some (None, tokenizer_)
      end
  end.

(** [parse_load_stmt()], with the loop bounded by [fuel]. *)
Definition parse_load_stmt_fuel (fuel : nat) (tokenizer_ : Tokenizer.t)
    : option (option LoadStmt * Tokenizer.t) :=
  let (lparen, tokenizer_) := Tokenizer.tokenize tokenizer_ in
  match lparen with
  | Some (TPunctuator token.LParen) =>
      let (module_name, tokenizer_) := Tokenizer.tokenize tokenizer_ in
      match module_name with
      | Some (TStringLiteral module_name) =>
          match load_symbols fuel [] tokenizer_ with
          | None => None
          | Some (None, tokenizer_) => Some (None, tokenizer_)
          | Some (Some symbols, tokenizer_) =>
              match symbols with
              | [] => Some (None, tokenizer_)
              | _ :: _ =>
                  Some (Some (mkLoadStmt module_name symbols), tokenizer_)
              end
          end
      | _ => Some (None, tokenizer_)
      end
  | _ => Some (None, tokenizer_)
  end.

(** The number of characters at and after the cursor. *)
Definition left (tokenizer_ : Tokenizer.t) : nat :=
  size (Tokenizer.input_ tokenizer_) - Tokenizer.pos_ tokenizer_.

(** [parse_load_stmt()].  Each iteration of its loop reads at least one
    token, hence at least one character, before it repeats; one more
    iteration than there are characters left is enough (lemma
    [parse_load_stmt_fuel_ok]). *)
Definition parse_load_stmt (tokenizer_ : Tokenizer.t)
    : option LoadStmt * Tokenizer.t :=
  match parse_load_stmt_fuel (S (left tokenizer_)) tokenizer_ with
  | Some r => r
  | None => (None, tokenizer_)
  end.

(** The [for] loop of [parse()] and the [return std::nullopt] after it.
    The loop ends when [tokenize] fails (its condition) and on [break]; both
    reach the final [return std::nullopt]. *)
Fixpoint parse_loop (fuel : nat) (program : Program)
    (tokenizer_ : Tokenizer.t) : option (option Program) :=
  match fuel with
  | 0 => None
  | S fuel' =>
      let (maybe_token, tokenizer_) := Tokenizer.tokenize tokenizer_ in
      match maybe_token with
      | None => Some None
      | Some TEof => Some (Some program)
      | Some (TKeyword kw) =>
          if token.Keyword_eqb kw token.Load then
            let (load, tokenizer_) := parse_load_stmt tokenizer_ in
            match load with
            | None => Some None
            | Some load =>
                parse_loop fuel'
                  (mkProgram (statements program ++ [SLoadStmt load]))
                  tokenizer_
            end
          else Some None
      | Some _ => Some None
      end
  end.

(** [Parser{input}.parse()]; the bound on the loop is justified by lemma
    [parse_loop_fuel]. *)
Definition parse (tokenizer_ : Tokenizer.t) : option Program :=
  match parse_loop (S (left tokenizer_)) (mkProgram []) tokenizer_ with
  | Some r => r
  | None => None
  end.

End Parser.

(** The free function [parse]. *)
Definition parse (input : string_view) : option Program :=
  Parser.parse (Tokenizer.make input).

(** A string literal as it is spelled in the source text. *)
Definition quoted (s : string_view) : string_view := dquote :: s ++ [dquote].

(* ================================================================= *)
(** ** main.cc, ffs/main.cc and tokenizer_test.cc: tokens as text *)

Module Main.

(** [to_string(std::vector<Token> const &)], the same in [main.cc] and in
    [ffs/main.cc]: every token is written with a space after it. *)
Definition to_string (tokens : list Token) : string_view :=
  fold_left (fun ss token => ss ++ to_string token ++ sv " ") tokens [].

End Main.

Module TokenizerTest.

(** [to_string(std::span<Token const>)]: the first token, then every other
    token with a space before it.  The function asserts that there is a
    token; [None] stands for the failed assertion. *)
Definition to_string (tokens : list Token) : option string_view :=
  match tokens with
  | [] => None
  | first :: tokens =>
      Some (fold_left (fun ss token => ss ++ sv " " ++ to_string token)
              tokens (to_string first))
  end.

(** [kTestCases]: an input and the text of its tokens. *)
Definition kTestCases : list (string_view * string_view) :=
  [ (sv "load(" ++ quoted (sv "@rules_cc//cc:defs.bzl") ++ sv ", "
     ++ quoted (sv "cc_library") ++ sv ", " ++ quoted (sv "cc_test")
     ++ sv ")",
     sv "load ( " ++ quoted (sv "@rules_cc//cc:defs.bzl") ++ sv " , "
     ++ quoted (sv "cc_library") ++ sv " , " ++ quoted (sv "cc_test")
     ++ sv " )") ].

(** The body of a test: the input is tokenized, and the text of the tokens
    is the expected one. *)
Definition test_passes (test : string_view * string_view) : bool :=
  match tokenize (fst test) with
  | None => false
  | Some tokens =>
      match to_string tokens with
      | None => false
      | Some text => sv_eqb text (snd test)
      end
  end.

End TokenizerTest.

(* ================================================================= *)
(** ** Notions used in the statements and their proofs *)

(** [rest] is empty or starts with a character that fails [P]: a loop that
    advances over [P] stops in front of it. *)
Definition stops (P : ascii -> bool) (rest : string_view) : Prop :=
  match rest with
  | [] => True
  | c :: _ => P c = false
  end.

Definition not_LF (c : ascii) : bool := negb (Ascii.eqb c LF).

Definition entry := (string_view * token.Punctuator)%type.

(** [e]'s spelling is found at [pos]. *)
Definition matches (input : string_view) (pos : nat) (e : entry) : Prop :=
  substr input pos (size (fst e)) = fst e.

(** No later entry is longer than an earlier one. *)
Definition by_length : list entry -> Prop :=
  StronglySorted (fun a b : entry => size (fst b) <= size (fst a)).

Fixpoint distinct (l : list string_view) : bool :=
  match l with
  | [] => true
  | x :: l' => negb (existsb (sv_eqb x) l') && distinct l'
  end.

(** What [Tokenizer::tokenize] does once comments and whitespace are
    skipped. *)
Definition dispatch (tk : Tokenizer.t) : option Token * Tokenizer.t :=
  let input := Tokenizer.input_ tk in
  let pos := Tokenizer.pos_ tk in
  if size input <=? pos then (Some TEof, tk)
  else if sv_eqb (substr input pos 3) triple_quote
  then Tokenizer.tokenize_multiline_string tk
  else if Ascii.eqb (at_ input pos) dquote then Tokenizer.tokenize_string tk
  else if Tokenizer.is_alpha (at_ input pos)
  then Tokenizer.tokenize_identifier tk
  else Tokenizer.tokenize_punctuator tk.

(** The cursor after a call: not before the cursor [p] it started from, not
    past the end, and past [p] when a token other than [Eof] is returned. *)
Definition advanced (input : string_view) (p : nat)
    (r : option Token * Tokenizer.t) : Prop :=
  Tokenizer.input_ (snd r) = input
  /\ p <= Tokenizer.pos_ (snd r) <= size input
  /\ (forall tok,
        fst r = Some tok -> tok <> TEof -> p < Tokenizer.pos_ (snd r)).

(** The result of a call on [rest] seen as the result of the call on
    [pre ++ rest] started [size pre] characters further. *)
Definition shift_by (pre : string_view) (r : option Token * Tokenizer.t)
    : option Token * Tokenizer.t :=
  (fst r,
   Tokenizer.mk (pre ++ Tokenizer.input_ (snd r))
     (size pre + Tokenizer.pos_ (snd r))).

(** The cursor is inside the input. *)
Definition inside (tk : Tokenizer.t) : Prop :=
  Tokenizer.pos_ tk <= size (Tokenizer.input_ tk).

(** [tk'] is [tk] after some calls: same input, cursor not moved back. *)
Definition later (tk tk' : Tokenizer.t) : Prop :=
  Tokenizer.input_ tk' = Tokenizer.input_ tk
  /\ Tokenizer.pos_ tk <= Tokenizer.pos_ tk'
  /\ inside tk'.

(** The tokenizer over [pre ++ rest] with [pre] behind the cursor. *)
Definition after (pre rest : string_view) : Tokenizer.t :=
  Tokenizer.mk (pre ++ rest) (size pre).

(** [text] is at the cursor, and a call returns [tok] and leaves the cursor
    right behind [text], whatever was read before. *)
Definition reads (text : string_view) (tok : Token) (rest : string_view)
    : Prop :=
  forall pre,
    Tokenizer.tokenize (after pre (text ++ rest))
    = (Some tok, after (pre ++ text) rest).

Definition not_dquote (c : ascii) : bool := negb (Ascii.eqb c dquote).

Definition is_alnum (c : ascii) : bool :=
  Tokenizer.is_alpha c || Tokenizer.is_digit c.

(** [name] has the shape of an identifier. *)
Definition identifier_shaped (name : string_view) : Prop :=
  match name with
  | [] => False
  | c :: cs => Tokenizer.is_alpha c = true /\ forallb is_alnum cs = true
  end.

(** Texts made of whitespace characters and of comments only.  A comment
    runs from a ['#'] to the end of its line: up to, and not including, the
    next line feed, or up to the end of the text. *)
Inductive blank : string_view -> Prop :=
  | blank_end : blank []
  | blank_space c rest :
      Tokenizer.is_whitespace c = true -> blank rest -> blank (c :: rest)
  | blank_comment body rest :
      forallb not_LF body = true -> stops not_LF rest -> blank rest ->
      blank ("#"%char :: body ++ rest).

(** An imported symbol: the string alone, or [local = string]. *)
Inductive symbol : Type :=
  | Bare (exported : string_view)
  | Renamed (local exported : string_view).

(** The pair the statement binds: (local name, exported name). *)
Definition binding (s : symbol) : string_view * string_view :=
  match s with
  | Bare exported => (exported, exported)
  | Renamed local exported => (local, exported)
  end.

(** The text of one symbol with the comma before it, laid out as in the
    repository's tests. *)
Definition spell_symbol (s : symbol) : string_view :=
  match s with
  | Bare exported => sv "," ++ sv " " ++ quoted exported
  | Renamed local exported =>
      sv "," ++ sv " " ++ local ++ sv " " ++ sv "=" ++ sv " "
      ++ quoted exported
  end.

Definition spell_symbols (l : list symbol) : string_view :=
  List.concat (map spell_symbol l).

(** The text after the keyword [load]; [trailing] is put between the last
    symbol and the closing parenthesis. *)
Definition spell_arguments (module_name : string_view) (l : list symbol)
    (trailing : string_view) : string_view :=
  sv "(" ++ quoted module_name ++ spell_symbols l ++ trailing ++ sv ")".

Definition spell_load (module_name : string_view) (l : list symbol)
    (trailing : string_view) : string_view :=
  sv "load" ++ spell_arguments module_name l trailing.

(** A string that can stand between double quotes: it has none itself. *)
Definition plain (s : string_view) : Prop := forallb not_dquote s = true.

(** A name the tokenizer returns as an [Identifier]. *)
Definition identifier (name : string_view) : Prop :=
  identifier_shaped name /\ Tokenizer.classify name = TIdentifier name.

Definition symbol_ok (s : symbol) : Prop :=
  match s with
  | Bare exported => plain exported
  | Renamed local exported => identifier local /\ plain exported
  end.

(** The text does not go on with a double quote. *)
Definition no_quote_next (rest : string_view) : Prop :=
  match rest with
  | [] => True
  | c :: _ => c <> dquote
  end.

(** A load statement in a source text: the whitespace before it, its module
    name and its symbols. *)
Record statement : Type := mk_statement {
  lead : string_view;
  from_module : string_view;
  imports : list symbol
}.

Definition statement_ok (st : statement) : Prop :=
  forallb Tokenizer.is_whitespace (lead st) = true
  /\ plain (from_module st)
  /\ Forall symbol_ok (imports st)
  /\ imports st <> [].

Definition spell_statement (st : statement) : string_view :=
  lead st ++ spell_load (from_module st) (imports st) [].

Definition spell_program (l : list statement) : string_view :=
  List.concat (map spell_statement l).

(** The statement the parser is to build from it. *)
Definition meaning (st : statement) : Statement :=
  SLoadStmt (mkLoadStmt (from_module st) (map binding (imports st))).

(** *** Characters as signed or unsigned [char]s *)

(** The code of a character, and its value where [char] is a signed type:
    the codes from 128 on are the negative values. *)
Definition code (c : ascii) : nat := nat_of_ascii c.

Definition signed_value (c : ascii) : Z :=
  if code c <? 128 then Z.of_nat (code c) else (Z.of_nat (code c) - 256)%Z.

(** [is_alpha] and [is_digit] with the comparisons made on signed values. *)
Definition is_alpha_signed (c : ascii) : bool :=
  ((signed_value "a" <=? signed_value c)%Z
   && (signed_value c <=? signed_value "z")%Z)
  || ((signed_value "A" <=? signed_value c)%Z
      && (signed_value c <=? signed_value "Z")%Z)
  || (signed_value c =? signed_value "_")%Z.

Definition is_digit_signed (c : ascii) : bool :=
  (signed_value "0" <=? signed_value c)%Z
  && (signed_value c <=? signed_value "9")%Z.

(** The states of the tokenizer in which [Parser::parse] asks for the first
    token of a statement: the initial one, and each one reached from such a
    state by reading [load] and a load statement that is accepted. *)
Inductive statement_start (input : string_view) : Tokenizer.t -> Prop :=
  | start_first : statement_start input (Tokenizer.make input)
  | start_next tk tk1 load tk2 :
      statement_start input tk ->
      Tokenizer.tokenize tk = (Some (TKeyword token.Load), tk1) ->
      Parser.parse_load_stmt tk1 = (Some load, tk2) ->
      statement_start input tk2.

(** No triple quote occurs in [s]. *)
Definition no_triple_quote (s : string_view) : Prop :=
  forall i, substr s i 3 <> triple_quote.

(** In [s] followed by a triple quote and [rest], no triple quote starts
    inside [s]: the one that follows [s] is the first. *)
Definition first_triple_quote_after (s rest : string_view) : Prop :=
  forall i,
    i < size s -> substr (s ++ triple_quote ++ rest) i 3 <> triple_quote.

(** The statement imports at least one symbol. *)
Definition imports_something (st : Statement) : Prop :=
  match st with
  | SLoadStmt load => symbols load <> []
  end.

(** *** Inputs of the specification's examples *)

(** The two inputs of [parser_test.cc]. *)
Definition input_two_symbols : string_view :=
  sv "load(" ++ quoted (sv "@rules_cc//cc:defs.bzl") ++ sv ", "
  ++ quoted (sv "cc_library") ++ sv ", " ++ quoted (sv "cc_test") ++ sv ")".

Definition input_renamed_symbol : string_view :=
  sv "load(" ++ quoted (sv "@rules_cc//cc:defs.bzl") ++ sv ", foo = "
  ++ quoted (sv "cc_library") ++ sv ")".

(** A load of one symbol, without and with a comma before the closing
    parenthesis. *)
Definition input_one_symbol : string_view :=
  sv "load(" ++ quoted (sv "m") ++ sv ", " ++ quoted (sv "a") ++ sv ")".

Definition input_trailing_comma : string_view :=
  sv "load(" ++ quoted (sv "m") ++ sv ", " ++ quoted (sv "a") ++ sv ",)".

(** A load of no symbol. *)
Definition input_module_only : string_view :=
  sv "load(" ++ quoted (sv "m") ++ sv ")".

(** A load statement and [pass] on the next line. *)
Definition input_load_then_pass : string_view :=
  input_one_symbol ++ [LF] ++ sv "pass".

(** Whitespace and comments, the last comment without a line end. *)
Definition input_blank : string_view :=
  sv " # one" ++ [LF; TAB; CR] ++ sv "#" ++ [LF; LF] ++ sv "  # two".

(** *** Notions of the further properties *)

(** All values of the enumeration [Punctuator], in declaration order. *)
Definition all_punctuators : list token.Punctuator :=
  [token.Plus; token.Minus; token.Star; token.Slash; token.DoubleSlash;
   token.Percent; token.DoubleStar; token.Tilde; token.Ampersand;
   token.Pipe; token.Caret; token.LShift; token.RShift; token.Dot;
   token.Comma; token.Equals; token.Semicolon; token.Colon; token.LParen;
   token.RParen; token.LBracket; token.RBracket; token.LBrace;
   token.RBrace; token.Less; token.Greater; token.GreaterOrEqual;
   token.LessOrEqual; token.EqualEqual; token.NotEqual; token.PlusEquals;
   token.MinusEquals; token.StarEquals; token.SlashEquals;
   token.DoubleSlashEquals; token.PercentEquals; token.AmpersandEquals;
   token.PipeEquals; token.CaretEquals; token.LShiftEquals;
   token.RShiftEquals].

(** [c] is the first character of a spelling of the punctuator table. *)
Definition starts_punctuator (c : ascii) : bool :=
  existsb (fun e : entry =>
             match fst e with
             | [] => false
             | x :: _ => Ascii.eqb x c
             end)
    Tokenizer.punctuators.

(** A token whose text is read back as that token: any keyword, any
    punctuator of the table, an identifier that has the shape of one and is
    no reserved word, a string without a double quote. *)
Definition spellable (tok : Token) : Prop :=
  match tok with
  | TPunctuator p => p <> token.DoubleSlashEquals
  | TKeyword _ => True
  | TIdentifier name => identifier name
  | TStringLiteral value => plain value
  | TEof => False
  end.

(** What holds of every token the tokenizer returns before [Eof]: it is no
    [Eof], no [DoubleSlashEquals], and an identifier has the shape of one
    and is no reserved word. *)
Definition well_formed (tok : Token) : Prop :=
  match tok with
  | TPunctuator p => p <> token.DoubleSlashEquals
  | TIdentifier name => identifier name
  | TEof => False
  | _ => True
  end.

(** The string literals among the tokens have no double quote. *)
Definition plain_strings (tok : Token) : Prop :=
  match tok with
  | TStringLiteral value => plain value
  | _ => True
  end.

(** [tokens] are the tokens that successive calls return from [tk] on,
    none of them [Eof], and [tk'] is the tokenizer after the last call. *)
Inductive consumed : Tokenizer.t -> list Token -> Tokenizer.t -> Prop :=
  | consumed_none tk : consumed tk [] tk
  | consumed_one tk tok tk1 tokens tk' :
      Tokenizer.tokenize tk = (Some tok, tk1) -> tok <> TEof ->
      consumed tk1 tokens tk' -> consumed tk (tok :: tokens) tk'.

(** The number of [load] keywords among the tokens. *)
Definition count_loads (tokens : list Token) : nat :=
  Datatypes.length
    (filter (fun tok => match tok with
                        | TKeyword token.Load => true
                        | _ => false
                        end) tokens).

(** A keyword among the tokens is [load]. *)
Definition only_load (tok : Token) : Prop :=
  match tok with
  | TKeyword kw => kw = token.Load
  | _ => True
  end.

(** [Parser::parse] has read the statements [read] and asks in [tk] for the
    first token of the next one. *)
Inductive statements_read (input : string_view)
    : list Statement -> Tokenizer.t -> Prop :=
  | read_none : statements_read input [] (Tokenizer.make input)
  | read_more read tk tk1 load tk2 :
      statements_read input read tk ->
      Tokenizer.tokenize tk = (Some (TKeyword token.Load), tk1) ->
      Parser.parse_load_stmt tk1 = (Some load, tk2) ->
      statements_read input (read ++ [SLoadStmt load]) tk2.

(** The local name of an imported symbol is the exported name or an
    identifier. *)
Definition binding_ok (b : string_view * string_view) : Prop :=
  fst b = snd b \/ identifier (fst b).

(** The texts of the tokens, each with a space before it. *)
Definition spaced (tokens : list Token) : string_view :=
  List.concat (map (fun tok => sv " " ++ to_string tok) tokens).

(** Where the text of a token may end: at the end of the input or in front
    of a space. *)
Definition token_end (rest : string_view) : Prop :=
  rest = [] \/ exists rest', rest = " "%char :: rest'.

(** The tokenizer [tk] with the text [pre] put in front of its input and
    its cursor moved along. *)
Definition moved (pre : string_view) (tk : Tokenizer.t) : Tokenizer.t :=
  Tokenizer.mk (pre ++ Tokenizer.input_ tk) (size pre + Tokenizer.pos_ tk).

(** The result of a function of the parser on a moved tokenizer. *)
Definition moved_result {A : Type} (pre : string_view)
    (r : A * Tokenizer.t) : A * Tokenizer.t :=
  (fst r, moved pre (snd r)).

(** The symbols of a statement are bound to identifiers or to themselves. *)
Definition bindings_ok (st : Statement) : Prop :=
  match st with
  | SLoadStmt load => Forall binding_ok (symbols load)
  end.

(** From [tk] on the calls return the tokens [tokens] and then [Eof]. *)
Definition stream (tk : Tokenizer.t) (tokens : list Token) : Prop :=
  exists tk',
    consumed tk tokens tk' /\ fst (Tokenizer.tokenize tk') = Some TEof.

(** Two tokenizers, each inside its input, from which the calls return the
    same tokens up to [Eof]. *)
Definition same_tokens (tk1 tk2 : Tokenizer.t) : Prop :=
  inside tk1 /\ inside tk2
  /\ exists tokens, stream tk1 tokens /\ stream tk2 tokens.

(** Two results of a function of the parser that agree: the same value,
    and tokenizers with the same tokens ahead when there is a value. *)
Definition same_result {A : Type} (r1 r2 : option A * Tokenizer.t) : Prop :=
  fst r1 = fst r2 /\ (fst r1 <> None -> same_tokens (snd r1) (snd r2)).

(** The tokens of a symbol with the comma before it, of a load statement
    and of a program, as the grammar of the parser has them. *)
Definition symbol_tokens (s : symbol) : list Token :=
  match s with
  | Bare exported => [TPunctuator token.Comma; TStringLiteral exported]
  | Renamed local exported =>
      [TPunctuator token.Comma; TIdentifier local;
       TPunctuator token.Equals; TStringLiteral exported]
  end.

Definition symbols_tokens (l : list symbol) : list Token :=
  List.concat (map symbol_tokens l).

Definition statement_tokens (st : statement) : list Token :=
  [TKeyword token.Load; TPunctuator token.LParen;
   TStringLiteral (from_module st)]
  ++ symbols_tokens (imports st) ++ [TPunctuator token.RParen].

Definition program_tokens (l : list statement) : list Token :=
  List.concat (map statement_tokens l).

(** The statement imports a symbol. *)
Definition has_imports (st : statement) : Prop := imports st <> [].

(* ================================================================= *)
(** ** Basic facts about characters and views *)

Lemma sv_eqb_eq (a b : string_view) : sv_eqb a b = true <-> a = b.
Proof.
  revert b; induction a as [|x a IH]; intros [|y b]; simpl;
    try (split; [discriminate | congruence]); [tauto|].
  rewrite andb_true_iff, Ascii.eqb_eq, IH.
  split; [intros [-> ->]; reflexivity | intros [= -> ->]; auto].
Qed.

Lemma sv_eqb_refl (a : string_view) : sv_eqb a a = true.
Proof. apply sv_eqb_eq; reflexivity. Qed.

Lemma sv_eqb_neq (a b : string_view) : sv_eqb a b = false <-> a <> b.
Proof.
  rewrite <- sv_eqb_eq. destruct (sv_eqb a b); split; congruence.
Qed.

Lemma Punctuator_eqb_eq (a b : token.Punctuator) :
  token.Punctuator_eqb a b = true <-> a = b.
Proof.
  split; [|intros ->; destruct b; reflexivity].
  destruct a, b; simpl; intros H; try reflexivity; discriminate H.
Qed.

Lemma Keyword_eqb_eq (a b : token.Keyword) :
  token.Keyword_eqb a b = true <-> a = b.
Proof.
  split; [|intros ->; destruct b; reflexivity].
  destruct a, b; simpl; intros H; try reflexivity; discriminate H.
Qed.

(** The character classes of the tokenizer do not depend on whether [char]
    is signed. *)
Lemma is_alpha_signed_eq (c : ascii) :
  is_alpha_signed c = Tokenizer.is_alpha c.
Proof. destruct c as [[] [] [] [] [] [] [] []]; reflexivity. Qed.

Lemma is_digit_signed_eq (c : ascii) :
  is_digit_signed c = Tokenizer.is_digit c.
Proof. destruct c as [[] [] [] [] [] [] [] []]; reflexivity. Qed.

(** The classes by the codes of their characters: the letters [a] to [z]
    and [A] to [Z] and the underscore; the digits; space, tab, line feed
    and carriage return. *)
Lemma is_alpha_codes (c : ascii) :
  Tokenizer.is_alpha c = true
  <-> 97 <= code c <= 122 \/ 65 <= code c <= 90 \/ code c = 95.
Proof.
  destruct c as [[] [] [] [] [] [] [] []]; vm_compute;
    (split;
     [intros H; try discriminate H; lia | intros H; try reflexivity; lia]).
Qed.

Lemma is_digit_codes (c : ascii) :
  Tokenizer.is_digit c = true <-> 48 <= code c <= 57.
Proof.
  destruct c as [[] [] [] [] [] [] [] []]; vm_compute;
    (split;
     [intros H; try discriminate H; lia | intros H; try reflexivity; lia]).
Qed.

Lemma is_whitespace_codes (c : ascii) :
  Tokenizer.is_whitespace c = true
  <-> code c = 32 \/ code c = 9 \/ code c = 10 \/ code c = 13.
Proof.
  destruct c as [[] [] [] [] [] [] [] []]; vm_compute;
    (split;
     [intros H; try discriminate H; lia | intros H; try reflexivity; lia]).
Qed.

Lemma substr_length (s : string_view) (pos n : nat) :
  size (substr s pos n) = Nat.min n (size s - pos).
Proof. unfold substr. now rewrite length_firstn, length_skipn. Qed.

Lemma substr_shift (pre rest : string_view) (p n : nat) :
  substr (pre ++ rest) (size pre + p) n = substr rest p n.
Proof.
  unfold substr. rewrite skipn_app, skipn_all2 by lia. simpl.
  now replace (size pre + p - size pre) with p by lia.
Qed.

Lemma at_shift (pre rest : string_view) (p : nat) :
  at_ (pre ++ rest) (size pre + p) = at_ rest p.
Proof. unfold at_. apply app_nth2_plus. Qed.

Lemma skipn_at (s : string_view) (p : nat) :
  p < size s -> skipn p s = at_ s p :: skipn (S p) s.
Proof.
  revert p; induction s as [|c s IH]; simpl; intros p H; [lia|].
  destruct p as [|p]; [reflexivity|]. apply IH. lia.
Qed.

Lemma firstn_length_app (a b : string_view) : firstn (size a) (a ++ b) = a.
Proof. induction a as [|c a IH]; simpl; [reflexivity | now rewrite IH]. Qed.

(** The characters of [s] from [a] up to [b], followed by the rest. *)
Lemma skipn_substr (s : string_view) (a b : nat) :
  a <= b -> skipn a s = substr s a (b - a) ++ skipn b s.
Proof.
  intros H. unfold substr.
  rewrite <- (firstn_skipn (b - a) (skipn a s)) at 1.
  f_equal. rewrite skipn_skipn. f_equal. lia.
Qed.

(* ================================================================= *)
(** ** The scanning loops *)

Module TokenizerFacts.
Import Tokenizer.

Section ScanWhile.
Variable P : ascii -> bool.
Variable input : string_view.

Lemma scan_while_ge fuel pos : pos <= scan_while P input fuel pos.
Proof.
  revert pos; induction fuel as [|fuel IH]; simpl; intros pos; [lia|].
  destruct (_ && _); [specialize (IH (S pos)); lia | lia].
Qed.

Lemma scan_while_le fuel pos :
  pos <= size input -> scan_while P input fuel pos <= size input.
Proof.
  revert pos; induction fuel as [|fuel IH]; simpl; intros pos H; [lia|].
  destruct (pos <? size input) eqn:E; simpl; [|lia].
  apply Nat.ltb_lt in E. destruct (P _); [apply IH; lia | lia].
Qed.

(** With at least as much fuel as characters left, the loop stops because
    its own condition fails. *)
Lemma scan_while_exit fuel pos :
  size input - pos <= fuel ->
  size input <= scan_while P input fuel pos
  \/ P (at_ input (scan_while P input fuel pos)) = false.
Proof.
  revert pos; induction fuel as [|fuel IH]; simpl; intros pos H; [lia|].
  destruct (pos <? size input) eqn:E; simpl.
  - destruct (P (at_ input pos)) eqn:EP; [apply IH; lia | now right].
  - apply Nat.ltb_ge in E. now left.
Qed.

Lemma scan_while_all fuel pos i :
  pos <= i < scan_while P input fuel pos -> P (at_ input i) = true.
Proof.
  revert pos; induction fuel as [|fuel IH]; simpl; intros pos H; [lia|].
  destruct (pos <? size input) eqn:E; simpl in H; [|lia].
  destruct (P (at_ input pos)) eqn:EP; [|lia].
  destruct (Nat.eq_dec i pos) as [->|]; [assumption|]. apply (IH (S pos)). lia.
Qed.

Lemma scan_while_fuel f1 f2 pos :
  size input - pos <= f1 -> size input - pos <= f2 ->
  scan_while P input f1 pos = scan_while P input f2 pos.
Proof.
  revert f2 pos; induction f1 as [|f1 IH]; intros [|f2] pos H1 H2; simpl;
    try reflexivity.
  - replace (pos <? size input) with false
      by (symmetry; apply Nat.ltb_ge; lia). reflexivity.
  - replace (pos <? size input) with false
      by (symmetry; apply Nat.ltb_ge; lia). reflexivity.
  - destruct (_ && _); [apply IH; lia | reflexivity].
Qed.

Lemma while_ge pos : pos <= while_ P input pos.
Proof. apply scan_while_ge. Qed.

Lemma while_le pos : pos <= size input -> while_ P input pos <= size input.
Proof. apply scan_while_le. Qed.

Lemma while_exit pos :
  size input <= while_ P input pos
  \/ P (at_ input (while_ P input pos)) = false.
Proof. apply scan_while_exit. lia. Qed.

Lemma while_all pos i :
  pos <= i < while_ P input pos -> P (at_ input i) = true.
Proof. apply scan_while_all. Qed.

(** One turn of the loop. *)
Lemma while_step pos :
  pos < size input -> P (at_ input pos) = true ->
  while_ P input pos = while_ P input (S pos).
Proof.
  intros H HP. unfold while_.
  replace (size input - pos) with (S (size input - S pos)) by lia.
  simpl. replace (pos <? size input) with true
    by (symmetry; apply Nat.ltb_lt; lia).
  now rewrite HP.
Qed.

Lemma while_stop pos :
  pos < size input -> P (at_ input pos) = false -> while_ P input pos = pos.
Proof.
  intros H HP. unfold while_.
  replace (size input - pos) with (S (size input - S pos)) by lia.
  simpl. rewrite HP. now rewrite andb_false_r.
Qed.

Lemma while_end pos : size input <= pos -> while_ P input pos = pos.
Proof.
  intros H. unfold while_. replace (size input - pos) with 0 by lia.
  reflexivity.
Qed.
End ScanWhile.

(** The loop sees the input only from the cursor on. *)
Lemma scan_while_shift P (pre rest : string_view) fuel p :
  scan_while P (pre ++ rest) fuel (size pre + p)
  = size pre + scan_while P rest fuel p.
Proof.
  revert p; induction fuel as [|fuel IH]; simpl; intros p; [reflexivity|].
  rewrite at_shift, length_app.
  replace (size pre + p <? size pre + size rest) with (p <? size rest)
    by (destruct (Nat.ltb_spec p (size rest));
        destruct (Nat.ltb_spec (size pre + p) (size pre + size rest)); lia).
  destruct (_ && _); [|reflexivity].
  now rewrite <- IH, Nat.add_succ_r.
Qed.

Lemma while_shift P (pre rest : string_view) p :
  while_ P (pre ++ rest) (size pre + p) = size pre + while_ P rest p.
Proof.
  unfold while_. rewrite length_app.
  replace (size pre + size rest - (size pre + p)) with (size rest - p) by lia.
  apply scan_while_shift.
Qed.

Lemma while_run P (s rest : string_view) :
  forallb P s = true -> stops P rest -> while_ P (s ++ rest) 0 = size s.
Proof.
  induction s as [|c s IH]; simpl; intros Hs Hr.
  - destruct rest as [|c rest]; [reflexivity|].
    apply while_stop; simpl; [lia | exact Hr].
  - apply andb_true_iff in Hs as [Hc Hs].
    rewrite while_step by (simpl; auto; lia).
    change (c :: s ++ rest) with ([c] ++ (s ++ rest)).
    change 1 with (size [c] + 0). rewrite while_shift, IH by assumption.
    reflexivity.
Qed.

(** *** The multiline-string loop *)

Section ScanTriple.
Variable input : string_view.

Lemma scan_triple_ge fuel pos : pos <= scan_triple input fuel pos.
Proof.
  revert pos; induction fuel as [|fuel IH]; simpl; intros pos; [lia|].
  destruct (_ && _); [specialize (IH (S pos)); lia | lia].
Qed.

Lemma scan_triple_le fuel pos :
  pos <= size input -> scan_triple input fuel pos <= size input.
Proof.
  revert pos; induction fuel as [|fuel IH]; simpl; intros pos H; [lia|].
  destruct (pos + 2 <? size input) eqn:E; simpl; [|lia].
  apply Nat.ltb_lt in E. destruct (negb _); [apply IH; lia | lia].
Qed.

Lemma scan_triple_exit fuel pos :
  size input - pos <= fuel ->
  size input <= scan_triple input fuel pos + 2
  \/ substr input (scan_triple input fuel pos) 3 = triple_quote.
Proof.
  revert pos; induction fuel as [|fuel IH]; simpl; intros pos H; [lia|].
  destruct (pos + 2 <? size input) eqn:E; simpl.
  - destruct (sv_eqb (substr input pos 3) triple_quote) eqn:EQ; simpl.
    + right. now apply sv_eqb_eq.
    + apply IH; lia.
  - apply Nat.ltb_ge in E. now left.
Qed.

(** No triple quote starts before the place where the loop stops. *)
Lemma scan_triple_first fuel pos i :
  pos <= i < scan_triple input fuel pos ->
  substr input i 3 <> triple_quote.
Proof.
  revert pos; induction fuel as [|fuel IH]; simpl; intros pos H; [lia|].
  destruct (pos + 2 <? size input) eqn:E; simpl in H; [|lia].
  destruct (sv_eqb (substr input pos 3) triple_quote) eqn:EQ; simpl in H;
    [lia|].
  destruct (Nat.eq_dec i pos) as [->|]; [now apply sv_eqb_neq|].
  apply (IH (S pos)). lia.
Qed.

Lemma scan_triple_fuel f1 f2 pos :
  size input - pos <= f1 -> size input - pos <= f2 ->
  scan_triple input f1 pos = scan_triple input f2 pos.
Proof.
  revert f2 pos; induction f1 as [|f1 IH]; intros [|f2] pos H1 H2; simpl;
    try reflexivity.
  - replace (pos + 2 <? size input) with false
      by (symmetry; apply Nat.ltb_ge; lia). reflexivity.
  - replace (pos + 2 <? size input) with false
      by (symmetry; apply Nat.ltb_ge; lia). reflexivity.
  - destruct (_ && _); [apply IH; lia | reflexivity].
Qed.
End ScanTriple.

Lemma scan_triple_shift (pre rest : string_view) fuel p :
  scan_triple (pre ++ rest) fuel (size pre + p)
  = size pre + scan_triple rest fuel p.
Proof.
  revert p; induction fuel as [|fuel IH]; simpl; intros p; [reflexivity|].
  rewrite substr_shift, length_app.
  replace (size pre + p + 2 <? size pre + size rest)
    with (p + 2 <? size rest)
    by (destruct (Nat.ltb_spec (p + 2) (size rest));
        destruct (Nat.ltb_spec (size pre + p + 2) (size pre + size rest));
        lia).
  destruct (_ && _); [|reflexivity].
  now rewrite <- IH, Nat.add_succ_r.
Qed.

(** *** Skipping comments and whitespace *)

Lemma skip_loop_eq fuel input pos :
  skip_loop fuel input pos =
  let pos1 := while_ is_whitespace input pos in
  if (pos1 <? size input) && Ascii.eqb (at_ input pos1) "#" then
    let pos2 := while_ not_LF input pos1 in
    match fuel with 0 => pos2 | S fuel' => skip_loop fuel' input pos2 end
  else pos1.
Proof. destruct fuel; reflexivity. Qed.

(** The comment loop steps over the ['#'] that starts the comment. *)
Lemma comment_advances input pos :
  pos < size input -> at_ input pos = "#"%char ->
  pos < while_ not_LF input pos.
Proof.
  intros H E. rewrite while_step by (rewrite ?E; auto).
  pose proof (while_ge not_LF input (S pos)). lia.
Qed.

Lemma skip_loop_ge fuel input pos : pos <= skip_loop fuel input pos.
Proof.
  revert pos; induction fuel as [|fuel IH]; intros pos;
    rewrite skip_loop_eq; cbv zeta;
    pose proof (while_ge is_whitespace input pos) as H1;
    pose proof (while_ge not_LF input (while_ is_whitespace input pos)) as H2;
    destruct (_ && _); try lia.
  specialize (IH (while_ not_LF input (while_ is_whitespace input pos))). lia.
Qed.

Lemma skip_loop_le fuel input pos :
  pos <= size input -> skip_loop fuel input pos <= size input.
Proof.
  revert pos; induction fuel as [|fuel IH]; intros pos H;
    rewrite skip_loop_eq; cbv zeta;
    pose proof (while_le is_whitespace input pos H) as H1;
    pose proof (while_le not_LF input _ H1) as H2;
    destruct (_ && _); try lia.
  now apply IH.
Qed.

(** With at least as much fuel as characters left, the loop ends with
    [continue_skipping] false: the cursor is at the end of the input or at a
    character that is neither whitespace nor ['#']. *)
Lemma skip_loop_exit fuel input pos :
  size input - pos <= fuel ->
  let r := skip_loop fuel input pos in
  size input <= r
  \/ (is_whitespace (at_ input r) = false /\ at_ input r <> "#"%char).
Proof.
  revert pos; induction fuel as [|fuel IH]; intros pos H;
    rewrite skip_loop_eq; cbv zeta;
    pose proof (while_ge is_whitespace input pos) as H1;
    pose proof (while_exit is_whitespace input pos) as H2;
    destruct (while_ is_whitespace input pos <? size input) eqn:E; simpl;
    try (apply Nat.ltb_ge in E; now left);
    apply Nat.ltb_lt in E;
    (destruct (Ascii.eqb _ "#") eqn:EH;
     [apply Ascii.eqb_eq in EH
     |apply Ascii.eqb_neq in EH; right; split; [destruct H2; [lia|auto]|auto]]).
  - lia.
  - apply IH. pose proof (comment_advances input _ E EH). lia.
Qed.

Lemma skip_loop_fuel f1 f2 input pos :
  size input - pos <= f1 -> size input - pos <= f2 ->
  skip_loop f1 input pos = skip_loop f2 input pos.
Proof.
  revert f2 pos; induction f1 as [|f1 IH]; intros f2 pos F1 F2;
    rewrite (skip_loop_eq f2), skip_loop_eq; cbv zeta;
    pose proof (while_ge is_whitespace input pos) as H1;
    destruct (while_ is_whitespace input pos <? size input) eqn:E; simpl;
    try reflexivity;
    apply Nat.ltb_lt in E;
    (destruct (Ascii.eqb _ "#") eqn:EH; [apply Ascii.eqb_eq in EH|reflexivity]);
    pose proof (comment_advances input _ E EH).
  - lia.
  - destruct f2 as [|f2]; [lia|]. apply IH; lia.
Qed.

Lemma skip_loop_shift fuel (pre rest : string_view) p :
  skip_loop fuel (pre ++ rest) (size pre + p)
  = size pre + skip_loop fuel rest p.
Proof.
  revert p; induction fuel as [|fuel IH]; intros p;
    rewrite (skip_loop_eq _ rest), skip_loop_eq; cbv zeta;
    rewrite !while_shift, at_shift, length_app;
    replace (size pre + while_ is_whitespace rest p <? size pre + size rest)
      with (while_ is_whitespace rest p <? size rest)
      by (destruct (Nat.ltb_spec (while_ is_whitespace rest p) (size rest));
          destruct (Nat.ltb_spec (size pre + while_ is_whitespace rest p)
                      (size pre + size rest)); lia);
    destruct (_ && _); try reflexivity.
  apply IH.
Qed.

(** The loop steps over one whitespace character. *)
Lemma skip_loop_ws fuel input pos :
  pos < size input -> is_whitespace (at_ input pos) = true ->
  skip_loop fuel input pos = skip_loop fuel input (S pos).
Proof.
  intros H W. rewrite (skip_loop_eq _ _ (S pos)), skip_loop_eq.
  now rewrite (while_step is_whitespace input pos H W).
Qed.

(** It stays where it is at any other character but ['#']. *)
Lemma skip_loop_stay fuel input pos :
  pos < size input -> is_whitespace (at_ input pos) = false ->
  at_ input pos <> "#"%char -> skip_loop fuel input pos = pos.
Proof.
  intros H W C. rewrite skip_loop_eq. cbv zeta.
  rewrite (while_stop is_whitespace input pos H W).
  apply Ascii.eqb_neq in C. now rewrite C, andb_false_r.
Qed.

Lemma skip_loop_end fuel input pos :
  size input <= pos -> skip_loop fuel input pos = pos.
Proof.
  intros H. rewrite skip_loop_eq. cbv zeta.
  rewrite (while_end is_whitespace input pos H).
  now replace (pos <? size input) with false
    by (symmetry; apply Nat.ltb_ge; lia).
Qed.

(** *** The punctuator table *)

Lemma first_match_some table input pos e :
  first_match table input pos = Some e -> In e table /\ matches input pos e.
Proof.
  induction table as [|[str p] table IH]; simpl; [discriminate|].
  destruct (sv_eqb _ str) eqn:E.
  - intros [= <-]. split; [now left | now apply sv_eqb_eq].
  - intros H. destruct (IH H). auto.
Qed.

Lemma first_match_none table input pos e :
  first_match table input pos = None -> In e table -> ~ matches input pos e.
Proof.
  induction table as [|[str p] table IH]; simpl; [tauto|].
  destruct (sv_eqb _ str) eqn:E; [discriminate|].
  intros H [<-|HI]; [now apply sv_eqb_neq | auto].
Qed.

(** In a table sorted by length the first match is a longest match. *)
Lemma first_match_longest table input pos e e' :
  by_length table -> first_match table input pos = Some e ->
  In e' table -> matches input pos e' -> size (fst e') <= size (fst e).
Proof.
  induction 1 as [|[str p] table HS IH HF]; simpl; [discriminate|].
  destruct (sv_eqb _ str) eqn:E.
  - intros [= <-] [<-|HI] _; [lia|].
    rewrite Forall_forall in HF. exact (HF _ HI).
  - intros H [<-|HI] M; [|auto].
    apply sv_eqb_neq in E. contradiction.
Qed.

Lemma spelling_unique (table : list entry) a b b' :
  NoDup (map fst table) -> In (a, b) table -> In (a, b') table -> b = b'.
Proof.
  induction table as [|[x y] table IH]; simpl; [tauto|].
  intros ND. inversion ND as [|? ? NI ND']; subst.
  intros [E1|H1] [E2|H2]; auto.
  - congruence.
  - exfalso. apply NI. inversion E1; subst. now apply (in_map fst _ (a, b')).
  - exfalso. apply NI. inversion E2; subst. now apply (in_map fst _ (a, b)).
Qed.

(** [std::ranges::sort] may leave entries of equal length in any order; the
    entry the loop finds does not depend on it. *)
Lemma first_match_any_order (t1 t2 : list entry) input pos :
  Permutation t1 t2 -> NoDup (map fst t1) -> by_length t1 -> by_length t2 ->
  first_match t1 input pos = first_match t2 input pos.
Proof.
  intros HP ND S1 S2.
  destruct (first_match t1 input pos) as [e1|] eqn:E1;
    destruct (first_match t2 input pos) as [e2|] eqn:E2; try reflexivity.
  - destruct (first_match_some _ _ _ _ E1) as [I1 M1].
    destruct (first_match_some _ _ _ _ E2) as [I2 M2].
    assert (I1' : In e1 t2) by (eapply Permutation_in; eauto).
    assert (I2' : In e2 t1)
      by (eapply Permutation_in; [apply Permutation_sym|]; eauto).
    pose proof (first_match_longest _ _ _ _ e2 S1 E1 I2' M2) as L1.
    pose proof (first_match_longest _ _ _ _ e1 S2 E2 I1' M1) as L2.
    assert (EL : size (fst e1) = size (fst e2)) by lia.
    destruct e1 as [a1 b1], e2 as [a2 b2]. unfold matches in *. simpl in *.
    assert (a1 = a2) by congruence. subst a2.
    f_equal. f_equal. eapply spelling_unique; eauto.
  - destruct (first_match_some _ _ _ _ E1) as [I1 M1].
    exfalso. eapply first_match_none; eauto. eapply Permutation_in; eauto.
  - destruct (first_match_some _ _ _ _ E2) as [I2 M2].
    exfalso. eapply first_match_none; eauto.
    eapply Permutation_in; [apply Permutation_sym|]; eauto.
Qed.

Lemma insert_longer_perm e l : Permutation (e :: l) (insert_longer e l).
Proof.
  induction l as [|x l IH]; simpl; [reflexivity|].
  destruct (longer x e); [|reflexivity].
  rewrite perm_swap. now constructor.
Qed.

Lemma sort_longer_perm l : Permutation l (sort_longer l).
Proof.
  induction l as [|x l IH]; simpl; [constructor|].
  rewrite <- insert_longer_perm. now constructor.
Qed.

Lemma insert_longer_sorted e l : by_length l -> by_length (insert_longer e l).
Proof.
  unfold by_length.
  induction 1 as [|x l HS IH HF]; simpl.
  - repeat constructor.
  - unfold longer. destruct (Nat.ltb_spec (size (fst e)) (size (fst x))).
    + constructor; [assumption|].
      eapply Permutation_Forall; [apply insert_longer_perm|].
      constructor; [lia | assumption].
    + constructor; [now constructor|].
      constructor; [assumption|].
      eapply Forall_impl; [|exact HF]. simpl. intros; lia.
Qed.

Lemma sort_longer_sorted l : by_length (sort_longer l).
Proof.
  induction l as [|x l IH]; simpl; [constructor|].
  now apply insert_longer_sorted.
Qed.

Lemma distinct_NoDup l : distinct l = true -> NoDup l.
Proof.
  induction l as [|x l IH]; simpl; [constructor|].
  intros H. apply andb_true_iff in H as [H1 H2]. constructor; [|auto].
  intros HI. apply negb_true_iff in H1.
  assert (existsb (sv_eqb x) l = true); [|congruence].
  apply existsb_exists. exists x. split; [assumption | apply sv_eqb_refl].
Qed.

Lemma punctuators_distinct : NoDup (map fst punctuators).
Proof. apply distinct_NoDup. vm_compute. reflexivity. Qed.

(** Any table the sort may produce finds the same entries as [kPunctuators]. *)
Lemma kPunctuators_any_order (table : list entry) input pos :
  Permutation punctuators table -> by_length table ->
  first_match table input pos = first_match kPunctuators input pos.
Proof.
  intros HP HS. symmetry. apply first_match_any_order.
  - unfold kPunctuators. rewrite <- sort_longer_perm. exact HP.
  - eapply Permutation_NoDup; [|exact punctuators_distinct].
    apply Permutation_map. apply sort_longer_perm.
  - apply sort_longer_sorted.
  - exact HS.
Qed.

Lemma kPunctuators_nonempty e : In e kPunctuators -> 0 < size (fst e).
Proof.
  revert e. apply Forall_forall. vm_compute.
  repeat (constructor; [lia|]). constructor.
Qed.

Lemma first_match_shift table (pre rest : string_view) p :
  first_match table (pre ++ rest) (size pre + p) = first_match table rest p.
Proof.
  induction table as [|[str x] table IH]; simpl; [reflexivity|].
  now rewrite substr_shift, IH.
Qed.

(** *** One call of [Tokenizer::tokenize] *)

Lemma tokenize_eq tk : tokenize tk = dispatch (skip_comments_and_whitespace tk).
Proof. reflexivity. Qed.

Lemma multiline_string_advanced input pos :
  substr input pos 3 = triple_quote ->
  advanced input pos (tokenize_multiline_string (mk input pos)).
Proof.
  intros H. assert (L : pos + 3 <= size input).
  { apply (f_equal (@Datatypes.length ascii)) in H.
    rewrite substr_length in H. change (size triple_quote) with 3 in H.
    lia. }
  unfold tokenize_multiline_string, advanced. simpl.
  pose proof (scan_triple_ge input (size input - (pos + 3)) (pos + 3)).
  pose proof (scan_triple_le input (size input - (pos + 3)) (pos + 3) L).
  destruct (Nat.leb_spec (size input)
              (scan_triple input (size input - (pos + 3)) (pos + 3) + 2));
    simpl; (split; [reflexivity|]); (split; [lia|]); intros; lia.
Qed.

Lemma string_advanced input pos :
  pos < size input -> advanced input pos (tokenize_string (mk input pos)).
Proof.
  intros L. unfold tokenize_string, advanced. simpl.
  pose proof (while_ge (fun c => negb (Ascii.eqb c dquote)) input (S pos)).
  pose proof (while_le (fun c => negb (Ascii.eqb c dquote)) input (S pos) L).
  destruct (Nat.leb_spec (size input)
              (while_ (fun c => negb (Ascii.eqb c dquote)) input (S pos)));
    simpl; (split; [reflexivity|]); (split; [lia|]); intros; lia.
Qed.

Lemma identifier_advanced input pos :
  pos < size input -> is_alpha (at_ input pos) = true ->
  advanced input pos (tokenize_identifier (mk input pos)).
Proof.
  intros L A. unfold tokenize_identifier, advanced. simpl.
  assert (A' : is_alpha (at_ input pos) || is_digit (at_ input pos) = true)
    by now rewrite A.
  pose proof (while_step (fun c => is_alpha c || is_digit c) input pos L A')
    as E.
  pose proof (while_ge (fun c => is_alpha c || is_digit c) input (S pos)).
  pose proof (while_le (fun c => is_alpha c || is_digit c) input (S pos) L).
  rewrite E. split; [reflexivity|]. split; [lia|]. intros; lia.
Qed.

Lemma punctuator_advanced input pos :
  pos <= size input ->
  advanced input pos (tokenize_punctuator (mk input pos)).
Proof.
  intros L. unfold tokenize_punctuator, advanced. cbn [input_ pos_].
  destruct (first_match kPunctuators input pos) as [[str p]|] eqn:E;
    cbn [input_ pos_ fst snd].
  - destruct (first_match_some _ _ _ _ E) as [HI HM].
    apply kPunctuators_nonempty in HI. unfold matches in HM.
    cbn [fst snd] in *.
    apply (f_equal (@Datatypes.length ascii)) in HM.
    rewrite substr_length in HM.
    split; [reflexivity|]. split; [lia|]. intros; lia.
  - split; [reflexivity|]. split; [lia|]. intros; discriminate.
Qed.

Lemma dispatch_advanced input pos :
  pos <= size input -> advanced input pos (dispatch (mk input pos)).
Proof.
  intros L. unfold dispatch. simpl.
  destruct (Nat.leb_spec (size input) pos).
  - split; [reflexivity|]. simpl. split; [lia|]. intros ? [= <-]. congruence.
  - destruct (sv_eqb _ triple_quote) eqn:E3.
    { apply multiline_string_advanced. now apply sv_eqb_eq. }
    destruct (Ascii.eqb _ dquote); [now apply string_advanced|].
    destruct (is_alpha _) eqn:EA; [now apply identifier_advanced|].
    now apply punctuator_advanced.
Qed.

Lemma tokenize_advanced tk :
  pos_ tk <= size (input_ tk) -> advanced (input_ tk) (pos_ tk) (tokenize tk).
Proof.
  intros L. rewrite tokenize_eq. unfold skip_comments_and_whitespace.
  pose proof (skip_loop_ge (size (input_ tk) - pos_ tk) (input_ tk) (pos_ tk)).
  pose proof (skip_loop_le (size (input_ tk) - pos_ tk) (input_ tk) (pos_ tk) L)
    as L'.
  destruct (dispatch_advanced (input_ tk) _ L') as (HI & HP & HT).
  split; [assumption|]. split; [lia|].
  intros tok E NE. specialize (HT tok E NE). lia.
Qed.

(** The same facts in the form the loops use them. *)
Lemma tokenize_cursor tk tok tk' :
  pos_ tk <= size (input_ tk) -> tokenize tk = (tok, tk') ->
  input_ tk' = input_ tk
  /\ pos_ tk <= pos_ tk' <= size (input_ tk)
  /\ (forall x, tok = Some x -> x <> TEof -> pos_ tk < pos_ tk').
Proof.
  intros L E. pose proof (tokenize_advanced tk L) as H.
  rewrite E in H. exact H.
Qed.

(** *** A call sees the input only from the cursor on *)

Lemma ltb_shift (n a b : nat) : (n + a <? n + b) = (a <? b).
Proof.
  destruct (Nat.ltb_spec a b); destruct (Nat.ltb_spec (n + a) (n + b)); lia.
Qed.

Lemma leb_shift (n a b : nat) : (n + a <=? n + b) = (a <=? b).
Proof.
  destruct (Nat.leb_spec a b); destruct (Nat.leb_spec (n + a) (n + b)); lia.
Qed.

Lemma dispatch_shift pre rest p :
  dispatch (mk (pre ++ rest) (size pre + p))
  = shift_by pre (dispatch (mk rest p)).
Proof.
  unfold dispatch. simpl.
  rewrite length_app, leb_shift, substr_shift, at_shift.
  destruct (size rest <=? p); [reflexivity|].
  destruct (sv_eqb _ triple_quote).
  { unfold tokenize_multiline_string. simpl. rewrite length_app.
    replace (size pre + size rest - (size pre + p + 3))
      with (size rest - (p + 3)) by lia.
    rewrite <- !Nat.add_assoc, scan_triple_shift, !Nat.add_assoc.
    rewrite <- (Nat.add_assoc (size pre) _ 2), leb_shift.
    destruct (_ <=? _); [reflexivity|].
    unfold shift_by. simpl.
    rewrite <- (Nat.add_assoc (size pre) p 3), substr_shift.
    f_equal; [do 3 f_equal; lia | f_equal; lia]. }
  destruct (Ascii.eqb _ dquote).
  { unfold tokenize_string. simpl. rewrite length_app.
    rewrite <- Nat.add_succ_r, while_shift, leb_shift.
    destruct (_ <=? _); [reflexivity|].
    unfold shift_by. simpl. rewrite <- Nat.add_succ_r, substr_shift.
    do 4 f_equal. lia. }
  destruct (is_alpha _).
  { unfold tokenize_identifier, shift_by. simpl.
    rewrite while_shift, substr_shift. do 4 f_equal. lia. }
  unfold tokenize_punctuator. cbn [input_ pos_].
  rewrite first_match_shift.
  destruct (first_match _ rest p) as [[str x]|]; unfold shift_by;
    cbn [input_ pos_ fst snd]; [|reflexivity].
  do 2 f_equal. lia.
Qed.

Lemma tokenize_shift pre rest p :
  tokenize (mk (pre ++ rest) (size pre + p))
  = shift_by pre (tokenize (mk rest p)).
Proof.
  rewrite !tokenize_eq. unfold skip_comments_and_whitespace. simpl.
  rewrite length_app.
  replace (size pre + size rest - (size pre + p)) with (size rest - p) by lia.
  rewrite skip_loop_shift. apply dispatch_shift.
Qed.

End TokenizerFacts.

(* ================================================================= *)
(** ** Progress of the token-collecting loops *)

Module Progress.
Import TokenizerFacts.

Lemma later_refl tk : inside tk -> later tk tk.
Proof. unfold later, inside. auto. Qed.

Lemma later_trans a b c : later a b -> later b c -> later a c.
Proof.
  unfold later, inside. intros (E1 & L1 & I1) (E2 & L2 & I2).
  split; [congruence | split; [lia | assumption]].
Qed.

Lemma make_inside input : inside (Tokenizer.make input).
Proof. unfold inside. simpl. lia. Qed.

Lemma tokenize_later tk tok tk' :
  inside tk -> Tokenizer.tokenize tk = (tok, tk') ->
  later tk tk'
  /\ (forall x,
        tok = Some x -> x <> TEof -> Tokenizer.pos_ tk < Tokenizer.pos_ tk').
Proof.
  intros I E. destruct (tokenize_cursor tk tok tk' I E) as (HI & HP & HT).
  unfold later, inside. rewrite HI. auto with arith.
Qed.

Lemma expect_next_token_later expected tk ok tk' :
  inside tk -> Parser.expect_next_token expected tk = (ok, tk') ->
  later tk tk'.
Proof.
  unfold Parser.expect_next_token. intros I.
  destruct (Tokenizer.tokenize tk) as [tok tk1] eqn:E.
  apply tokenize_later in E as [L _]; [|assumption].
  destruct tok as [tok|]; [destruct (negb _)|]; intros [= <- <-]; exact L.
Qed.

Lemma next_token_as_StringLiteral_later tk r tk' :
  inside tk -> Parser.next_token_as_StringLiteral tk = (r, tk') ->
  later tk tk'.
Proof.
  unfold Parser.next_token_as_StringLiteral. intros I.
  destruct (Tokenizer.tokenize tk) as [tok tk1] eqn:E.
  apply tokenize_later in E as [L _]; [|assumption].
  destruct tok as [[]|]; intros [= <- <-]; exact L.
Qed.

(** *** The loop of the free function [tokenize] *)

Lemma tokenize_loop_enough fuel tk tokens :
  inside tk -> size (Tokenizer.input_ tk) - Tokenizer.pos_ tk < fuel ->
  tokenize_loop fuel tk tokens <> None.
Proof.
  revert tk tokens; induction fuel as [|fuel IH]; intros tk tokens I F;
    [lia|].
  simpl. destruct (Tokenizer.tokenize tk) as [tok tk'] eqn:E.
  apply tokenize_later in E as [(HI & HP & HI') HT]; [|assumption].
  unfold inside in *.
  destruct tok as [tok|]; [|discriminate].
  assert (tok <> TEof ->
          size (Tokenizer.input_ tk') - Tokenizer.pos_ tk' < fuel).
  { intros NE. specialize (HT tok eq_refl NE). rewrite HI in *. lia. }
  destruct tok; try discriminate;
    (apply IH; [assumption | apply H; discriminate]).
Qed.

Lemma tokenize_loop_more fuel fuel' tk tokens r :
  tokenize_loop fuel tk tokens = Some r -> fuel <= fuel' ->
  tokenize_loop fuel' tk tokens = Some r.
Proof.
  revert fuel' tk tokens; induction fuel as [|fuel IH];
    intros [|fuel'] tk tokens; simpl; try discriminate; try lia.
  intros H F. destruct (Tokenizer.tokenize tk) as [[tok|] tk']; [|assumption].
  destruct tok; try assumption; apply IH; auto with arith.
Qed.

(** The bound [tokenize] passes is enough, and so is any larger one. *)
Lemma tokenize_loop_fuel input fuel :
  size input < fuel ->
  tokenize_loop fuel (Tokenizer.make input) [] = Some (tokenize input).
Proof.
  intros F. unfold tokenize.
  destruct (tokenize_loop (S (size input)) (Tokenizer.make input) [])
    as [r|] eqn:E.
  - eapply tokenize_loop_more; [exact E | lia].
  - exfalso. revert E. apply tokenize_loop_enough.
    + apply make_inside.
    + simpl. lia.
Qed.

(** *** The loops of the parser *)

Lemma later_inside a b : later a b -> inside b.
Proof. now intros (_ & _ & ?). Qed.

Lemma later_left a b : later a b -> Parser.left b <= Parser.left a.
Proof. unfold later, Parser.left. intros (-> & ? & ?). lia. Qed.

Lemma later_left_lt a b :
  later a b -> Tokenizer.pos_ a < Tokenizer.pos_ b ->
  Parser.left b < Parser.left a.
Proof. unfold later, inside, Parser.left. intros (-> & ? & ?) ?. lia. Qed.

(** Read the next token and record where the cursor went. *)
Ltac next_token tok tk' L T :=
  match goal with
  | |- context [Tokenizer.tokenize ?tk] =>
      let E := fresh "E" in
      destruct (Tokenizer.tokenize tk) as [tok tk'] eqn:E;
      apply tokenize_later in E as [L T];
      [|solve [assumption | eapply later_inside; eassumption]]
  end.

Lemma load_symbols_later fuel symbols tk r tk' :
  inside tk -> Parser.load_symbols fuel symbols tk = Some (r, tk') ->
  later tk tk'.
Proof.
  revert symbols tk; induction fuel as [|fuel IH]; intros symbols tk I;
    [discriminate|].
  simpl. next_token tok1 tk1 L1 T1.
  destruct tok1 as [[p| | | |]|]; try (intros [= <- <-]; exact L1).
  destruct (token.Punctuator_eqb p token.RParen);
    [intros [= <- <-]; exact L1|].
  destruct (negb _); [intros [= <- <-]; exact L1|].
  next_token tok2 tk2 L2 T2.
  pose proof (later_trans _ _ _ L1 L2) as L12.
  destruct tok2 as [[| |name|value|]|]; try (intros [= <- <-]; exact L12).
  - destruct (Parser.expect_next_token _ tk2) as [ok tk3] eqn:E3.
    apply expect_next_token_later in E3; [|eapply later_inside; eassumption].
    pose proof (later_trans _ _ _ L12 E3) as L13.
    destruct (negb ok); [intros [= <- <-]; exact L13|].
    destruct (Parser.next_token_as_StringLiteral tk3) as [sym tk4] eqn:E4.
    apply next_token_as_StringLiteral_later in E4;
      [|eapply later_inside; eassumption].
    pose proof (later_trans _ _ _ L13 E4) as L14.
    destruct sym; [|intros [= <- <-]; exact L14].
    intros H. apply IH in H; [|eapply later_inside; eassumption].
    eapply later_trans; eassumption.
  - intros H. apply IH in H; [|eapply later_inside; eassumption].
    eapply later_trans; eassumption.
Qed.

Lemma load_symbols_enough fuel symbols tk :
  inside tk -> Parser.left tk < fuel ->
  Parser.load_symbols fuel symbols tk <> None.
Proof.
  revert symbols tk; induction fuel as [|fuel IH]; intros symbols tk I F;
    [lia|].
  simpl. next_token tok1 tk1 L1 T1.
  destruct tok1 as [[p| | | |]|]; try discriminate.
  destruct (token.Punctuator_eqb p token.RParen); [discriminate|].
  destruct (negb _); [discriminate|].
  assert (F1 : Parser.left tk1 < fuel).
  { specialize (T1 _ eq_refl ltac:(discriminate)).
    pose proof (later_left_lt _ _ L1 T1). lia. }
  next_token tok2 tk2 L2 T2.
  destruct tok2 as [[| |name|value|]|]; try discriminate.
  - destruct (Parser.expect_next_token _ tk2) as [ok tk3] eqn:E3.
    apply expect_next_token_later in E3; [|eapply later_inside; eassumption].
    destruct (negb ok); [discriminate|].
    destruct (Parser.next_token_as_StringLiteral tk3) as [sym tk4] eqn:E4.
    apply next_token_as_StringLiteral_later in E4;
      [|eapply later_inside; eassumption].
    destruct sym; [|discriminate].
    apply IH; [eapply later_inside; eassumption|].
    apply later_left in L2, E3, E4. lia.
  - apply IH; [eapply later_inside; eassumption|].
    apply later_left in L2. lia.
Qed.

Lemma load_symbols_more fuel fuel' symbols tk r :
  Parser.load_symbols fuel symbols tk = Some r -> fuel <= fuel' ->
  Parser.load_symbols fuel' symbols tk = Some r.
Proof.
  revert fuel' symbols tk; induction fuel as [|fuel IH];
    intros [|fuel'] symbols tk; simpl; try discriminate; try lia.
  intros H F. destruct (Tokenizer.tokenize tk) as [[tok|] tk1]; [|assumption].
  destruct tok as [p| | | |]; try assumption.
  destruct (token.Punctuator_eqb p token.RParen); [assumption|].
  destruct (negb _); [assumption|].
  destruct (Tokenizer.tokenize tk1) as [[tok|] tk2]; [|assumption].
  destruct tok; try assumption.
  - destruct (Parser.expect_next_token _ tk2) as [ok tk3].
    destruct (negb ok); [assumption|].
    destruct (Parser.next_token_as_StringLiteral tk3) as [[v|] tk4];
      [|assumption].
    apply IH; auto with arith.
  - apply IH; auto with arith.
Qed.

Lemma parse_load_stmt_fuel_enough fuel tk :
  inside tk -> Parser.left tk < fuel ->
  Parser.parse_load_stmt_fuel fuel tk <> None.
Proof.
  intros I F. unfold Parser.parse_load_stmt_fuel.
  next_token tok1 tk1 L1 T1.
  destruct tok1 as [[[]| | | |]|]; try discriminate.
  next_token tok2 tk2 L2 T2.
  destruct tok2 as [[| | |m|]|]; try discriminate.
  pose proof (load_symbols_enough fuel [] tk2) as H.
  destruct (Parser.load_symbols fuel [] tk2) as [[[[|]|] ?]|];
    try discriminate.
  exfalso. apply H; [eapply later_inside; eassumption | | reflexivity].
  apply later_left in L1, L2. lia.
Qed.

Lemma parse_load_stmt_fuel_more fuel fuel' tk r :
  Parser.parse_load_stmt_fuel fuel tk = Some r -> fuel <= fuel' ->
  Parser.parse_load_stmt_fuel fuel' tk = Some r.
Proof.
  unfold Parser.parse_load_stmt_fuel. intros H F.
  destruct (Tokenizer.tokenize tk) as [[[[]| | | |]|] tk1]; try assumption.
  destruct (Tokenizer.tokenize tk1) as [[[| | |m|]|] tk2]; try assumption.
  destruct (Parser.load_symbols fuel [] tk2) as [r'|] eqn:E; [|discriminate].
  now rewrite (load_symbols_more _ _ _ _ _ E F).
Qed.

(** The bound [parse_load_stmt] passes is enough, and so is any larger
    one. *)
Lemma parse_load_stmt_fuel_ok fuel tk :
  inside tk -> Parser.left tk < fuel ->
  Parser.parse_load_stmt_fuel fuel tk = Some (Parser.parse_load_stmt tk).
Proof.
  intros I F. unfold Parser.parse_load_stmt.
  destruct (Parser.parse_load_stmt_fuel (S (Parser.left tk)) tk) as [r|] eqn:E.
  - eapply parse_load_stmt_fuel_more; [exact E | lia].
  - exfalso. revert E. apply parse_load_stmt_fuel_enough; [assumption | lia].
Qed.

Lemma parse_load_stmt_later tk r tk' :
  inside tk -> Parser.parse_load_stmt tk = (r, tk') -> later tk tk'.
Proof.
  intros I. unfold Parser.parse_load_stmt.
  destruct (Parser.parse_load_stmt_fuel _ tk) as [r0|] eqn:E;
    [|intros [= <- <-]; now apply later_refl].
  intros ->. revert E. unfold Parser.parse_load_stmt_fuel.
  next_token tok1 tk1 L1 T1.
  destruct tok1 as [[[]| | | |]|]; try (intros [= <- <-]; exact L1).
  next_token tok2 tk2 L2 T2.
  pose proof (later_trans _ _ _ L1 L2) as L12.
  destruct tok2 as [[| | |m|]|]; try (intros [= <- <-]; exact L12).
  destruct (Parser.load_symbols _ [] tk2) as [[r1 tk3]|] eqn:E3;
    [|discriminate].
  apply load_symbols_later in E3; [|eapply later_inside; eassumption].
  pose proof (later_trans _ _ _ L12 E3) as L13.
  destruct r1 as [[|]|]; intros [= <- <-]; exact L13.
Qed.

Lemma parse_loop_enough fuel program tk :
  inside tk -> Parser.left tk < fuel ->
  Parser.parse_loop fuel program tk <> None.
Proof.
  revert program tk; induction fuel as [|fuel IH]; intros program tk I F;
    [lia|].
  simpl. next_token tok1 tk1 L1 T1.
  destruct tok1 as [[|kw| | |]|]; try discriminate.
  destruct (token.Keyword_eqb kw token.Load); [|discriminate].
  destruct (Parser.parse_load_stmt tk1) as [[load|] tk2] eqn:E2;
    [|discriminate].
  apply parse_load_stmt_later in E2; [|eapply later_inside; eassumption].
  apply IH; [eapply later_inside; eassumption|].
  specialize (T1 _ eq_refl ltac:(discriminate)).
  pose proof (later_left_lt _ _ L1 T1). apply later_left in E2. lia.
Qed.

Lemma parse_loop_more fuel fuel' program tk r :
  Parser.parse_loop fuel program tk = Some r -> fuel <= fuel' ->
  Parser.parse_loop fuel' program tk = Some r.
Proof.
  revert fuel' program tk; induction fuel as [|fuel IH];
    intros [|fuel'] program tk; simpl; try discriminate; try lia.
  intros H F. destruct (Tokenizer.tokenize tk) as [[tok|] tk1]; [|assumption].
  destruct tok as [|kw| | |]; try assumption.
  destruct (token.Keyword_eqb kw token.Load); [|assumption].
  destruct (Parser.parse_load_stmt tk1) as [[load|] tk2]; [|assumption].
  apply IH; auto with arith.
Qed.

(** The bound [parse] passes is enough, and so is any larger one. *)
Lemma parse_loop_fuel input fuel :
  size input < fuel ->
  Parser.parse_loop fuel (mkProgram []) (Tokenizer.make input)
  = Some (parse input).
Proof.
  intros F. unfold parse, Parser.parse.
  change (Parser.left (Tokenizer.make input)) with (size input - 0).
  rewrite Nat.sub_0_r.
  destruct (Parser.parse_loop (S (size input)) _ _) as [r|] eqn:E.
  - eapply parse_loop_more; [exact E | lia].
  - exfalso. revert E. apply parse_loop_enough; [apply make_inside|].
    unfold Parser.left. simpl. lia.
Qed.

(** A result found with any amount of fuel is the function's result. *)
Lemma tokenize_from_loop input fuel r :
  tokenize_loop fuel (Tokenizer.make input) [] = Some r ->
  tokenize input = r.
Proof.
  intros H.
  pose proof (tokenize_loop_more _ (fuel + S (size input)) _ _ _ H
                ltac:(lia)) as H'.
  rewrite tokenize_loop_fuel in H' by lia. congruence.
Qed.

Lemma parse_load_stmt_from_fuel tk fuel r :
  inside tk -> Parser.parse_load_stmt_fuel fuel tk = Some r ->
  Parser.parse_load_stmt tk = r.
Proof.
  intros I H.
  pose proof (parse_load_stmt_fuel_more _ (fuel + S (Parser.left tk)) _ _ H
                ltac:(lia)) as H'.
  rewrite parse_load_stmt_fuel_ok in H' by (assumption || lia). congruence.
Qed.

Lemma parse_from_loop input fuel r :
  Parser.parse_loop fuel (mkProgram []) (Tokenizer.make input) = Some r ->
  parse input = r.
Proof.
  intros H.
  pose proof (parse_loop_more _ (fuel + S (size input)) _ _ _ H
                ltac:(lia)) as H'.
  rewrite parse_loop_fuel in H' by lia. congruence.
Qed.

End Progress.

(* ================================================================= *)
(** ** Tokens read from a known text *)

Module Lexing.
Import TokenizerFacts.

Lemma reads_intro text tok rest :
  Tokenizer.tokenize (Tokenizer.make (text ++ rest))
  = (Some tok, Tokenizer.mk (text ++ rest) (size text)) ->
  reads text tok rest.
Proof.
  intros H pre. unfold after.
  rewrite <- (Nat.add_0_r (size pre)) at 1.
  rewrite tokenize_shift. unfold Tokenizer.make in H. rewrite H.
  unfold shift_by. simpl. now rewrite app_assoc, length_app.
Qed.

Lemma after_nil rest : after [] rest = Tokenizer.make rest.
Proof. reflexivity. Qed.

(** *** Character classes *)

Lemma alpha_not_blank c :
  Tokenizer.is_alpha c = true ->
  Tokenizer.is_whitespace c = false /\ c <> "#"%char /\ c <> dquote.
Proof.
  destruct c as [[] [] [] [] [] [] [] []]; intros H;
    try discriminate H; repeat split; discriminate.
Qed.

(** *** Leading whitespace *)

Lemma skip_loop_whitespace fuel (pre ws rest : string_view) :
  forallb Tokenizer.is_whitespace ws = true ->
  Tokenizer.skip_loop fuel (pre ++ ws ++ rest) (size pre)
  = Tokenizer.skip_loop fuel (pre ++ ws ++ rest) (size pre + size ws).
Proof.
  revert pre; induction ws as [|c ws IH]; intros pre H; simpl.
  - now rewrite Nat.add_0_r.
  - apply andb_true_iff in H as [Hc Hw].
    rewrite skip_loop_ws.
    + specialize (IH (pre ++ [c]) Hw).
      rewrite <- app_assoc, length_app in IH. simpl in IH.
      rewrite Nat.add_1_r in IH. rewrite IH. f_equal. lia.
    + rewrite length_app. simpl. lia.
    + rewrite <- (Nat.add_0_r (size pre)), at_shift. exact Hc.
Qed.

Lemma tokenize_whitespace (ws rest : string_view) :
  forallb Tokenizer.is_whitespace ws = true ->
  Tokenizer.tokenize (Tokenizer.make (ws ++ rest))
  = shift_by ws (Tokenizer.tokenize (Tokenizer.make rest)).
Proof.
  intros H. rewrite !tokenize_eq.
  unfold Tokenizer.skip_comments_and_whitespace, Tokenizer.make. simpl.
  rewrite !Nat.sub_0_r.
  rewrite (skip_loop_whitespace _ [] ws rest H). simpl.
  rewrite <- (Nat.add_0_r (size ws)), skip_loop_shift.
  rewrite (skip_loop_fuel _ (size rest) rest 0)
    by (rewrite ?length_app; lia).
  apply dispatch_shift.
Qed.

(** Whitespace before a token is skipped. *)
Lemma reads_whitespace ws text tok rest :
  forallb Tokenizer.is_whitespace ws = true ->
  reads text tok rest -> reads (ws ++ text) tok rest.
Proof.
  intros H R. apply reads_intro. rewrite <- app_assoc.
  rewrite tokenize_whitespace by assumption.
  specialize (R []). rewrite after_nil in R. rewrite R.
  unfold shift_by, after. simpl. now rewrite length_app.
Qed.

(** *** String literals *)

Lemma reads_string s rest :
  forallb not_dquote s = true ->
  substr (quoted s ++ rest) 0 3 <> triple_quote ->
  reads (quoted s) (TStringLiteral s) rest.
Proof.
  intros Hs H3. apply reads_intro. rewrite tokenize_eq.
  unfold Tokenizer.skip_comments_and_whitespace, Tokenizer.make.
  cbn [Tokenizer.input_ Tokenizer.pos_].
  rewrite skip_loop_stay; [| simpl; lia | reflexivity | discriminate].
  unfold dispatch. cbn [Tokenizer.input_ Tokenizer.pos_].
  apply sv_eqb_neq in H3. rewrite H3.
  change (size (quoted s ++ rest) <=? 0) with false. cbv iota.
  change (at_ (quoted s ++ rest) 0) with dquote.
  rewrite Ascii.eqb_refl.
  unfold Tokenizer.tokenize_string. cbn [Tokenizer.input_ Tokenizer.pos_].
  assert (E : quoted s ++ rest = [dquote] ++ (s ++ dquote :: rest)).
  { unfold quoted. simpl. now rewrite <- app_assoc. }
  assert (W : Tokenizer.while_ (fun c => negb (Ascii.eqb c dquote))
                (quoted s ++ rest) 1 = 1 + size s).
  { rewrite E. change 1 with (size [dquote] + 0) at 1.
    rewrite while_shift. f_equal. apply (while_run not_dquote); auto.
    reflexivity. }
  rewrite W.
  replace (size (quoted s ++ rest) <=? 1 + size s) with false.
  2:{ symmetry. apply Nat.leb_gt. rewrite E, !length_app. simpl. lia. }
  f_equal.
  - do 2 f_equal. rewrite E. change 1 with (size [dquote] + 0) at 1.
    rewrite substr_shift. unfold substr. simpl skipn.
    replace (1 + size s - 1) with (size s) by lia.
    now rewrite firstn_length_app.
  - f_equal. unfold quoted. simpl. rewrite length_app. simpl. lia.
Qed.

(** *** Identifiers and keywords *)

Lemma reads_identifier name rest :
  identifier_shaped name -> stops is_alnum rest ->
  reads name (Tokenizer.classify name) rest.
Proof.
  destruct name as [|c cs]; simpl; [tauto|]. intros [Hc Hcs] Hr.
  destruct (alpha_not_blank c Hc) as (W & NH & NQ).
  apply reads_intro. rewrite tokenize_eq.
  unfold Tokenizer.skip_comments_and_whitespace, Tokenizer.make.
  cbn [Tokenizer.input_ Tokenizer.pos_].
  rewrite skip_loop_stay; [| simpl; lia | exact W | exact NH].
  unfold dispatch. cbn [Tokenizer.input_ Tokenizer.pos_].
  change (size ((c :: cs) ++ rest) <=? 0) with false. cbv iota.
  apply Ascii.eqb_neq in NQ.
  replace (sv_eqb (substr ((c :: cs) ++ rest) 0 3) triple_quote) with false.
  2:{ unfold substr. simpl. now rewrite NQ. }
  change (at_ ((c :: cs) ++ rest) 0) with c. rewrite NQ, Hc.
  unfold Tokenizer.tokenize_identifier.
  cbn [Tokenizer.input_ Tokenizer.pos_].
  assert (W' : Tokenizer.while_ (fun c => Tokenizer.is_alpha c
                  || Tokenizer.is_digit c) ((c :: cs) ++ rest) 0
               = size (c :: cs)).
  { apply (while_run is_alnum); [|exact Hr].
    simpl. unfold is_alnum at 1. now rewrite Hc, Hcs. }
  rewrite W', Nat.sub_0_r. unfold substr. simpl skipn.
  change (c :: cs ++ rest) with ((c :: cs) ++ rest).
  now rewrite firstn_length_app.
Qed.

(** *** The punctuators and the keyword of a load statement *)

Lemma reads_lparen rest : reads (sv "(") (TPunctuator token.LParen) rest.
Proof. apply reads_intro. vm_compute. reflexivity. Qed.

Lemma reads_rparen rest : reads (sv ")") (TPunctuator token.RParen) rest.
Proof. apply reads_intro. vm_compute. reflexivity. Qed.

Lemma reads_comma rest : reads (sv ",") (TPunctuator token.Comma) rest.
Proof. apply reads_intro. vm_compute. reflexivity. Qed.

(** [=] is not read as the start of [==] when a space follows it. *)
Lemma reads_equals rest :
  reads (sv "=") (TPunctuator token.Equals) (sv " " ++ rest).
Proof. apply reads_intro. vm_compute. reflexivity. Qed.

Lemma reads_load rest :
  reads (sv "load") (TKeyword token.Load) (sv "(" ++ rest).
Proof.
  apply (reads_identifier (sv "load")); [|reflexivity]. now split.
Qed.

(** *** The end of the input *)

Lemma tokenize_end pre :
  Tokenizer.tokenize (after pre []) = (Some TEof, after pre []).
Proof.
  unfold after. rewrite <- (Nat.add_0_r (size pre)) at 1.
  rewrite tokenize_shift. vm_compute shift_by.
  now rewrite Nat.add_0_r.
Qed.

(** *** Reading in a right-nested text *)

Lemma read pre text tok rest :
  reads text tok rest ->
  Tokenizer.tokenize (after pre (text ++ rest))
  = (Some tok, after (pre ++ text) rest).
Proof. intros H. apply H. Qed.

Lemma read_spaced pre text tok rest :
  reads text tok rest ->
  Tokenizer.tokenize (after pre (sv " " ++ text ++ rest))
  = (Some tok, after (pre ++ sv " " ++ text) rest).
Proof.
  intros H. rewrite app_assoc.
  apply (reads_whitespace (sv " ") text tok rest eq_refl H).
Qed.

(** *** Whitespace and comments up to the end of the input *)

Lemma skip_loop_blank b :
  blank b ->
  forall pre fuel, size b <= fuel ->
    Tokenizer.skip_loop fuel (pre ++ b) (size pre) = size pre + size b.
Proof.
  induction 1 as [|c rest Hc Hb IH|body rest Hbody Hstop Hb IH];
    intros pre fuel F.
  - simpl. rewrite app_nil_r, Nat.add_0_r. now apply skip_loop_end.
  - simpl in F. rewrite skip_loop_ws.
    + specialize (IH (pre ++ [c]) fuel ltac:(lia)).
      rewrite <- app_assoc, length_app in IH. simpl in IH.
      rewrite Nat.add_1_r in IH. rewrite IH. simpl. lia.
    + rewrite length_app. simpl. lia.
    + rewrite <- (Nat.add_0_r (size pre)), at_shift. exact Hc.
  - simpl in F. destruct fuel as [|fuel]; [lia|].
    rewrite length_app in F.
    rewrite skip_loop_eq. cbv zeta.
    rewrite (while_stop Tokenizer.is_whitespace);
      [| rewrite length_app; simpl; lia
       | rewrite <- (Nat.add_0_r (size pre)), at_shift; reflexivity ].
    replace (size pre <? size (pre ++ "#"%char :: body ++ rest)) with true
      by (symmetry; apply Nat.ltb_lt; rewrite length_app; simpl; lia).
    rewrite <- (Nat.add_0_r (size pre)) at 1. rewrite at_shift.
    change (at_ ("#"%char :: body ++ rest) 0) with "#"%char.
    rewrite Ascii.eqb_refl. cbn [andb].
    rewrite <- (Nat.add_0_r (size pre)) at 1. rewrite while_shift.
    change ("#"%char :: body ++ rest) with (("#"%char :: body) ++ rest).
    rewrite (while_run not_LF ("#"%char :: body) rest)
      by (simpl; auto).
    specialize (IH (pre ++ "#"%char :: body) fuel ltac:(lia)).
    rewrite <- app_assoc, length_app in IH. rewrite IH.
    rewrite length_app. lia.
Qed.

(** On such a text the call finds the end of the input. *)
Lemma tokenize_blank b pre :
  blank b ->
  Tokenizer.tokenize (after pre b) = (Some TEof, after (pre ++ b) []).
Proof.
  intros H. rewrite tokenize_eq.
  unfold Tokenizer.skip_comments_and_whitespace, after.
  cbn [Tokenizer.input_ Tokenizer.pos_].
  rewrite skip_loop_blank by (rewrite ?length_app; auto; lia).
  unfold dispatch. cbn [Tokenizer.input_ Tokenizer.pos_].
  rewrite length_app, Nat.leb_refl, app_nil_r. reflexivity.
Qed.

End Lexing.

(* ================================================================= *)
(** ** Load statements as they are spelled in a source text *)

Module Spelling.
Import TokenizerFacts Lexing.

Lemma quoted_not_triple s rest :
  plain s -> no_quote_next rest ->
  substr (quoted s ++ rest) 0 3 <> triple_quote.
Proof.
  unfold plain, quoted, substr.
  destruct s as [|c s]; simpl.
  - destruct rest as [|c rest]; simpl; [discriminate|].
    unfold triple_quote. congruence.
  - intros H _. apply andb_true_iff in H as [H _].
    unfold not_dquote in H. apply negb_true_iff, Ascii.eqb_neq in H.
    unfold triple_quote. congruence.
Qed.

Lemma reads_quoted s rest :
  plain s -> no_quote_next rest -> reads (quoted s) (TStringLiteral s) rest.
Proof.
  intros P N. apply reads_string; [exact P | now apply quoted_not_triple].
Qed.

Lemma spell_symbols_next l rest :
  no_quote_next rest -> no_quote_next (spell_symbols l ++ rest).
Proof.
  destruct l as [|[e|n e] l]; simpl; [auto | discriminate | discriminate].
Qed.

(** The loop of [parse_load_stmt] reads the spelled symbols one per
    iteration and goes on with what follows them. *)
Lemma load_symbols_spelled l :
  Forall symbol_ok l ->
  forall fuel acc pre rest,
    no_quote_next rest ->
    Parser.load_symbols (Datatypes.length l + fuel) acc
      (after pre (spell_symbols l ++ rest))
    = Parser.load_symbols fuel (acc ++ map binding l)
        (after (pre ++ spell_symbols l) rest).
Proof.
  induction 1 as [|s l Hs Hl IH]; intros fuel acc pre rest N.
  - simpl. now rewrite !app_nil_r.
  - assert (N' : no_quote_next (spell_symbols l ++ rest))
      by now apply spell_symbols_next.
    change (spell_symbols (s :: l)) with (spell_symbol s ++ spell_symbols l).
    change (Datatypes.length (s :: l) + fuel)
      with (S (Datatypes.length l + fuel)).
    cbn [Parser.load_symbols map].
    destruct s as [e|n e]; cbn [spell_symbol binding symbol_ok] in *;
      rewrite <- !app_assoc.
    + rewrite (read pre _ _ _ (reads_comma _)).
      cbn [token.Punctuator_eqb negb].
      rewrite (read_spaced _ _ _ _ (reads_quoted e _ Hs N')).
      rewrite IH by assumption. rewrite <- !app_assoc. reflexivity.
    + destruct Hs as [[Hn Hc] He].
      rewrite (read pre _ _ _ (reads_comma _)).
      cbn [token.Punctuator_eqb negb].
      rewrite (read_spaced _ _ _ _
                 (reads_identifier n (sv " " ++ _) Hn eq_refl)).
      rewrite Hc. unfold Parser.expect_next_token.
      rewrite (read_spaced _ _ _ _ (reads_equals _)).
      cbn [Token_eqb token.Punctuator_eqb negb].
      unfold Parser.next_token_as_StringLiteral.
      rewrite (read_spaced _ _ _ _ (reads_quoted e _ He N')).
      rewrite IH by assumption. rewrite <- !app_assoc. reflexivity.
Qed.

Lemma after_inside pre rest : inside (after pre rest).
Proof. unfold inside, after. simpl. rewrite length_app. lia. Qed.

(** The statement's text up to the end of its symbols. *)
Lemma parse_load_stmt_fuel_symbols m l trailing fuel pre rest :
  plain m -> Forall symbol_ok l -> no_quote_next (trailing ++ sv ")" ++ rest) ->
  Parser.parse_load_stmt_fuel (Datatypes.length l + fuel)
    (after pre (spell_arguments m l trailing ++ rest))
  = match
      Parser.load_symbols fuel (map binding l)
        (after (pre ++ sv "(" ++ quoted m ++ spell_symbols l)
           (trailing ++ sv ")" ++ rest))
    with
    | None => None
    | Some (None, tk) => Some (None, tk)
    | Some (Some [], tk) => Some (None, tk)
    | Some (Some symbols, tk) => Some (Some (mkLoadStmt m symbols), tk)
    end.
Proof.
  intros Hm Hl N. unfold Parser.parse_load_stmt_fuel, spell_arguments.
  rewrite <- !app_assoc.
  rewrite (read pre _ _ _ (reads_lparen _)).
  rewrite (read _ _ _ _ (reads_quoted m _ Hm (spell_symbols_next l _ N))).
  rewrite (load_symbols_spelled l Hl fuel [] _ _ N).
  rewrite <- !app_assoc. simpl app.
  destruct (Parser.load_symbols _ _ _) as [[[[|x y]|] tk]|]; reflexivity.
Qed.

(** A load statement without a trailing comma is read as it is spelled. *)
Lemma parse_load_stmt_spelled m l pre rest :
  plain m -> Forall symbol_ok l -> l <> [] ->
  Parser.parse_load_stmt (after pre (spell_arguments m l [] ++ rest))
  = (Some (mkLoadStmt m (map binding l)),
     after (pre ++ spell_arguments m l []) rest).
Proof.
  intros Hm Hl NE.
  apply (Progress.parse_load_stmt_from_fuel _ (Datatypes.length l + 1));
    [apply after_inside|].
  rewrite parse_load_stmt_fuel_symbols by (auto; discriminate).
  cbn [app Parser.load_symbols].
  rewrite (read _ _ _ _ (reads_rparen _)).
  cbn [token.Punctuator_eqb]. unfold spell_arguments.
  rewrite <- !app_assoc. simpl app at 4.
  destruct l as [|s l]; [congruence | reflexivity].
Qed.

(** With a comma before the closing parenthesis the statement is refused:
    after a comma the loop accepts a string or an identifier only. *)
Lemma parse_load_stmt_trailing_comma m l pre rest :
  plain m -> Forall symbol_ok l ->
  fst (Parser.parse_load_stmt
         (after pre (spell_arguments m l (sv ",") ++ rest)))
  = None.
Proof.
  intros Hm Hl.
  erewrite (Progress.parse_load_stmt_from_fuel _ (Datatypes.length l + 1));
    [| apply after_inside
     | rewrite parse_load_stmt_fuel_symbols by (auto; discriminate);
       cbn [Parser.load_symbols];
       rewrite (read _ _ _ _ (reads_comma _));
       cbn [token.Punctuator_eqb negb];
       rewrite (read _ _ _ _ (reads_rparen _)); reflexivity ].
  reflexivity.
Qed.

(** *** Programs *)

Lemma reads_load_after ws rest :
  forallb Tokenizer.is_whitespace ws = true ->
  reads (ws ++ sv "load") (TKeyword token.Load) (sv "(" ++ rest).
Proof. intros H. apply reads_whitespace; [exact H | apply reads_load]. Qed.

(** The loop of [parse] reads the spelled statements one per iteration and
    goes on with what follows them. *)
Lemma parse_loop_spelled l :
  Forall statement_ok l ->
  forall fuel program pre rest,
    Parser.parse_loop (Datatypes.length l + fuel) program
      (after pre (spell_program l ++ rest))
    = Parser.parse_loop fuel
        (mkProgram (statements program ++ map meaning l))
        (after (pre ++ spell_program l) rest).
Proof.
  induction 1 as [|st l Hs Hl IH]; intros fuel program pre rest.
  - simpl. rewrite !app_nil_r. now destruct program.
  - destruct Hs as (Hw & Hm & Hi & NE).
    change (spell_program (st :: l))
      with (spell_statement st ++ spell_program l).
    change (Datatypes.length (st :: l) + fuel)
      with (S (Datatypes.length l + fuel)).
    cbn [Parser.parse_loop map].
    unfold spell_statement, spell_load.
    rewrite <- !app_assoc.
    rewrite (app_assoc (lead st) (sv "load")).
    assert (E : spell_arguments (from_module st) (imports st) []
                ++ spell_program l ++ rest
                = sv "(" ++ (quoted (from_module st)
                    ++ spell_symbols (imports st) ++ [] ++ sv ")")
                    ++ spell_program l ++ rest)
      by reflexivity.
    rewrite E at 1.
    rewrite (read pre _ _ _ (reads_load_after (lead st) _ Hw)).
    cbn [token.Keyword_eqb].
    change (sv "(" ++ (quoted (from_module st)
                    ++ spell_symbols (imports st) ++ [] ++ sv ")")
                    ++ spell_program l ++ rest)
      with (spell_arguments (from_module st) (imports st) []
                ++ spell_program l ++ rest).
    rewrite parse_load_stmt_spelled by assumption.
    rewrite IH. cbn [statements]. unfold meaning at 2.
    rewrite <- !app_assoc. reflexivity.
Qed.

(** A spelled program, followed by whitespace and comments only, parses to
    its statements in order. *)
Lemma parse_spelled l tail :
  Forall statement_ok l -> blank tail ->
  parse (spell_program l ++ tail) = Some (mkProgram (map meaning l)).
Proof.
  intros Hl Hb.
  apply (Progress.parse_from_loop _ (Datatypes.length l + 1)).
  rewrite <- after_nil, parse_loop_spelled by assumption.
  cbn [Parser.parse_loop]. now rewrite tokenize_blank.
Qed.

(** [parse] fails when a statement with a trailing comma follows. *)
Lemma parse_trailing_comma l ws m syms rest :
  Forall statement_ok l ->
  forallb Tokenizer.is_whitespace ws = true ->
  plain m -> Forall symbol_ok syms ->
  parse (spell_program l ++ ws ++ spell_load m syms (sv ",") ++ rest)
  = None.
Proof.
  intros Hl Hw Hm Hs.
  apply (Progress.parse_from_loop _ (Datatypes.length l + 1)).
  rewrite <- after_nil, parse_loop_spelled by assumption.
  cbn [Parser.parse_loop]. unfold spell_load.
  rewrite <- !app_assoc. rewrite (app_assoc ws (sv "load")).
  assert (E : spell_arguments m syms (sv ",") ++ rest
              = sv "(" ++ (quoted m ++ spell_symbols syms ++ sv ","
                           ++ sv ")") ++ rest)
    by (unfold spell_arguments; now rewrite <- !app_assoc).
  rewrite E at 1.
  rewrite (read _ _ _ _ (reads_load_after ws _ Hw)).
  cbn [token.Keyword_eqb]. rewrite <- E.
  pose proof (parse_load_stmt_trailing_comma m syms
                (([] ++ spell_program l) ++ ws ++ sv "load") rest Hm Hs) as H.
  destruct (Parser.parse_load_stmt _) as [r tk]. simpl in H. now subst r.
Qed.

(** The spelling of a keyword is read as that keyword. *)
Lemma reads_keyword kw rest :
  stops is_alnum rest ->
  reads (token.Keyword_to_string kw) (TKeyword kw) rest.
Proof.
  intros H.
  replace (TKeyword kw)
    with (Tokenizer.classify (token.Keyword_to_string kw))
    by (destruct kw; reflexivity).
  apply reads_identifier; [|exact H]. destruct kw; now split.
Qed.

(** [parse] fails when a keyword other than [load] follows, whatever comes
    after it. *)
Lemma parse_other_keyword l ws kw rest :
  Forall statement_ok l ->
  forallb Tokenizer.is_whitespace ws = true ->
  kw <> token.Load -> stops is_alnum rest ->
  parse (spell_program l ++ ws ++ token.Keyword_to_string kw ++ rest) = None.
Proof.
  intros Hl Hw NL Hr.
  apply (Progress.parse_from_loop _ (Datatypes.length l + 1)).
  rewrite <- after_nil, parse_loop_spelled by assumption.
  cbn [Parser.parse_loop].
  rewrite (app_assoc ws).
  rewrite (read _ _ _ _ (reads_whitespace ws _ _ _ Hw (reads_keyword kw _ Hr))).
  destruct kw; try reflexivity. congruence.
Qed.

End Spelling.

(* ================================================================= *)
(** ** What a call of [Tokenizer::tokenize] can return *)

Module Calls.
Import TokenizerFacts Lexing.

Ltac is_keyword E kw := exists kw; split; [exact E | reflexivity].

(** The token of an identifier-like name is a keyword when the name is the
    spelling of one, and the identifier of that name otherwise. *)
Lemma classify_cases name :
  (exists kw, name = token.Keyword_to_string kw
              /\ Tokenizer.classify name = TKeyword kw)
  \/ ((forall kw, name <> token.Keyword_to_string kw)
      /\ Tokenizer.classify name = TIdentifier name).
Proof.
  unfold Tokenizer.classify.
  repeat match goal with
  | |- context [sv_eqb name ?w] =>
      let E := fresh "E" in
      destruct (sv_eqb name w) eqn:E;
      [apply sv_eqb_eq in E; left;
       first [is_keyword E token.And | is_keyword E token.Else
             | is_keyword E token.Load | is_keyword E token.Break
             | is_keyword E token.For | is_keyword E token.Not
             | is_keyword E token.Continue | is_keyword E token.If
             | is_keyword E token.Or | is_keyword E token.Def
             | is_keyword E token.In | is_keyword E token.Pass
             | is_keyword E token.Elif | is_keyword E token.Lambda
             | is_keyword E token.Return]|]
  end.
  right. split; [|reflexivity].
  intros kw ->. destruct kw; discriminate.
Qed.

Lemma classify_not_eof name : Tokenizer.classify name <> TEof.
Proof.
  destruct (classify_cases name) as [(kw & _ & ->)|[_ ->]]; discriminate.
Qed.

Lemma classify_not_string name v :
  Tokenizer.classify name <> TStringLiteral v.
Proof.
  destruct (classify_cases name) as [(kw & _ & ->)|[_ ->]]; discriminate.
Qed.

Lemma classify_not_punctuator name p :
  Tokenizer.classify name <> TPunctuator p.
Proof.
  destruct (classify_cases name) as [(kw & _ & ->)|[_ ->]]; discriminate.
Qed.

(** A punctuator that is returned stands in the table. *)
Lemma tokenize_punctuator_in_table tk p :
  fst (Tokenizer.tokenize tk) = Some (TPunctuator p) ->
  In p (map snd Tokenizer.kPunctuators).
Proof.
  rewrite tokenize_eq. unfold dispatch.
  destruct (_ <=? _); [discriminate|].
  destruct (sv_eqb _ triple_quote).
  { unfold Tokenizer.tokenize_multiline_string.
    destruct (_ <=? _); discriminate. }
  destruct (Ascii.eqb _ dquote).
  { unfold Tokenizer.tokenize_string. destruct (_ <=? _); discriminate. }
  destruct (Tokenizer.is_alpha _).
  { unfold Tokenizer.tokenize_identifier. cbn [fst]. intros [= H].
    now apply classify_not_punctuator in H. }
  unfold Tokenizer.tokenize_punctuator.
  destruct (Tokenizer.first_match _ _ _) as [[str x]|] eqn:E;
    [|discriminate].
  cbn [fst]. intros [= <-].
  apply first_match_some in E as [HI _].
  now apply (in_map snd) in HI.
Qed.

(** The tokens [tokenize] collects are tokens the calls returned. *)
Lemma tokenize_loop_tokens (Q : Token -> Prop) :
  (forall tk tok, fst (Tokenizer.tokenize tk) = Some tok -> Q tok) ->
  forall fuel tk acc tokens,
    Forall Q acc -> tokenize_loop fuel tk acc = Some (Some tokens) ->
    Forall Q tokens.
Proof.
  intros HQ. induction fuel as [|fuel IH]; intros tk acc tokens HA;
    [discriminate|].
  simpl. destruct (Tokenizer.tokenize tk) as [[tok|] tk'] eqn:E;
    [|discriminate].
  assert (Q tok) by (apply (HQ tk); now rewrite E).
  assert (Forall Q (acc ++ [tok]))
    by (apply Forall_app; split; [assumption | now constructor]).
  destruct tok; try (apply IH; assumption).
  now intros [= <-].
Qed.

Lemma tokenize_tokens (Q : Token -> Prop) input tokens :
  (forall tk tok, fst (Tokenizer.tokenize tk) = Some tok -> Q tok) ->
  tokenize input = Some tokens -> Forall Q tokens.
Proof.
  intros HQ H. unfold tokenize in H.
  destruct (tokenize_loop _ _ _) as [r|] eqn:E; [|discriminate]. subst r.
  eapply tokenize_loop_tokens; [exact HQ | constructor | exact E].
Qed.

(** *** String literals are taken verbatim *)

Lemma string_literal_verbatim tk v tk' :
  inside tk ->
  Tokenizer.tokenize tk = (Some (TStringLiteral v), tk') ->
  let tk0 := Tokenizer.skip_comments_and_whitespace tk in
  Tokenizer.remaining_input tk0 = quoted v ++ Tokenizer.remaining_input tk'
  \/ Tokenizer.remaining_input tk0
     = triple_quote ++ v ++ triple_quote ++ Tokenizer.remaining_input tk'.
Proof.
  intros I. rewrite tokenize_eq. cbv zeta.
  destruct (Tokenizer.skip_comments_and_whitespace tk) as [input p].
  unfold dispatch, Tokenizer.remaining_input.
  cbn [Tokenizer.input_ Tokenizer.pos_].
  destruct (Nat.leb_spec (size input) p) as [|Lp]; [discriminate|].
  destruct (sv_eqb _ triple_quote) eqn:E3.
  { apply sv_eqb_eq in E3.
    unfold Tokenizer.tokenize_multiline_string.
    cbn [Tokenizer.input_ Tokenizer.pos_].
    pose proof (scan_triple_ge input (size input - (p + 3)) (p + 3)) as G.
    pose proof (scan_triple_exit input (size input - (p + 3)) (p + 3)
                  (Nat.le_refl _)) as X.
    destruct (Nat.leb_spec (size input)
                (Tokenizer.scan_triple input (size input - (p + 3)) (p + 3)
                 + 2)) as [|Lr]; [discriminate|].
    destruct X as [X|X]; [lia|].
    intros [= <- <-]. right. cbn [Tokenizer.input_ Tokenizer.pos_].
    set (r := Tokenizer.scan_triple input (size input - (p + 3)) (p + 3))
      in *.
    rewrite (skipn_substr input p (p + 3)) by lia.
    replace (p + 3 - p) with 3 by lia. rewrite E3. f_equal.
    rewrite (skipn_substr input (p + 3) r) by lia. f_equal.
    rewrite (skipn_substr input r (r + 3)) by lia.
    replace (r + 3 - r) with 3 by lia. now rewrite X. }
  destruct (Ascii.eqb _ dquote) eqn:EQ.
  { apply Ascii.eqb_eq in EQ.
    unfold Tokenizer.tokenize_string.
    cbn [Tokenizer.input_ Tokenizer.pos_].
    pose proof (while_ge (fun c => negb (Ascii.eqb c dquote)) input (S p))
      as G.
    pose proof (while_exit (fun c => negb (Ascii.eqb c dquote)) input (S p))
      as X.
    destruct (Nat.leb_spec (size input)
                (Tokenizer.while_ (fun c => negb (Ascii.eqb c dquote))
                   input (S p))) as [|Lr]; [discriminate|].
    destruct X as [X|X]; [lia|].
    apply negb_false_iff, Ascii.eqb_eq in X.
    intros [= <- <-]. left. cbn [Tokenizer.input_ Tokenizer.pos_].
    set (r := Tokenizer.while_ (fun c => negb (Ascii.eqb c dquote))
                input (S p)) in *.
    unfold quoted. rewrite (skipn_at input p Lp), EQ.
    rewrite <- app_comm_cons. f_equal.
    rewrite (skipn_substr input (S p) r) by lia. rewrite <- app_assoc.
    f_equal. rewrite (skipn_at input r Lr), X. reflexivity. }
  destruct (Tokenizer.is_alpha _).
  { unfold Tokenizer.tokenize_identifier. intros [= H].
    now apply classify_not_string in H. }
  unfold Tokenizer.tokenize_punctuator.
  destruct (Tokenizer.first_match _ _ _) as [[str x]|]; discriminate.
Qed.

(** *** Strings that are not closed *)

Lemma unterminated_string pre s :
  plain s -> fst (Tokenizer.tokenize (after pre (dquote :: s))) = None.
Proof.
  intros Hs. unfold after.
  rewrite <- (Nat.add_0_r (size pre)), tokenize_shift. unfold shift_by.
  cbn [fst]. rewrite tokenize_eq.
  unfold Tokenizer.skip_comments_and_whitespace.
  cbn [Tokenizer.input_ Tokenizer.pos_].
  rewrite skip_loop_stay; [| simpl; lia | reflexivity | discriminate].
  unfold dispatch. cbn [Tokenizer.input_ Tokenizer.pos_].
  change (size (dquote :: s) <=? 0) with false. cbv iota.
  replace (sv_eqb (substr (dquote :: s) 0 3) triple_quote) with false.
  2:{ symmetry. apply sv_eqb_neq. unfold substr, triple_quote.
      destruct s as [|c s]; simpl; [discriminate|].
      apply andb_true_iff in Hs as [Hc _]. unfold not_dquote in Hc.
      apply negb_true_iff, Ascii.eqb_neq in Hc. congruence. }
  change (at_ (dquote :: s) 0) with dquote. rewrite Ascii.eqb_refl.
  unfold Tokenizer.tokenize_string. cbn [Tokenizer.input_ Tokenizer.pos_].
  assert (W : Tokenizer.while_ (fun c => negb (Ascii.eqb c dquote))
                (dquote :: s) 1 = 1 + size s).
  { pose proof (while_shift not_dquote [dquote] (s ++ []) 0) as W.
    rewrite (while_run not_dquote s []) in W by (auto; exact I).
    rewrite app_nil_r in W. exact W. }
  rewrite W. simpl. now rewrite Nat.leb_refl.
Qed.

Lemma unterminated_multiline_string pre s :
  no_triple_quote s ->
  fst (Tokenizer.tokenize (after pre (triple_quote ++ s))) = None.
Proof.
  intros Hs. unfold after.
  rewrite <- (Nat.add_0_r (size pre)), tokenize_shift. unfold shift_by.
  cbn [fst]. rewrite tokenize_eq.
  unfold Tokenizer.skip_comments_and_whitespace.
  cbn [Tokenizer.input_ Tokenizer.pos_].
  rewrite skip_loop_stay; [| simpl; lia | reflexivity | discriminate].
  unfold dispatch. cbn [Tokenizer.input_ Tokenizer.pos_].
  change (size (triple_quote ++ s) <=? 0) with false. cbv iota.
  change (substr (triple_quote ++ s) 0 3) with triple_quote.
  rewrite sv_eqb_refl.
  unfold Tokenizer.tokenize_multiline_string.
  cbn [Tokenizer.input_ Tokenizer.pos_].
  set (r := Tokenizer.scan_triple _ _ _).
  pose proof (scan_triple_ge (triple_quote ++ s)
                (size (triple_quote ++ s) - (0 + 3)) (0 + 3)) as G.
  pose proof (scan_triple_exit (triple_quote ++ s)
                (size (triple_quote ++ s) - (0 + 3)) (0 + 3)
                (Nat.le_refl _)) as X.
  fold r in G, X.
  destruct (Nat.leb_spec (size (triple_quote ++ s)) (r + 2)) as [|L];
    [reflexivity|].
  exfalso. destruct X as [X|X]; [lia|].
  apply (Hs (r - 3)).
  rewrite <- X. replace r with (size triple_quote + (r - 3)) at 2
    by (change (size triple_quote) with 3; lia).
  now rewrite substr_shift.
Qed.

(** *** Multiline strings that are closed *)

Lemma scan_triple_run s rest :
  first_triple_quote_after s rest ->
  forall n fuel p,
    p + n = size s -> n <= fuel ->
    Tokenizer.scan_triple (s ++ triple_quote ++ rest) fuel p = size s.
Proof.
  intros H. induction n as [|n IH]; intros fuel p E F.
  - assert (p = size s) by lia. subst p.
    destruct fuel as [|fuel]; [reflexivity|].
    cbn [Tokenizer.scan_triple].
    rewrite <- (Nat.add_0_r (size s)) at 2. rewrite substr_shift.
    change (substr (triple_quote ++ rest) 0 3) with triple_quote.
    now rewrite sv_eqb_refl, andb_false_r.
  - destruct fuel as [|fuel]; [lia|]. cbn [Tokenizer.scan_triple].
    replace (p + 2 <? size (s ++ triple_quote ++ rest)) with true.
    2:{ symmetry. apply Nat.ltb_lt. rewrite !length_app.
        change (size triple_quote) with 3. lia. }
    assert (N : substr (s ++ triple_quote ++ rest) p 3 <> triple_quote)
      by (apply H; lia).
    apply sv_eqb_neq in N. rewrite N. cbn [negb andb]. apply IH; lia.
Qed.

Lemma reads_multiline_string s rest :
  first_triple_quote_after s rest ->
  reads (triple_quote ++ s ++ triple_quote) (TStringLiteral s) rest.
Proof.
  intros H. apply reads_intro. rewrite <- !app_assoc. rewrite tokenize_eq.
  unfold Tokenizer.skip_comments_and_whitespace, Tokenizer.make.
  cbn [Tokenizer.input_ Tokenizer.pos_].
  rewrite skip_loop_stay; [| simpl; lia | reflexivity | discriminate].
  unfold dispatch. cbn [Tokenizer.input_ Tokenizer.pos_].
  change (size (triple_quote ++ s ++ triple_quote ++ rest) <=? 0)
    with false. cbv iota.
  change (substr (triple_quote ++ s ++ triple_quote ++ rest) 0 3)
    with triple_quote.
  rewrite sv_eqb_refl.
  unfold Tokenizer.tokenize_multiline_string.
  cbn [Tokenizer.input_ Tokenizer.pos_].
  change (0 + 3) with (size triple_quote + 0).
  rewrite scan_triple_shift, substr_shift.
  rewrite (scan_triple_run s rest H (size s) _ 0)
    by (rewrite ?length_app; change (size triple_quote) with 3; lia).
  replace (size (triple_quote ++ s ++ triple_quote ++ rest)
           <=? size triple_quote + size s + 2) with false.
  2:{ symmetry. apply Nat.leb_gt. rewrite !length_app.
      change (size triple_quote) with 3. lia. }
  f_equal.
  - do 2 f_equal. unfold substr. simpl skipn.
    replace (size triple_quote + size s - (size triple_quote + 0))
      with (size s) by lia.
    now rewrite firstn_length_app.
  - f_equal. rewrite !length_app. change (size triple_quote) with 3. lia.
Qed.

(** *** Whole inputs *)

(** A name alone. *)
Lemma tokenize_name name :
  identifier_shaped name ->
  tokenize name = Some [Tokenizer.classify name].
Proof.
  intros H. apply (Progress.tokenize_from_loop _ 2).
  pose proof (reads_identifier name [] H I []) as R.
  rewrite app_nil_r in R.
  change (after [] name) with (Tokenizer.make name) in R.
  cbn [tokenize_loop]. rewrite R.
  pose proof (classify_not_eof name) as NE.
  destruct (Tokenizer.classify name); try congruence;
    change ([] ++ name) with name; now rewrite tokenize_end.
Qed.

(** Whitespace and comments alone. *)
Lemma tokenize_blank_input b : blank b -> tokenize b = Some [].
Proof.
  intros H. apply (Progress.tokenize_from_loop _ 1).
  cbn [tokenize_loop]. rewrite <- after_nil.
  now rewrite tokenize_blank.
Qed.

End Calls.


(* ================================================================= *)
(** ** What the parser accepts *)

Module Parsing.

(** An accepted load statement has symbols: the check after the loop. *)
Lemma parse_load_stmt_imports tk load tk' :
  Parser.parse_load_stmt tk = (Some load, tk') -> symbols load <> [].
Proof.
  unfold Parser.parse_load_stmt, Parser.parse_load_stmt_fuel.
  destruct (Tokenizer.tokenize tk) as [[[[]| | | |]|] tk1];
    try discriminate.
  destruct (Tokenizer.tokenize tk1) as [[[| | |m|]|] tk2]; try discriminate.
  destruct (Parser.load_symbols _ [] tk2) as [[[[|x l]|] tk3]|];
    try discriminate.
  intros [= <- <-]. discriminate.
Qed.

Lemma parse_loop_imports fuel program tk r :
  Forall imports_something (statements program) ->
  Parser.parse_loop fuel program tk = Some (Some r) ->
  Forall imports_something (statements r).
Proof.
  revert program tk; induction fuel as [|fuel IH]; intros program tk HP;
    [discriminate|].
  simpl. destruct (Tokenizer.tokenize tk) as [[[|kw| | |]|] tk1];
    try discriminate.
  - destruct (token.Keyword_eqb kw token.Load); [|discriminate].
    destruct (Parser.parse_load_stmt tk1) as [[load|] tk2] eqn:E;
      [|discriminate].
    apply IH. cbn [statements]. apply Forall_app. split; [assumption|].
    constructor; [|constructor]. exact (parse_load_stmt_imports _ _ _ E).
  - now intros [= <-].
Qed.

Lemma parse_imports input program :
  parse input = Some program ->
  Forall imports_something (statements program).
Proof.
  unfold parse, Parser.parse.
  destruct (Parser.parse_loop _ _ _) as [r|] eqn:E; [|discriminate].
  intros ->. eapply parse_loop_imports; [|exact E]. constructor.
Qed.

(** From a state in which a statement starts, the loop of [parse] goes on
    as it does from the beginning, with the statements read so far. *)
Lemma statement_start_loop input tk :
  statement_start input tk ->
  exists n program, forall fuel,
    Parser.parse_loop (n + fuel) (mkProgram []) (Tokenizer.make input)
    = Parser.parse_loop fuel program tk.
Proof.
  induction 1 as [|tk tk1 load tk2 HS (n & program & IH) H1 H2].
  - exists 0, (mkProgram []). reflexivity.
  - exists (n + 1), (mkProgram (statements program ++ [SLoadStmt load])).
    intros fuel. replace (n + 1 + fuel) with (n + S fuel) by lia.
    rewrite IH. cbn [Parser.parse_loop]. rewrite H1.
    cbn [token.Keyword_eqb]. now rewrite H2.
Qed.

Lemma parse_unsupported_keyword input tk kw tk' :
  statement_start input tk ->
  Tokenizer.tokenize tk = (Some (TKeyword kw), tk') ->
  kw <> token.Load -> parse input = None.
Proof.
  intros HS H NL. destruct (statement_start_loop input tk HS)
    as (n & program & E).
  apply (Progress.parse_from_loop _ (n + 1)). rewrite E.
  cbn [Parser.parse_loop]. rewrite H.
  destruct kw; try reflexivity. congruence.
Qed.

(** One turn of the loop of [parse_load_stmt] over a comma and a string. *)
Lemma load_symbols_bare fuel acc tk tk1 v tk2 :
  Tokenizer.tokenize tk = (Some (TPunctuator token.Comma), tk1) ->
  Tokenizer.tokenize tk1 = (Some (TStringLiteral v), tk2) ->
  Parser.load_symbols (S fuel) acc tk
  = Parser.load_symbols fuel (acc ++ [(v, v)]) tk2.
Proof. intros H1 H2. cbn [Parser.load_symbols]. now rewrite H1, H2. Qed.

(** When the first call fails, so does [tokenize]. *)
Lemma tokenize_first_fails input :
  fst (Tokenizer.tokenize (Tokenizer.make input)) = None ->
  tokenize input = None.
Proof.
  intros H. unfold tokenize. cbn [tokenize_loop].
  destruct (Tokenizer.tokenize (Tokenizer.make input)) as [tok tk].
  simpl in H. now subst tok.
Qed.

End Parsing.

(* ================================================================= *)
(** ** The properties of the specification *)

(** C1.  The grammar written above [parse_load_stmt] allows one comma
    between the last symbol and the closing parenthesis.  The function does
    not: the load of one symbol parses, and the same load with a comma
    before the closing parenthesis is refused.  (Lemma
    [Spelling.parse_trailing_comma] shows the refusal for every load
    statement in this layout.) *)
Theorem trailing_comma_is_refused :
  parse input_one_symbol
  = Some (mkProgram [SLoadStmt (mkLoadStmt (sv "m") [(sv "a", sv "a")])])
  /\ parse input_trailing_comma = None.
Proof. split; vm_compute; reflexivity. Qed.

(** C2.  The punctuator table has 40 entries, and the text of each entry
    alone is tokenized to the one token of that entry; the longest spelling
    wins, so the text of [LShiftEquals] gives that single token. *)
Theorem punctuators_tokenize_alone :
  Datatypes.length Tokenizer.punctuators = 40
  /\ Forall (fun e => tokenize (fst e) = Some [TPunctuator (snd e)])
       Tokenizer.punctuators
  /\ tokenize (sv "<<=") = Some [TPunctuator token.LShiftEquals].
Proof.
  split; [reflexivity|]. split; [|vm_compute; reflexivity].
  unfold Tokenizer.punctuators.
  repeat (apply Forall_cons; [vm_compute; reflexivity|]). apply Forall_nil.
Qed.

(** C3.  The two inputs of the parser's test parse to one load statement
    each, with the symbols of the specification.  In general: a turn of the
    statement's loop that reads a comma and a string appends the pair of
    that string with itself; and a program spelled out statement by
    statement parses to those statements, where a symbol spelled as a
    string alone binds the exported name to itself ([binding]). *)
Theorem load_statements_parse_as_spelled :
  parse input_two_symbols
  = Some (mkProgram [SLoadStmt (mkLoadStmt (sv "@rules_cc//cc:defs.bzl")
            [(sv "cc_library", sv "cc_library");
             (sv "cc_test", sv "cc_test")])])
  /\ parse input_renamed_symbol
     = Some (mkProgram [SLoadStmt (mkLoadStmt (sv "@rules_cc//cc:defs.bzl")
               [(sv "foo", sv "cc_library")])])
  /\ (forall fuel acc tk tk1 v tk2,
        Tokenizer.tokenize tk = (Some (TPunctuator token.Comma), tk1) ->
        Tokenizer.tokenize tk1 = (Some (TStringLiteral v), tk2) ->
        Parser.load_symbols (S fuel) acc tk
        = Parser.load_symbols fuel (acc ++ [(v, v)]) tk2)
  /\ (forall l tail,
        Forall statement_ok l -> blank tail ->
        parse (spell_program l ++ tail) = Some (mkProgram (map meaning l))).
Proof.
  split; [vm_compute; reflexivity|]. split; [vm_compute; reflexivity|].
  split; [exact Parsing.load_symbols_bare | exact Spelling.parse_spelled].
Qed.

Lemma load_statements_parse_as_spelled_witness :
  parse (sv "load(" ++ quoted (sv "m") ++ sv ", " ++ quoted (sv "a b")
         ++ sv ", x_1 = " ++ quoted (sv "y") ++ sv ")" ++ sv " # end")
  = Some (mkProgram [SLoadStmt (mkLoadStmt (sv "m")
            [(sv "a b", sv "a b"); (sv "x_1", sv "y")])])
  /\ Parser.load_symbols 3 [] (Tokenizer.mk input_two_symbols 29)
     = Parser.load_symbols 2 [(sv "cc_library", sv "cc_library")]
         (Tokenizer.mk input_two_symbols 43).
Proof.
  split.
  - apply (proj2 (proj2 (proj2 load_statements_parse_as_spelled))
             [mk_statement [] (sv "m")
                [Bare (sv "a b"); Renamed (sv "x_1") (sv "y")]]
             (sv " # end")).
    + repeat constructor; discriminate.
    + apply blank_space; [reflexivity|].
      apply (blank_comment (sv " end") []); [reflexivity | exact I|].
      apply blank_end.
  - apply (proj1 (proj2 (proj2 load_statements_parse_as_spelled))
             2 [] (Tokenizer.mk input_two_symbols 29)
             (Tokenizer.mk input_two_symbols 30) (sv "cc_library")
             (Tokenizer.mk input_two_symbols 43));
      vm_compute; reflexivity.
Defined.

(** C4.  Every load statement of a program that [parse] returns has at
    least one symbol; a load of nothing and a load of a module name alone
    are refused. *)
Theorem load_statements_import_something :
  (forall input program,
     parse input = Some program ->
     Forall imports_something (statements program))
  /\ parse (sv "load()") = None
  /\ parse input_module_only = None.
Proof.
  split; [exact Parsing.parse_imports|]. split; vm_compute; reflexivity.
Qed.

Lemma load_statements_import_something_witness :
  Forall imports_something
    [SLoadStmt (mkLoadStmt (sv "m") [(sv "a", sv "a")])].
Proof.
  apply (proj1 load_statements_import_something input_one_symbol
           (mkProgram [SLoadStmt (mkLoadStmt (sv "m") [(sv "a", sv "a")])])).
  vm_compute. reflexivity.
Defined.

(** C5.  When the loop of [parse] asks for the first token of a statement,
    after any number of accepted load statements, and gets a keyword other
    than [load], [parse] returns no program.  So it does on [pass] alone and
    on a load statement followed by [pass], and on every spelled program
    followed by such a keyword. *)
Theorem unsupported_keyword_fails :
  (forall input tk kw tk',
     statement_start input tk ->
     Tokenizer.tokenize tk = (Some (TKeyword kw), tk') ->
     kw <> token.Load -> parse input = None)
  /\ parse (sv "pass") = None
  /\ parse input_load_then_pass = None
  /\ (forall l ws kw rest,
        Forall statement_ok l ->
        forallb Tokenizer.is_whitespace ws = true ->
        kw <> token.Load -> stops is_alnum rest ->
        parse (spell_program l ++ ws ++ token.Keyword_to_string kw ++ rest)
        = None).
Proof.
  split; [exact Parsing.parse_unsupported_keyword|].
  split; [vm_compute; reflexivity|]. split; [vm_compute; reflexivity|].
  exact Spelling.parse_other_keyword.
Qed.

Lemma unsupported_keyword_fails_witness :
  statement_start input_load_then_pass
    (Tokenizer.mk input_load_then_pass 14)
  /\ Tokenizer.tokenize (Tokenizer.mk input_load_then_pass 14)
     = (Some (TKeyword token.Pass), Tokenizer.mk input_load_then_pass 19)
  /\ parse input_load_then_pass = None
  /\ parse (spell_program [mk_statement [] (sv "m") [Bare (sv "a")]]
            ++ [LF] ++ token.Keyword_to_string token.Return ++ sv " 1")
     = None.
Proof.
  assert (S : statement_start input_load_then_pass
                (Tokenizer.mk input_load_then_pass 14)).
  { apply (start_next input_load_then_pass
             (Tokenizer.make input_load_then_pass)
             (Tokenizer.mk input_load_then_pass 4)
             (mkLoadStmt (sv "m") [(sv "a", sv "a")]));
      [apply start_first | vm_compute; reflexivity | vm_compute; reflexivity]. }
  split; [exact S|]. split; [vm_compute; reflexivity|]. split.
  - apply (proj1 unsupported_keyword_fails input_load_then_pass
             (Tokenizer.mk input_load_then_pass 14) token.Pass
             (Tokenizer.mk input_load_then_pass 19) S);
      [vm_compute; reflexivity | discriminate].
  - apply (proj2 (proj2 (proj2 unsupported_keyword_fails))
             [mk_statement [] (sv "m") [Bare (sv "a")]] [LF] token.Return
             (sv " 1")).
    + repeat constructor; discriminate.
    + reflexivity.
    + discriminate.
    + reflexivity.
Defined.

(** C6.  A text that starts with a letter or an underscore and goes on with
    letters, digits and underscores ([identifier_shaped]; the letters are
    [a] to [z] and [A] to [Z]) is tokenized to one token: the keyword whose
    spelling it is, in full and in the same case, or else the identifier of
    that name.  There are 15 keywords. *)
Theorem names_tokenize_alone (name : string_view) :
  identifier_shaped name ->
  (forall kw, name = token.Keyword_to_string kw ->
              tokenize name = Some [TKeyword kw])
  /\ ((forall kw, name <> token.Keyword_to_string kw) ->
      tokenize name = Some [TIdentifier name])
  /\ Datatypes.length token.all_keywords = 15
  /\ (forall kw, In kw token.all_keywords)
  /\ (forall c, Tokenizer.is_alpha c = true
                <-> 97 <= code c <= 122 \/ 65 <= code c <= 90 \/ code c = 95)
  /\ (forall c, Tokenizer.is_digit c = true <-> 48 <= code c <= 57).
Proof.
  intros H. rewrite (Calls.tokenize_name name H).
  assert (K : forall kw, In kw token.all_keywords)
    by (intros k; destruct k; simpl; tauto).
  destruct (Calls.classify_cases name) as [(kw & E & ->)|[N ->]].
  - split; [|split; [|split; [|split; [|split]]]];
      auto using is_alpha_codes, is_digit_codes.
    + intros kw' E'. do 2 f_equal. rewrite E in E'.
      destruct kw, kw'; try reflexivity; discriminate E'.
    + intros N. now specialize (N kw).
  - split; [|split; [|split; [|split; [|split]]]];
      auto using is_alpha_codes, is_digit_codes.
    intros kw E. now specialize (N kw).
Qed.

Lemma names_tokenize_alone_witness :
  identifier_shaped (sv "_Load2")
  /\ tokenize (sv "_Load2") = Some [TIdentifier (sv "_Load2")]
  /\ tokenize (sv "lambda") = Some [TKeyword token.Lambda].
Proof.
  split; [now split|]. split.
  - apply (proj1 (proj2 (names_tokenize_alone (sv "_Load2")
                           (conj eq_refl eq_refl)))).
    intros kw; destruct kw; discriminate.
  - apply (proj1 (names_tokenize_alone (sv "lambda")
                    (conj eq_refl eq_refl)) token.Lambda).
    reflexivity.
Defined.

(** C7.  A string that is opened and not closed makes the call fail, and
    with it [tokenize]: a double quote followed by no other, a triple quote
    followed by no other.  A string that is closed is returned as it
    stands between the quotes: after a double quote that does not open a
    triple quote, up to the next double quote; after a triple quote, up to
    the next triple quote; a backslash is a character like any other.
    Conversely the value of every string literal that is returned is the
    text between the opening quotes at the cursor and the closing quotes
    the cursor is left behind. *)
Theorem strings_are_closed_and_verbatim :
  (forall pre s,
     plain s ->
     fst (Tokenizer.tokenize (after pre (dquote :: s))) = None
     /\ tokenize (dquote :: s) = None)
  /\ (forall pre s,
        no_triple_quote s ->
        fst (Tokenizer.tokenize (after pre (triple_quote ++ s))) = None
        /\ tokenize (triple_quote ++ s) = None)
  /\ tokenize (dquote :: sv "abc") = None
  /\ tokenize (triple_quote ++ sv "abc") = None
  /\ (forall s rest,
        plain s -> substr (quoted s ++ rest) 0 3 <> triple_quote ->
        reads (quoted s) (TStringLiteral s) rest)
  /\ (forall s rest,
        first_triple_quote_after s rest ->
        reads (triple_quote ++ s ++ triple_quote) (TStringLiteral s) rest)
  /\ tokenize (quoted (sv "a\n")) = Some [TStringLiteral (sv "a\n")]
  /\ (forall tk v tk',
        inside tk ->
        Tokenizer.tokenize tk = (Some (TStringLiteral v), tk') ->
        let tk0 := Tokenizer.skip_comments_and_whitespace tk in
        Tokenizer.remaining_input tk0
        = quoted v ++ Tokenizer.remaining_input tk'
        \/ Tokenizer.remaining_input tk0
           = triple_quote ++ v ++ triple_quote
             ++ Tokenizer.remaining_input tk').
Proof.
  split.
  { intros pre s H. split; [now apply Calls.unterminated_string|].
    apply Parsing.tokenize_first_fails.
    exact (Calls.unterminated_string [] s H). }
  split.
  { intros pre s H. split; [now apply Calls.unterminated_multiline_string|].
    apply Parsing.tokenize_first_fails.
    exact (Calls.unterminated_multiline_string [] s H). }
  split; [vm_compute; reflexivity|]. split; [vm_compute; reflexivity|].
  split; [exact Lexing.reads_string|].
  split; [exact Calls.reads_multiline_string|].
  split; [vm_compute; reflexivity|].
  exact Calls.string_literal_verbatim.
Qed.

Lemma strings_are_closed_and_verbatim_witness :
  plain (sv "abc")
  /\ tokenize (dquote :: sv "abc") = None
  /\ no_triple_quote (sv "abc")
  /\ tokenize (triple_quote ++ sv "abc") = None
  /\ Tokenizer.tokenize (after (sv "x = ") (quoted (sv "a\b") ++ sv ";"))
     = (Some (TStringLiteral (sv "a\b")),
        after (sv "x = " ++ quoted (sv "a\b")) (sv ";"))
  /\ first_triple_quote_after (dquote :: sv "a") (sv ";")
  /\ Tokenizer.tokenize
       (after [] ((triple_quote ++ (dquote :: sv "a") ++ triple_quote)
                  ++ sv ";"))
     = (Some (TStringLiteral (dquote :: sv "a")),
        after ([] ++ triple_quote ++ (dquote :: sv "a") ++ triple_quote)
          (sv ";"))
  /\ (Tokenizer.remaining_input
        (Tokenizer.skip_comments_and_whitespace
           (Tokenizer.make (sv " " ++ quoted (sv "a") ++ sv ";")))
      = quoted (sv "a")
        ++ Tokenizer.remaining_input
             (Tokenizer.mk (sv " " ++ quoted (sv "a") ++ sv ";") 4)
      \/ Tokenizer.remaining_input
           (Tokenizer.skip_comments_and_whitespace
              (Tokenizer.make (sv " " ++ quoted (sv "a") ++ sv ";")))
         = triple_quote ++ sv "a" ++ triple_quote
           ++ Tokenizer.remaining_input
                (Tokenizer.mk (sv " " ++ quoted (sv "a") ++ sv ";") 4)).
Proof.
  assert (N : no_triple_quote (sv "abc")).
  { intros i. destruct i as [|[|[|[|i]]]]; discriminate. }
  assert (F : first_triple_quote_after (dquote :: sv "a") (sv ";")).
  { intros i L. destruct i as [|[|i]]; [discriminate | discriminate|].
    simpl in L. lia. }
  split; [reflexivity|]. split.
  { apply (proj1 strings_are_closed_and_verbatim [] (sv "abc")).
    reflexivity. }
  split; [exact N|]. split.
  { exact (proj2 (proj1 (proj2 strings_are_closed_and_verbatim)
                    [] (sv "abc") N)). }
  split.
  { apply (proj1 (proj2 (proj2 (proj2 (proj2
             strings_are_closed_and_verbatim)))) (sv "a\b") (sv ";"));
      [reflexivity | discriminate]. }
  split; [exact F|]. split.
  { exact (proj1 (proj2 (proj2 (proj2 (proj2 (proj2
             strings_are_closed_and_verbatim)))))
             (dquote :: sv "a") (sv ";") F []). }
  apply (proj2 (proj2 (proj2 (proj2 (proj2 (proj2 (proj2
           strings_are_closed_and_verbatim))))))
           (Tokenizer.make (sv " " ++ quoted (sv "a") ++ sv ";"))).
  - unfold inside. simpl. lia.
  - vm_compute. reflexivity.
Defined.

(** C8.  The spelling of [DoubleSlashEquals] is none of the table's, so no
    call returns that punctuator and no result of [tokenize] holds it; that
    spelling is tokenized to [DoubleSlash] and [Equals]. *)
Theorem double_slash_equals_is_never_produced :
  token.Punctuator_to_string token.DoubleSlashEquals = sv "//="
  /\ ~ In (sv "//=") (map fst Tokenizer.punctuators)
  /\ (forall tk,
        fst (Tokenizer.tokenize tk)
        <> Some (TPunctuator token.DoubleSlashEquals))
  /\ (forall input tokens,
        tokenize input = Some tokens ->
        ~ In (TPunctuator token.DoubleSlashEquals) tokens)
  /\ tokenize (sv "//=")
     = Some [TPunctuator token.DoubleSlash; TPunctuator token.Equals].
Proof.
  assert (N : forall tk,
             fst (Tokenizer.tokenize tk)
             <> Some (TPunctuator token.DoubleSlashEquals)).
  { intros tk H. apply Calls.tokenize_punctuator_in_table in H.
    vm_compute in H.
    repeat (destruct H as [H|H]; [discriminate H|]). exact H. }
  split; [reflexivity|]. split.
  { intros H. vm_compute in H.
    repeat (destruct H as [H|H]; [discriminate H|]). exact H. }
  split; [exact N|]. split; [|vm_compute; reflexivity].
  intros input tokens H HI.
  pose proof (Calls.tokenize_tokens
                (fun tok => tok <> TPunctuator token.DoubleSlashEquals)
                input tokens) as F.
  rewrite Forall_forall in F.
  apply (F ltac:(intros tk tok E ->; exact (N tk E)) H _ HI).
  reflexivity.
Qed.

Lemma double_slash_equals_is_never_produced_witness :
  tokenize (sv "a //= b")
  = Some [TIdentifier (sv "a"); TPunctuator token.DoubleSlash;
          TPunctuator token.Equals; TIdentifier (sv "b")]
  /\ ~ In (TPunctuator token.DoubleSlashEquals)
         [TIdentifier (sv "a"); TPunctuator token.DoubleSlash;
          TPunctuator token.Equals; TIdentifier (sv "b")].
Proof.
  split; [vm_compute; reflexivity|].
  apply (proj1 (proj2 (proj2 (proj2 double_slash_equals_is_never_produced)))
           (sv "a //= b")).
  vm_compute. reflexivity.
Defined.

(** C9.  The empty input has no tokens, and neither has an input made of
    whitespace (space, tab, line feed, carriage return) and comments only:
    [tokenize] returns the empty sequence, the first call having returned
    [Eof]. *)
Theorem blank_input_has_no_tokens :
  tokenize [] = Some []
  /\ (forall b,
        blank b ->
        tokenize b = Some []
        /\ fst (Tokenizer.tokenize (Tokenizer.make b)) = Some TEof)
  /\ (forall c, Tokenizer.is_whitespace c = true
                <-> code c = 32 \/ code c = 9 \/ code c = 10 \/ code c = 13).
Proof.
  split; [reflexivity|]. split; [|exact is_whitespace_codes]. intros b H.
  split; [now apply Calls.tokenize_blank_input|].
  rewrite <- Lexing.after_nil. now rewrite Lexing.tokenize_blank.
Qed.

Lemma blank_input_has_no_tokens_witness :
  blank input_blank /\ tokenize input_blank = Some [].
Proof.
  assert (B : blank input_blank).
  { apply blank_space; [reflexivity|].
    apply (blank_comment (sv " one")
             ([LF; TAB; CR] ++ sv "#" ++ [LF; LF] ++ sv "  # two"));
      [reflexivity | reflexivity|].
    do 3 (apply blank_space; [reflexivity|]).
    apply (blank_comment [] ([LF; LF] ++ sv "  # two"));
      [reflexivity | reflexivity|].
    do 4 (apply blank_space; [reflexivity|]).
    apply (blank_comment (sv " two") []); [reflexivity | exact I|].
    apply blank_end. }
  split; [exact B|].
  exact (proj1 (proj1 (proj2 blank_input_has_no_tokens) input_blank B)).
Defined.

(** C10.  Started inside the input, a call of [Tokenizer::tokenize] keeps
    its input, leaves the cursor inside it and not before where it was, and
    has moved it forward unless it fails or returns [Eof].  Hence the loops
    that collect tokens end: with any bound above the number of characters
    the loops of [tokenize], of [Parser::parse] and of [parse_load_stmt]
    return, with the result of the function; and the scanning loops of the
    tokenizer give their result with any bound that is at least the number
    of characters left. *)
Theorem tokenize_and_parse_terminate :
  (forall tk tok tk',
     inside tk -> Tokenizer.tokenize tk = (tok, tk') ->
     Tokenizer.input_ tk' = Tokenizer.input_ tk
     /\ Tokenizer.pos_ tk <= Tokenizer.pos_ tk' <= size (Tokenizer.input_ tk)
     /\ (tok = None \/ tok = Some TEof
         \/ Tokenizer.pos_ tk < Tokenizer.pos_ tk'))
  /\ (forall input fuel,
        size input < fuel ->
        tokenize_loop fuel (Tokenizer.make input) [] = Some (tokenize input))
  /\ (forall input fuel,
        size input < fuel ->
        Parser.parse_loop fuel (mkProgram []) (Tokenizer.make input)
        = Some (parse input))
  /\ (forall tk fuel,
        inside tk -> Parser.left tk < fuel ->
        Parser.parse_load_stmt_fuel fuel tk
        = Some (Parser.parse_load_stmt tk))
  /\ (forall P input pos fuel,
        size input - pos <= fuel ->
        Tokenizer.scan_while P input fuel pos = Tokenizer.while_ P input pos)
  /\ (forall input pos fuel,
        size input - pos <= fuel ->
        Tokenizer.skip_loop fuel input pos
        = Tokenizer.skip_loop (size input - pos) input pos)
  /\ (forall input pos fuel,
        size input - pos <= fuel ->
        Tokenizer.scan_triple input fuel pos
        = Tokenizer.scan_triple input (size input - pos) pos).
Proof.
  split.
  { intros tk tok tk' I E.
    destruct (TokenizerFacts.tokenize_cursor tk tok tk' I E) as (HI & HP & HT).
    split; [exact HI|]. split; [exact HP|].
    destruct tok as [tok|]; [|now left].
    destruct tok; try (right; right; apply (HT _ eq_refl); discriminate).
    right. now left. }
  split; [exact Progress.tokenize_loop_fuel|].
  split; [exact Progress.parse_loop_fuel|].
  split; [intros tk fuel; apply Progress.parse_load_stmt_fuel_ok|].
  split.
  { intros P input pos fuel F. apply TokenizerFacts.scan_while_fuel; lia. }
  split.
  { intros input pos fuel F. apply TokenizerFacts.skip_loop_fuel; lia. }
  intros input pos fuel F. apply TokenizerFacts.scan_triple_fuel; lia.
Qed.

Lemma tokenize_and_parse_terminate_witness :
  (Tokenizer.input_ (Tokenizer.mk input_two_symbols 30) = input_two_symbols
   /\ 29 <= 30 <= size input_two_symbols
   /\ (Some (TPunctuator token.Comma) = None
       \/ Some (TPunctuator token.Comma) = Some TEof \/ 29 < 30))
  /\ tokenize_loop 100 (Tokenizer.make input_two_symbols) []
     = Some (tokenize input_two_symbols)
  /\ Parser.parse_loop 100 (mkProgram []) (Tokenizer.make input_two_symbols)
     = Some (parse input_two_symbols)
  /\ Parser.parse_load_stmt_fuel 100 (Tokenizer.mk input_two_symbols 4)
     = Some (Parser.parse_load_stmt (Tokenizer.mk input_two_symbols 4))
  /\ Tokenizer.scan_while Tokenizer.is_alpha input_two_symbols 100 0
     = Tokenizer.while_ Tokenizer.is_alpha input_two_symbols 0
  /\ Tokenizer.skip_loop 100 input_blank 0
     = Tokenizer.skip_loop (size input_blank - 0) input_blank 0
  /\ Tokenizer.scan_triple input_two_symbols 100 0
     = Tokenizer.scan_triple input_two_symbols
         (size input_two_symbols - 0) 0.
Proof.
  split.
  { apply (proj1 tokenize_and_parse_terminate
             (Tokenizer.mk input_two_symbols 29)
             (Some (TPunctuator token.Comma))
             (Tokenizer.mk input_two_symbols 30)).
    - unfold inside. vm_compute. lia.
    - vm_compute. reflexivity. }
  split.
  { apply (proj1 (proj2 tokenize_and_parse_terminate) input_two_symbols 100).
    vm_compute. lia. }
  split.
  { apply (proj1 (proj2 (proj2 tokenize_and_parse_terminate))
             input_two_symbols 100).
    vm_compute. lia. }
  split.
  { apply (proj1 (proj2 (proj2 (proj2 tokenize_and_parse_terminate)))
             (Tokenizer.mk input_two_symbols 4) 100).
    - unfold inside. vm_compute. lia.
    - vm_compute. lia. }
  split.
  { apply (proj1 (proj2 (proj2 (proj2 (proj2 tokenize_and_parse_terminate))))
             Tokenizer.is_alpha input_two_symbols 0 100).
    vm_compute. lia. }
  split.
  { apply (proj1 (proj2 (proj2 (proj2 (proj2 (proj2
             tokenize_and_parse_terminate))))) input_blank 0 100).
    vm_compute. lia. }
  apply (proj2 (proj2 (proj2 (proj2 (proj2 (proj2
           tokenize_and_parse_terminate))))) input_two_symbols 0 100).
  vm_compute. lia.
Defined.

(* ================================================================= *)
(** ** Further properties: the punctuator table *)

Module Table.
Import TokenizerFacts.

Lemma kPunctuators_perm :
  Permutation Tokenizer.punctuators Tokenizer.kPunctuators.
Proof. apply sort_longer_perm. Qed.

Lemma kPunctuators_sorted : by_length Tokenizer.kPunctuators.
Proof. apply sort_longer_sorted. Qed.

Lemma in_kPunctuators e :
  In e Tokenizer.kPunctuators <-> In e Tokenizer.punctuators.
Proof.
  split; apply Permutation_in;
    [apply Permutation_sym|]; apply kPunctuators_perm.
Qed.

Ltac find_entry := repeat (first [left; reflexivity | right]).

Lemma punctuator_has_entry p :
  p <> token.DoubleSlashEquals ->
  In (token.Punctuator_to_string p, p) Tokenizer.punctuators.
Proof. destruct p; intros H; try congruence; vm_compute; find_entry. Qed.

Lemma Punctuator_to_string_inj p q :
  token.Punctuator_to_string p = token.Punctuator_to_string q -> p = q.
Proof.
  destruct p; destruct q; intros H; try reflexivity; discriminate H.
Qed.

End Table.

(** X1.  [tokenize_punctuator] returns the punctuator of a longest spelling
    of the table that stands at the cursor and moves the cursor behind it;
    it fails, the cursor where it was, exactly when no spelling of the table
    stands there. *)
Theorem punctuator_is_longest_match (tk : Tokenizer.t) :
  match Tokenizer.tokenize_punctuator tk with
  | (Some (TPunctuator p), tk') =>
      exists str,
        In (str, p) Tokenizer.punctuators
        /\ matches (Tokenizer.input_ tk) (Tokenizer.pos_ tk) (str, p)
        /\ tk' = Tokenizer.mk (Tokenizer.input_ tk)
                   (Tokenizer.pos_ tk + size str)
        /\ (forall e,
              In e Tokenizer.punctuators ->
              matches (Tokenizer.input_ tk) (Tokenizer.pos_ tk) e ->
              size (fst e) <= size str)
  | (Some _, _) => False
  | (None, tk') =>
      tk' = tk
      /\ (forall e,
            In e Tokenizer.punctuators ->
            ~ matches (Tokenizer.input_ tk) (Tokenizer.pos_ tk) e)
  end.
Proof.
  unfold Tokenizer.tokenize_punctuator.
  destruct (Tokenizer.first_match _ _ _) as [[str p]|] eqn:E.
  - destruct (TokenizerFacts.first_match_some _ _ _ _ E) as [HI HM].
    exists str. split; [now apply Table.in_kPunctuators|].
    split; [exact HM|]. split; [reflexivity|].
    intros e He Hm.
    apply (TokenizerFacts.first_match_longest _ _ _ _ e
             Table.kPunctuators_sorted E);
      [now apply Table.in_kPunctuators | exact Hm].
  - split; [reflexivity|]. intros e He.
    apply (TokenizerFacts.first_match_none _ _ _ e E).
    now apply Table.in_kPunctuators.
Qed.

Lemma punctuator_is_longest_match_witness :
  exists str,
    In (str, token.LShift) Tokenizer.punctuators
    /\ matches (sv "a<<b") 1 (str, token.LShift)
    /\ Tokenizer.mk (sv "a<<b") 3 = Tokenizer.mk (sv "a<<b") (1 + size str)
    /\ (forall e,
          In e Tokenizer.punctuators -> matches (sv "a<<b") 1 e ->
          size (fst e) <= size str).
Proof.
  exact (punctuator_is_longest_match (Tokenizer.mk (sv "a<<b") 1)).
Defined.

(** X2.  [std::ranges::sort] leaves the order of spellings of one length
    open.  Whatever order it produces, a table that has the entries of the
    initializer, longer spellings first, finds at every place of every input
    the entry that the modelled table finds. *)
Theorem sort_order_is_not_observable
    (table : list entry) (input : string_view) (pos : nat) :
  Permutation Tokenizer.punctuators table -> by_length table ->
  Tokenizer.first_match table input pos
  = Tokenizer.first_match Tokenizer.kPunctuators input pos.
Proof. apply TokenizerFacts.kPunctuators_any_order. Qed.

Lemma sort_order_is_not_observable_witness :
  Tokenizer.sort_longer (rev Tokenizer.punctuators) <> Tokenizer.kPunctuators
  /\ Tokenizer.first_match
       (Tokenizer.sort_longer (rev Tokenizer.punctuators)) (sv "a<<=b") 1
     = Tokenizer.first_match Tokenizer.kPunctuators (sv "a<<=b") 1.
Proof.
  split; [vm_compute; discriminate|].
  apply (sort_order_is_not_observable
           (Tokenizer.sort_longer (rev Tokenizer.punctuators))
           (sv "a<<=b") 1).
  - rewrite <- TokenizerFacts.sort_longer_perm. apply Permutation_rev.
  - apply TokenizerFacts.sort_longer_sorted.
Defined.

(** X3.  [to_string] of a punctuator and the table agree: the spelling of
    every entry is the text of its punctuator, and every punctuator but
    [DoubleSlashEquals] has its entry.  No two punctuators have the same
    text, and the text of every punctuator but [DoubleSlashEquals] is
    tokenized back to it. *)
Theorem punctuator_text_and_table_agree :
  Forall (fun e => token.Punctuator_to_string (snd e) = fst e)
    Tokenizer.punctuators
  /\ (forall p, In p all_punctuators)
  /\ (forall p,
        p <> token.DoubleSlashEquals ->
        In (token.Punctuator_to_string p, p) Tokenizer.punctuators
        /\ tokenize (token.Punctuator_to_string p) = Some [TPunctuator p])
  /\ (forall p q,
        token.Punctuator_to_string p = token.Punctuator_to_string q ->
        p = q).
Proof.
  split.
  { unfold Tokenizer.punctuators.
    repeat (apply Forall_cons; [reflexivity|]). apply Forall_nil. }
  split.
  { intros p. destruct p; vm_compute; Table.find_entry. }
  split; [|exact Table.Punctuator_to_string_inj].
  intros p H. split; [now apply Table.punctuator_has_entry|].
  destruct p; try congruence; vm_compute; reflexivity.
Qed.

Lemma punctuator_text_and_table_agree_witness :
  In (sv "**", token.DoubleStar) Tokenizer.punctuators
  /\ tokenize (sv "**") = Some [TPunctuator token.DoubleStar].
Proof.
  apply (proj1 (proj2 (proj2 punctuator_text_and_table_agree))
           token.DoubleStar).
  discriminate.
Defined.

(* ================================================================= *)
(** ** Further properties: the tokens that are returned *)

Module Shapes.
Import TokenizerFacts Lexing.

(** A stretch of the input whose characters all satisfy [P]. *)
Lemma forallb_substr P input n a :
  a + n <= size input ->
  (forall i, a <= i < a + n -> P (at_ input i) = true) ->
  forallb P (substr input a n) = true.
Proof.
  revert a; induction n as [|n IH]; intros a L H; [reflexivity|].
  unfold substr. rewrite (skipn_at input a) by lia.
  cbn [firstn forallb]. rewrite (H a) by lia.
  apply (IH (S a)); [lia|]. intros i Hi. apply H. lia.
Qed.

Lemma substr_first input a n :
  a < size input -> substr input a (S n) = at_ input a :: substr input (S a) n.
Proof. intros L. unfold substr. now rewrite (skipn_at input a L). Qed.

(** The same for the stretch from [a] up to [b]. *)
Lemma forallb_substr_range P input a b :
  b <= size input ->
  (forall i, a <= i < b -> P (at_ input i) = true) ->
  forallb P (substr input a (b - a)) = true.
Proof.
  intros L H. destruct (Nat.le_gt_cases b a) as [E|E].
  - now replace (b - a) with 0 by lia.
  - apply forallb_substr; [lia|]. intros i Hi. apply H. lia.
Qed.

(** The name and the end of an identifier-like token. *)
Lemma tokenize_identifier_run input p :
  p < size input -> Tokenizer.is_alpha (at_ input p) = true ->
  let r := Tokenizer.while_ (fun c => Tokenizer.is_alpha c
                                      || Tokenizer.is_digit c) input p in
  identifier_shaped (substr input p (r - p))
  /\ stops is_alnum (skipn r input).
Proof.
  intros L A r.
  pose proof (while_le is_alnum input p ltac:(lia)) as Hle.
  pose proof (while_all is_alnum input p) as Hall.
  pose proof (while_exit is_alnum input p) as Hexit.
  pose proof (while_step is_alnum input p L
                ltac:(unfold is_alnum; now rewrite A)) as Hstep.
  pose proof (while_ge is_alnum input (S p)) as Hge.
  change (Tokenizer.while_ is_alnum input p) with r in *.
  rewrite <- Hstep in Hge.
  split.
  - replace (r - p) with (S (r - S p)) by lia.
    rewrite substr_first by exact L. split; [exact A|].
    apply forallb_substr; [lia|]. intros i Hi. apply Hall. lia.
  - destruct (Nat.le_gt_cases (size input) r) as [E|E].
    + now rewrite skipn_all2.
    + rewrite (skipn_at input r E). simpl.
      destruct Hexit as [X|X]; [lia | exact X].
Qed.

(** An identifier that is returned has the shape of one, is no reserved
    word, and is followed by no letter, digit or underscore. *)
Lemma tokenize_identifier_shape tk name tk' :
  Tokenizer.tokenize tk = (Some (TIdentifier name), tk') ->
  identifier name /\ stops is_alnum (Tokenizer.remaining_input tk').
Proof.
  rewrite tokenize_eq.
  destruct (Tokenizer.skip_comments_and_whitespace tk) as [input p].
  unfold dispatch. cbn [Tokenizer.input_ Tokenizer.pos_].
  destruct (Nat.leb_spec (size input) p) as [|Lp]; [discriminate|].
  destruct (sv_eqb _ triple_quote).
  { unfold Tokenizer.tokenize_multiline_string.
    destruct (_ <=? _); discriminate. }
  destruct (Ascii.eqb _ dquote).
  { unfold Tokenizer.tokenize_string. destruct (_ <=? _); discriminate. }
  destruct (Tokenizer.is_alpha _) eqn:A.
  - unfold Tokenizer.tokenize_identifier.
    cbn [Tokenizer.input_ Tokenizer.pos_].
    destruct (tokenize_identifier_run input p Lp A) as [HS HR].
    intros [= HC <-]. unfold Tokenizer.remaining_input.
    cbn [Tokenizer.input_ Tokenizer.pos_]. split; [|exact HR].
    destruct (Calls.classify_cases
                (substr input p
                   (Tokenizer.while_ (fun c => Tokenizer.is_alpha c
                      || Tokenizer.is_digit c) input p - p)))
      as [(kw & _ & E)|[_ E]]; rewrite E in HC; [discriminate|].
    injection HC as <-. split; [exact HS | exact E].
  - unfold Tokenizer.tokenize_punctuator.
    destruct (Tokenizer.first_match _ _ _) as [[str x]|]; discriminate.
Qed.

Lemma not_in_table tk :
  fst (Tokenizer.tokenize tk) <> Some (TPunctuator token.DoubleSlashEquals).
Proof.
  intros H. apply Calls.tokenize_punctuator_in_table in H.
  vm_compute in H. repeat (destruct H as [H|H]; [discriminate H|]). exact H.
Qed.

(** What holds of every token but [Eof] that a call returns. *)
Lemma tokenize_well_formed tk tok tk' :
  Tokenizer.tokenize tk = (Some tok, tk') -> tok <> TEof -> well_formed tok.
Proof.
  intros H NE. destruct tok as [p|kw|name|value|]; simpl; auto.
  - intros ->. apply (not_in_table tk). now rewrite H.
  - exact (proj1 (tokenize_identifier_shape tk name tk' H)).
Qed.

(** The tokens [tokenize] collects are tokens, other than [Eof], that the
    calls returned. *)
Lemma tokenize_loop_collects (Q : Token -> Prop) :
  (forall tk tok tk',
     Tokenizer.tokenize tk = (Some tok, tk') -> tok <> TEof -> Q tok) ->
  forall fuel tk acc tokens,
    Forall Q acc -> tokenize_loop fuel tk acc = Some (Some tokens) ->
    Forall Q tokens.
Proof.
  intros HQ. induction fuel as [|fuel IH]; intros tk acc tokens HA;
    [discriminate|].
  simpl. destruct (Tokenizer.tokenize tk) as [[tok|] tk'] eqn:E;
    [|discriminate].
  assert (N : tok <> TEof -> Forall Q (acc ++ [tok])).
  { intros NE. apply Forall_app. split; [assumption|].
    constructor; [|constructor]. exact (HQ tk tok tk' E NE). }
  destruct tok; try (apply IH; apply N; discriminate).
  now intros [= <-].
Qed.

Lemma tokenize_collects (Q : Token -> Prop) input tokens :
  (forall tk tok tk',
     Tokenizer.tokenize tk = (Some tok, tk') -> tok <> TEof -> Q tok) ->
  tokenize input = Some tokens -> Forall Q tokens.
Proof.
  intros HQ H. unfold tokenize in H.
  destruct (tokenize_loop _ _ _) as [r|] eqn:E; [|discriminate]. subst r.
  eapply tokenize_loop_collects; [exact HQ | constructor | exact E].
Qed.

End Shapes.

(** X4.  An identifier that [Tokenizer::tokenize] returns is not empty,
    starts with a letter or an underscore, goes on with letters, digits and
    underscores, is no reserved word, and takes all such characters: none
    follows it.  Every token in a result of [tokenize] is other than [Eof]
    and [DoubleSlashEquals], and its identifiers are of that kind. *)
Theorem returned_tokens_are_well_formed :
  (forall tk name tk',
     Tokenizer.tokenize tk = (Some (TIdentifier name), tk') ->
     identifier name /\ stops is_alnum (Tokenizer.remaining_input tk'))
  /\ (forall input tokens,
        tokenize input = Some tokens -> Forall well_formed tokens).
Proof.
  split; [exact Shapes.tokenize_identifier_shape|].
  intros input tokens H.
  apply (Shapes.tokenize_collects well_formed input tokens); [|exact H].
  exact Shapes.tokenize_well_formed.
Qed.

Lemma returned_tokens_are_well_formed_witness :
  (identifier (sv "x1")
   /\ stops is_alnum
        (Tokenizer.remaining_input (Tokenizer.mk (sv " x1+y") 3)))
  /\ Forall well_formed
       [TIdentifier (sv "x1"); TPunctuator token.Plus; TIdentifier (sv "y")].
Proof.
  split.
  - apply (proj1 returned_tokens_are_well_formed
             (Tokenizer.make (sv " x1+y")) (sv "x1")
             (Tokenizer.mk (sv " x1+y") 3)).
    vm_compute. reflexivity.
  - apply (proj2 returned_tokens_are_well_formed (sv " x1+y")).
    vm_compute. reflexivity.
Defined.

(* ================================================================= *)
(** ** Further properties: characters that start no token *)

Module Unrecognized.
Import TokenizerFacts Lexing.

Lemma no_match_at c rest :
  starts_punctuator c = false ->
  Tokenizer.first_match Tokenizer.kPunctuators (c :: rest) 0 = None.
Proof.
  intros H.
  destruct (Tokenizer.first_match _ _ _) as [[str p]|] eqn:E;
    [|reflexivity].
  exfalso. destruct (first_match_some _ _ _ _ E) as [HI HM].
  pose proof (kPunctuators_nonempty _ HI) as NE.
  apply Table.in_kPunctuators in HI.
  unfold matches, substr in HM. cbn [fst skipn] in *.
  destruct str as [|x str]; [simpl in NE; lia|].
  cbn [Datatypes.length firstn] in HM. injection HM as -> _.
  assert (starts_punctuator x = true); [|congruence].
  unfold starts_punctuator. apply existsb_exists.
  exists (x :: str, p). split; [exact HI|]. cbn [fst].
  apply Ascii.eqb_refl.
Qed.

Lemma tokenize_unrecognized pre c rest :
  Tokenizer.is_whitespace c = false -> c <> "#"%char -> c <> dquote ->
  Tokenizer.is_alpha c = false -> starts_punctuator c = false ->
  Tokenizer.tokenize (after pre (c :: rest)) = (None, after pre (c :: rest)).
Proof.
  intros W NH NQ NA NP. unfold after.
  rewrite <- (Nat.add_0_r (size pre)) at 1. rewrite tokenize_shift.
  rewrite tokenize_eq. unfold Tokenizer.skip_comments_and_whitespace.
  cbn [Tokenizer.input_ Tokenizer.pos_].
  rewrite skip_loop_stay; [| simpl; lia | exact W | exact NH].
  unfold dispatch. cbn [Tokenizer.input_ Tokenizer.pos_].
  change (size (c :: rest) <=? 0) with false. cbv iota.
  apply Ascii.eqb_neq in NQ.
  replace (sv_eqb (substr (c :: rest) 0 3) triple_quote) with false
    by (unfold substr; simpl; now rewrite NQ).
  change (at_ (c :: rest) 0) with c. rewrite NQ, NA.
  unfold Tokenizer.tokenize_punctuator.
  cbn [Tokenizer.input_ Tokenizer.pos_].
  rewrite no_match_at by exact NP.
  unfold shift_by. cbn [fst snd Tokenizer.input_ Tokenizer.pos_].
  now rewrite Nat.add_0_r.
Qed.

Lemma digit_starts_no_token c :
  Tokenizer.is_digit c = true ->
  Tokenizer.is_whitespace c = false /\ c <> "#"%char /\ c <> dquote
  /\ Tokenizer.is_alpha c = false /\ starts_punctuator c = false.
Proof.
  destruct c as [[] [] [] [] [] [] [] []]; intros H; try discriminate H;
    repeat split; try discriminate; vm_compute; reflexivity.
Qed.

Lemma parse_first_fails input :
  fst (Tokenizer.tokenize (Tokenizer.make input)) = None ->
  parse input = None.
Proof.
  intros H. apply (Progress.parse_from_loop _ 1). cbn [Parser.parse_loop].
  destruct (Tokenizer.tokenize (Tokenizer.make input)) as [tok tk].
  simpl in H. now subst tok.
Qed.

End Unrecognized.

(** X5.  A character that is no whitespace, no ['#'], no double quote, no
    letter or underscore and not the first character of a spelling of the
    punctuator table starts no token: the call fails and leaves the cursor
    at it, and an input that starts with it is neither tokenized nor
    parsed.  The digits are such characters, so a number is no token. *)
Theorem unrecognized_character_fails :
  (forall pre c rest,
     Tokenizer.is_whitespace c = false -> c <> "#"%char -> c <> dquote ->
     Tokenizer.is_alpha c = false -> starts_punctuator c = false ->
     Tokenizer.tokenize (after pre (c :: rest))
     = (None, after pre (c :: rest))
     /\ tokenize (c :: rest) = None
     /\ parse (c :: rest) = None)
  /\ (forall c rest,
        Tokenizer.is_digit c = true ->
        tokenize (c :: rest) = None /\ parse (c :: rest) = None).
Proof.
  assert (G : forall pre c rest,
     Tokenizer.is_whitespace c = false -> c <> "#"%char -> c <> dquote ->
     Tokenizer.is_alpha c = false -> starts_punctuator c = false ->
     Tokenizer.tokenize (after pre (c :: rest))
     = (None, after pre (c :: rest))
     /\ tokenize (c :: rest) = None
     /\ parse (c :: rest) = None).
  { intros pre c rest W NH NQ NA NP.
    split; [now apply Unrecognized.tokenize_unrecognized|].
    pose proof (Unrecognized.tokenize_unrecognized [] c rest W NH NQ NA NP)
      as H.
    rewrite Lexing.after_nil in H.
    split; [apply Parsing.tokenize_first_fails
           |apply Unrecognized.parse_first_fails]; now rewrite H. }
  split; [exact G|].
  intros c rest D.
  destruct (Unrecognized.digit_starts_no_token c D) as (W & NH & NQ & NA & NP).
  exact (proj2 (G [] c rest W NH NQ NA NP)).
Qed.

Lemma unrecognized_character_fails_witness :
  Tokenizer.tokenize (after (sv "x = ") (sv "42"))
  = (None, after (sv "x = ") (sv "42"))
  /\ tokenize (sv "'a'") = None
  /\ parse (sv "7") = None.
Proof.
  split; [|split].
  - apply (proj1 unrecognized_character_fails (sv "x = ") "4"%char (sv "2"));
      try reflexivity; discriminate.
  - apply (proj1 unrecognized_character_fails [] "'"%char (sv "a'"));
      try reflexivity; discriminate.
  - apply (proj2 unrecognized_character_fails "7"%char []). reflexivity.
Defined.

(* ================================================================= *)
(** ** Further properties: what is skipped *)

Module Skipping.
Import TokenizerFacts Lexing Shapes.

Lemma substr_split input a b c :
  a <= b -> b <= c -> c <= size input ->
  substr input a (c - a) = substr input a (b - a) ++ substr input b (c - b).
Proof.
  intros H1 H2 H3. unfold substr at 1.
  rewrite (skipn_substr input a b H1), firstn_app.
  rewrite firstn_all2 by (rewrite substr_length; lia).
  f_equal. rewrite substr_length. unfold substr. f_equal. lia.
Qed.

Lemma blank_whitespace_app w b :
  forallb Tokenizer.is_whitespace w = true -> blank b -> blank (w ++ b).
Proof.
  induction w as [|c w IH]; simpl; intros H B; [exact B|].
  apply andb_true_iff in H as [Hc Hw]. apply blank_space; auto.
Qed.

(** The stretch the loop steps over is whitespace and comments. *)
Lemma skip_loop_skipped fuel input pos :
  pos <= size input -> size input - pos <= fuel ->
  blank (substr input pos (Tokenizer.skip_loop fuel input pos - pos)).
Proof.
  revert pos; induction fuel as [|fuel IH]; intros pos L F;
    rewrite skip_loop_eq; cbv zeta;
    pose proof (while_ge Tokenizer.is_whitespace input pos) as G1;
    pose proof (while_le Tokenizer.is_whitespace input pos L) as L1;
    pose proof (while_all Tokenizer.is_whitespace input pos) as A1;
    set (p1 := Tokenizer.while_ Tokenizer.is_whitespace input pos) in *;
    assert (W : forallb Tokenizer.is_whitespace (substr input pos (p1 - pos))
                = true)
      by (apply forallb_substr_range; auto);
    destruct (Nat.ltb_spec p1 (size input)) as [Lp|Lp]; cbn [andb];
    try (rewrite <- (app_nil_r (substr _ _ _));
         apply blank_whitespace_app; [exact W | constructor]);
    (destruct (Ascii.eqb (at_ input p1) "#") eqn:EH;
     [apply Ascii.eqb_eq in EH
     |rewrite <- (app_nil_r (substr _ _ _));
      apply blank_whitespace_app; [exact W | constructor]]).
  - lia.
  - pose proof (comment_advances input p1 Lp EH) as G2.
    pose proof (while_le not_LF input p1 L1) as L2.
    pose proof (while_all not_LF input p1) as A2.
    pose proof (while_exit not_LF input p1) as X2.
    set (p2 := Tokenizer.while_ not_LF input p1) in *.
    change (Tokenizer.while_ (fun c => negb (Ascii.eqb c LF)) input p1)
      with p2.
    pose proof (skip_loop_ge fuel input p2) as G3.
    pose proof (skip_loop_le fuel input p2 L2) as L3.
    specialize (IH p2 L2 ltac:(lia)).
    set (r := Tokenizer.skip_loop fuel input p2) in *.
    rewrite (substr_split input pos p1 r) by lia.
    apply blank_whitespace_app; [exact W|].
    rewrite (substr_split input p1 p2 r) by lia.
    replace (p2 - p1) with (S (p2 - S p1)) by lia.
    rewrite Shapes.substr_first by exact Lp. rewrite EH.
    cbn [app]. apply blank_comment.
    + apply forallb_substr_range; [lia|]. intros i Hi. apply A2. lia.
    + destruct (Nat.eq_dec r p2) as [E|E].
      * rewrite E, Nat.sub_diag. exact I.
      * replace (r - p2) with (S (r - S p2)) by lia.
        rewrite Shapes.substr_first by lia. simpl.
        destruct X2 as [X2|X2]; [lia | exact X2].
    + exact IH.
Qed.

(** [Eof] is returned at the end of the input only. *)
Lemma tokenize_eof_at_end tk tk' :
  Tokenizer.tokenize tk = (Some TEof, tk') ->
  size (Tokenizer.input_ tk)
  <= Tokenizer.pos_ (Tokenizer.skip_comments_and_whitespace tk).
Proof.
  rewrite tokenize_eq.
  destruct (Tokenizer.skip_comments_and_whitespace tk) as [input p] eqn:ES.
  assert (EI : input = Tokenizer.input_ tk)
    by (unfold Tokenizer.skip_comments_and_whitespace in ES; congruence).
  subst input.
  unfold dispatch. cbn [Tokenizer.input_ Tokenizer.pos_].
  destruct (Nat.leb_spec (size (Tokenizer.input_ tk)) p) as [L|L];
    [intros _; exact L|].
  destruct (sv_eqb _ triple_quote).
  { unfold Tokenizer.tokenize_multiline_string.
    destruct (_ <=? _); discriminate. }
  destruct (Ascii.eqb _ dquote).
  { unfold Tokenizer.tokenize_string. destruct (_ <=? _); discriminate. }
  destruct (Tokenizer.is_alpha _).
  { unfold Tokenizer.tokenize_identifier. intros [= H].
    now apply Calls.classify_not_eof in H. }
  unfold Tokenizer.tokenize_punctuator.
  destruct (Tokenizer.first_match _ _ _) as [[str x]|]; discriminate.
Qed.

Lemma first_eof_blank input :
  fst (Tokenizer.tokenize (Tokenizer.make input)) = Some TEof ->
  blank input.
Proof.
  intros H.
  destruct (Tokenizer.tokenize (Tokenizer.make input)) as [tok tk'] eqn:E.
  simpl in H. subst tok. apply tokenize_eof_at_end in E.
  unfold Tokenizer.skip_comments_and_whitespace, Tokenizer.make in E.
  cbn [Tokenizer.input_ Tokenizer.pos_] in E.
  pose proof (skip_loop_le (size input - 0) input 0 ltac:(lia)) as L.
  pose proof (skip_loop_skipped (size input - 0) input 0 ltac:(lia)
                ltac:(lia)) as B.
  replace (Tokenizer.skip_loop (size input - 0) input 0 - 0)
    with (size input) in B by lia.
  unfold substr in B. simpl skipn in B. now rewrite firstn_all in B.
Qed.

Lemma tokenize_loop_extends fuel tk acc tokens :
  tokenize_loop fuel tk acc = Some (Some tokens) ->
  exists more, tokens = acc ++ more.
Proof.
  revert tk acc; induction fuel as [|fuel IH]; intros tk acc;
    [discriminate|].
  simpl. destruct (Tokenizer.tokenize tk) as [[tok|] tk']; [|discriminate].
  destruct tok;
    try (intros H; apply IH in H as [more ->];
         eexists; rewrite <- app_assoc; reflexivity).
  intros [= <-]. exists []. now rewrite app_nil_r.
Qed.

Lemma parse_loop_extends fuel program tk r :
  Parser.parse_loop fuel program tk = Some (Some r) ->
  exists more, statements r = statements program ++ more.
Proof.
  revert program tk; induction fuel as [|fuel IH]; intros program tk;
    [discriminate|].
  simpl. destruct (Tokenizer.tokenize tk) as [[[|kw| | |]|] tk1];
    try discriminate.
  - destruct (token.Keyword_eqb kw token.Load); [|discriminate].
    destruct (Parser.parse_load_stmt tk1) as [[load|] tk2]; [|discriminate].
    intros H. apply IH in H as [more H]. cbn [statements] in H.
    rewrite H, <- app_assoc. eexists. reflexivity.
  - intros [= <-]. exists []. now rewrite app_nil_r.
Qed.

Lemma tokenize_nothing_blank input : tokenize input = Some [] -> blank input.
Proof.
  unfold tokenize. cbn [tokenize_loop]. intros H.
  apply first_eof_blank.
  destruct (Tokenizer.tokenize (Tokenizer.make input)) as [[tok|] tk1];
    [|discriminate].
  destruct tok; try reflexivity;
    (destruct (tokenize_loop _ _ _) as [r|] eqn:E; [|discriminate];
     subst r; apply tokenize_loop_extends in E as [more E];
     discriminate E).
Qed.

Lemma parse_nothing_blank input :
  parse input = Some (mkProgram []) -> blank input.
Proof.
  unfold parse, Parser.parse. cbn [Parser.parse_loop]. intros H.
  apply first_eof_blank.
  destruct (Tokenizer.tokenize (Tokenizer.make input))
    as [[[|kw| | |]|] tk1]; try discriminate; [|reflexivity].
  exfalso.
  destruct (token.Keyword_eqb kw token.Load); [|discriminate].
  destruct (Parser.parse_load_stmt tk1) as [[load|] tk2]; [|discriminate].
  destruct (Parser.parse_loop _ _ _) as [r|] eqn:E; [|discriminate].
  subst r. apply parse_loop_extends in E as [more E].
  discriminate E.
Qed.

End Skipping.

(** X6.  [skip_comments_and_whitespace] steps over whitespace and comments
    and nothing else, and stops at the end of the input or in front of a
    character that is neither whitespace nor ['#'].  Hence the first call
    returns [Eof], [tokenize] returns no token and [parse] returns the
    program without statements exactly on the inputs that are whitespace
    and comments only. *)
Theorem only_blank_text_is_skipped :
  (forall tk,
     inside tk ->
     let tk0 := Tokenizer.skip_comments_and_whitespace tk in
     Tokenizer.input_ tk0 = Tokenizer.input_ tk
     /\ (exists skipped,
           blank skipped
           /\ Tokenizer.remaining_input tk
              = skipped ++ Tokenizer.remaining_input tk0)
     /\ stops (fun c => Tokenizer.is_whitespace c || Ascii.eqb c "#")
          (Tokenizer.remaining_input tk0))
  /\ (forall input,
        (fst (Tokenizer.tokenize (Tokenizer.make input)) = Some TEof
         <-> blank input)
        /\ (tokenize input = Some [] <-> blank input)
        /\ (parse input = Some (mkProgram []) <-> blank input)).
Proof.
  split.
  - intros [input pos] I. unfold inside in I.
    cbn [Tokenizer.input_ Tokenizer.pos_] in I.
    unfold Tokenizer.skip_comments_and_whitespace, Tokenizer.remaining_input.
    cbn [Tokenizer.input_ Tokenizer.pos_].
    pose proof (TokenizerFacts.skip_loop_ge (size input - pos) input pos)
      as G.
    pose proof (TokenizerFacts.skip_loop_exit (size input - pos) input pos
                  (Nat.le_refl _)) as X.
    pose proof (Skipping.skip_loop_skipped (size input - pos) input pos I
                  (Nat.le_refl _)) as B.
    cbv zeta in X.
    set (r := Tokenizer.skip_loop (size input - pos) input pos) in *.
    split; [reflexivity|]. split.
    + exists (substr input pos (r - pos)). split; [exact B|].
      now apply skipn_substr.
    + destruct (Nat.le_gt_cases (size input) r) as [E|E].
      * now rewrite skipn_all2.
      * rewrite (skipn_at input r E). simpl.
        destruct X as [X|[X1 X2]]; [lia|].
        apply Ascii.eqb_neq in X2. now rewrite X1, X2.
  - intros input. split; [|split]; split.
    + apply Skipping.first_eof_blank.
    + intros B. rewrite <- Lexing.after_nil.
      now rewrite Lexing.tokenize_blank.
    + apply Skipping.tokenize_nothing_blank.
    + apply Calls.tokenize_blank_input.
    + apply Skipping.parse_nothing_blank.
    + intros B. exact (Spelling.parse_spelled [] input (Forall_nil _) B).
Qed.

Lemma only_blank_text_is_skipped_witness :
  (exists skipped,
     blank skipped
     /\ Tokenizer.remaining_input (Tokenizer.mk (sv "a #b") 1)
        = skipped
          ++ Tokenizer.remaining_input
               (Tokenizer.skip_comments_and_whitespace
                  (Tokenizer.mk (sv "a #b") 1)))
  /\ blank (sv "# a")
  /\ parse (sv "# a") = Some (mkProgram []).
Proof.
  assert (B : blank (sv "# a")).
  { apply (blank_comment (sv " a") []); [reflexivity | exact I|].
    apply blank_end. }
  split; [|split; [exact B|]].
  - apply (proj1 only_blank_text_is_skipped (Tokenizer.mk (sv "a #b") 1)).
    unfold inside. simpl. lia.
  - apply (proj2 (proj2 (proj2 only_blank_text_is_skipped (sv "# a")))).
    exact B.
Defined.

(* ================================================================= *)
(** ** Further properties: tokens written as text and read back *)

Module Rendering.
Import TokenizerFacts Lexing.

Lemma reads_punctuator p rest :
  p <> token.DoubleSlashEquals -> token_end rest ->
  reads (token.Punctuator_to_string p) (TPunctuator p) rest.
Proof.
  intros NE [->|[rest' ->]]; destruct p; try congruence;
    apply reads_intro; vm_compute; reflexivity.
Qed.

Lemma token_end_stops rest : token_end rest -> stops is_alnum rest.
Proof. intros [->|[rest' ->]]; [exact I | reflexivity]. Qed.

Lemma token_end_no_quote rest : token_end rest -> no_quote_next rest.
Proof. intros [->|[rest' ->]]; [exact I | discriminate]. Qed.

(** The text of a spellable token is read as that token. *)
Lemma reads_spellable tok rest :
  spellable tok -> token_end rest -> reads (to_string tok) tok rest.
Proof.
  intros S E. destruct tok as [p|kw|name|value|]; simpl in S.
  - now apply reads_punctuator.
  - apply Spelling.reads_keyword. now apply token_end_stops.
  - destruct S as [HS HC]. simpl. rewrite <- HC.
    apply reads_identifier; [exact HS | now apply token_end_stops].
  - apply Spelling.reads_quoted; [exact S | now apply token_end_no_quote].
  - contradiction.
Qed.

Lemma spaced_end tokens tail :
  token_end tail -> token_end (spaced tokens ++ tail).
Proof.
  intros H. destruct tokens as [|tok tokens]; [exact H|].
  right. eexists. reflexivity.
Qed.

Lemma spellable_not_eof tok : spellable tok -> tok <> TEof.
Proof. intros S ->. exact S. Qed.

(** The loop of [tokenize] reads the spaced tokens one per iteration. *)
Lemma tokenize_loop_spaced tokens :
  Forall spellable tokens ->
  forall fuel acc pre tail,
    token_end tail ->
    tokenize_loop (Datatypes.length tokens + fuel)
      (after pre (spaced tokens ++ tail)) acc
    = tokenize_loop fuel (after (pre ++ spaced tokens) tail) (acc ++ tokens).
Proof.
  induction 1 as [|tok tokens Ht Hl IH]; intros fuel acc pre tail E.
  - simpl. now rewrite !app_nil_r.
  - change (spaced (tok :: tokens))
      with ((sv " " ++ to_string tok) ++ spaced tokens).
    change (Datatypes.length (tok :: tokens) + fuel)
      with (S (Datatypes.length tokens + fuel)).
    cbn [tokenize_loop]. rewrite <- !app_assoc.
    rewrite (read_spaced pre _ _ _
               (reads_spellable tok _ Ht (spaced_end tokens tail E))).
    pose proof (spellable_not_eof tok Ht) as NE.
    rewrite IH by exact E.
    destruct tok; try congruence;
      rewrite <- !app_assoc; reflexivity.
Qed.

(** The first token, the spaced others, and a blank end. *)
Lemma tokenize_spaced tok tokens tail :
  Forall spellable (tok :: tokens) -> token_end tail -> blank tail ->
  tokenize (to_string tok ++ spaced tokens ++ tail) = Some (tok :: tokens).
Proof.
  intros H E B. inversion H as [|? ? Ht Hl]; subst.
  apply (Progress.tokenize_from_loop _ (S (Datatypes.length tokens + 1))).
  cbn [tokenize_loop]. rewrite <- after_nil.
  rewrite (read [] _ _ _
             (reads_spellable tok _ Ht (spaced_end tokens tail E))).
  pose proof (spellable_not_eof tok Ht) as NE.
  rewrite tokenize_loop_spaced by assumption.
  cbn [tokenize_loop]. rewrite tokenize_blank by exact B.
  destruct tok; try congruence; reflexivity.
Qed.

(** The two functions written without their loops. *)
Lemma fold_left_texts (f : Token -> string_view) tokens acc :
  fold_left (fun ss tok => ss ++ f tok) tokens acc
  = acc ++ List.concat (map f tokens).
Proof.
  revert acc; induction tokens as [|tok tokens IH]; intros acc; simpl.
  - now rewrite app_nil_r.
  - now rewrite IH, app_assoc.
Qed.

Lemma space_after_is_space_before tokens :
  sv " " ++ List.concat (map (fun tok => to_string tok ++ sv " ") tokens)
  = spaced tokens ++ sv " ".
Proof.
  induction tokens as [|tok tokens IH]; [reflexivity|].
  cbn [map List.concat]. unfold spaced. cbn [map List.concat].
  fold (spaced tokens). rewrite <- !app_assoc. now rewrite IH.
Qed.

Lemma Main_to_string_cons tok tokens :
  Main.to_string (tok :: tokens) = to_string tok ++ spaced tokens ++ sv " ".
Proof.
  unfold Main.to_string. rewrite fold_left_texts. cbn [app map List.concat].
  rewrite <- app_assoc. now rewrite space_after_is_space_before.
Qed.

Lemma TokenizerTest_to_string_cons tok tokens :
  TokenizerTest.to_string (tok :: tokens)
  = Some (to_string tok ++ spaced tokens).
Proof.
  unfold TokenizerTest.to_string.
  now rewrite (fold_left_texts (fun tok => sv " " ++ to_string tok)).
Qed.

Lemma Main_round_trip tokens :
  Forall spellable tokens -> tokenize (Main.to_string tokens) = Some tokens.
Proof.
  intros H. destruct tokens as [|tok tokens]; [reflexivity|].
  rewrite Main_to_string_cons.
  apply tokenize_spaced; [exact H | right; eexists; reflexivity|].
  apply blank_space; [reflexivity | apply blank_end].
Qed.

(** A token of a result of [tokenize] is spellable when its strings are
    plain. *)
Lemma well_formed_spellable tok :
  well_formed tok -> plain_strings tok -> spellable tok.
Proof. destruct tok; simpl; auto. Qed.

End Rendering.

(** X7.  [to_string] of a sequence of tokens ([main.cc], [ffs/main.cc])
    and [tokenize] are a round trip: the text of tokens that are keywords,
    punctuators of the table, identifiers and strings without a double
    quote is tokenized to exactly these tokens.  So no two such sequences
    have the same text. *)
Theorem tokens_text_round_trip :
  (forall tokens,
     Forall spellable tokens ->
     tokenize (Main.to_string tokens) = Some tokens)
  /\ (forall a b,
        Forall spellable a -> Forall spellable b ->
        Main.to_string a = Main.to_string b -> a = b).
Proof.
  split; [exact Rendering.Main_round_trip|].
  intros a b Ha Hb E.
  pose proof (Rendering.Main_round_trip a Ha) as Ra.
  pose proof (Rendering.Main_round_trip b Hb) as Rb.
  rewrite E in Ra. congruence.
Qed.

Lemma tokens_text_round_trip_witness :
  tokenize (Main.to_string
              [TKeyword token.If; TIdentifier (sv "x");
               TPunctuator token.LessOrEqual; TStringLiteral (sv "a b")])
  = Some [TKeyword token.If; TIdentifier (sv "x");
          TPunctuator token.LessOrEqual; TStringLiteral (sv "a b")].
Proof.
  apply (proj1 tokens_text_round_trip).
  repeat constructor; discriminate.
Defined.

(** X8.  [to_string] of the tokenizer's test refuses the empty sequence;
    the text it gives for a sequence of such tokens, separated by single
    spaces, is tokenized to exactly these tokens.  The test case of
    [tokenizer_test.cc] passes. *)
Theorem test_text_round_trip :
  TokenizerTest.to_string [] = None
  /\ (forall tokens text,
        Forall spellable tokens ->
        TokenizerTest.to_string tokens = Some text ->
        tokenize text = Some tokens)
  /\ forallb TokenizerTest.test_passes TokenizerTest.kTestCases = true.
Proof.
  split; [reflexivity|]. split; [|vm_compute; reflexivity].
  intros [|tok tokens] text H; [discriminate|].
  rewrite Rendering.TokenizerTest_to_string_cons. intros [= <-].
  rewrite <- (app_nil_r (spaced tokens)).
  apply Rendering.tokenize_spaced; [exact H | now left | apply blank_end].
Qed.

Lemma test_text_round_trip_witness :
  tokenize (sv "not " ++ quoted (sv "") ++ sv " << f_1")
  = Some [TKeyword token.Not; TStringLiteral []; TPunctuator token.LShift;
          TIdentifier (sv "f_1")].
Proof.
  apply (proj1 (proj2 test_text_round_trip)
           [TKeyword token.Not; TStringLiteral []; TPunctuator token.LShift;
            TIdentifier (sv "f_1")]).
  - repeat constructor; discriminate.
  - vm_compute. reflexivity.
Defined.

(** X9.  The text of the tokens of an input is a normal form of the input:
    when [tokenize] succeeds and the strings among the tokens have no
    double quote, the text that [to_string] gives for the tokens is
    tokenized to the same tokens. *)
Theorem tokens_text_is_a_normal_form (input : string_view)
    (tokens : list Token) :
  tokenize input = Some tokens -> Forall plain_strings tokens ->
  tokenize (Main.to_string tokens) = Some tokens.
Proof.
  intros H P. apply Rendering.Main_round_trip.
  pose proof (Shapes.tokenize_collects well_formed input tokens
                Shapes.tokenize_well_formed H) as W.
  rewrite Forall_forall in *. intros tok HI.
  apply Rendering.well_formed_spellable; auto.
Qed.

Lemma tokens_text_is_a_normal_form_witness :
  tokenize (Main.to_string
              [TIdentifier (sv "a"); TPunctuator token.PlusEquals;
               TStringLiteral (sv "b")])
  = Some [TIdentifier (sv "a"); TPunctuator token.PlusEquals;
          TStringLiteral (sv "b")].
Proof.
  apply (tokens_text_is_a_normal_form
           (sv "  a+= # c" ++ [LF] ++ triple_quote ++ sv "b" ++ triple_quote)).
  - vm_compute. reflexivity.
  - repeat constructor.
Defined.

(* ================================================================= *)
(** ** Further properties: the tokens the parser reads *)

Module Streams.

Lemma consumed_app a t1 b t2 c :
  consumed a t1 b -> consumed b t2 c -> consumed a (t1 ++ t2) c.
Proof.
  induction 1 as [|tk tok tk1 tokens tk' E NE HC IH]; intros H2;
    [exact H2|].
  simpl. econstructor; eauto.
Qed.

(** Tokens that are consumed up to [Eof] are what the loop of [tokenize]
    collects. *)
Lemma consumed_tokenize_loop tk tokens tk' :
  consumed tk tokens tk' ->
  fst (Tokenizer.tokenize tk') = Some TEof ->
  forall acc, exists fuel,
    tokenize_loop fuel tk acc = Some (Some (acc ++ tokens)).
Proof.
  induction 1 as [tk|tk tok tk1 tokens tk' E NE HC IH]; intros HE acc.
  - exists 1. cbn [tokenize_loop].
    destruct (Tokenizer.tokenize tk) as [t tk2]. simpl in HE. subst t.
    now rewrite app_nil_r.
  - destruct (IH HE (acc ++ [tok])) as [fuel HF].
    exists (S fuel). cbn [tokenize_loop]. rewrite E.
    rewrite <- app_assoc in HF.
    destruct tok; try congruence; exact HF.
Qed.

(** The tokens of a list of symbols that is accepted: no keyword is among
    them. *)
Lemma load_symbols_consumed fuel acc tk syms tk' :
  Parser.load_symbols fuel acc tk = Some (Some syms, tk') ->
  exists tokens,
    consumed tk tokens tk' /\ Forall only_load tokens
    /\ count_loads tokens = 0.
Proof.
  revert acc tk; induction fuel as [|fuel IH]; intros acc tk;
    [discriminate|].
  cbn [Parser.load_symbols].
  destruct (Tokenizer.tokenize tk) as [[[p| | | |]|] tk1] eqn:E1;
    try discriminate.
  destruct (token.Punctuator_eqb p token.RParen).
  { intros [= <- <-]. exists [TPunctuator p]. split; [|split].
    - econstructor; [exact E1 | discriminate | constructor].
    - repeat constructor.
    - reflexivity. }
  destruct (negb _); [discriminate|].
  destruct (Tokenizer.tokenize tk1) as [[[| |name|value|]|] tk2] eqn:E2;
    try discriminate.
  - unfold Parser.expect_next_token, Parser.next_token_as_StringLiteral.
    destruct (Tokenizer.tokenize tk2) as [[t3|] tk3] eqn:E3;
      [|discriminate].
    destruct (negb (Token_eqb t3 (TPunctuator token.Equals))) eqn:Q;
      [discriminate|]. cbn [negb].
    destruct (Tokenizer.tokenize tk3) as [[[| | |v|]|] tk4] eqn:E4;
      try discriminate.
    intros H. apply IH in H as (tokens & HC & HO & HN).
    exists (TPunctuator p :: TIdentifier name :: t3 :: TStringLiteral v
            :: tokens).
    destruct t3; try discriminate Q.
    split; [|split].
    + repeat (econstructor; [eassumption | discriminate|]). exact HC.
    + repeat (constructor; [exact I|]). exact HO.
    + exact HN.
  - intros H. apply IH in H as (tokens & HC & HO & HN).
    exists (TPunctuator p :: TStringLiteral value :: tokens).
    split; [|split].
    + repeat (econstructor; [eassumption | discriminate|]). exact HC.
    + repeat (constructor; [exact I|]). exact HO.
    + exact HN.
Qed.

Lemma parse_load_stmt_consumed tk load tk' :
  Parser.parse_load_stmt tk = (Some load, tk') ->
  exists tokens,
    consumed tk tokens tk' /\ Forall only_load tokens
    /\ count_loads tokens = 0.
Proof.
  unfold Parser.parse_load_stmt, Parser.parse_load_stmt_fuel.
  destruct (Tokenizer.tokenize tk) as [[[[]| | | |]|] tk1] eqn:E1;
    try discriminate.
  destruct (Tokenizer.tokenize tk1) as [[[| | |m|]|] tk2] eqn:E2;
    try discriminate.
  destruct (Parser.load_symbols _ [] tk2) as [[[[|x l]|] tk3]|] eqn:E3;
    try discriminate.
  intros [= <- <-].
  apply load_symbols_consumed in E3 as (tokens & HC & HO & HN).
  exists (TPunctuator token.LParen :: TStringLiteral m :: tokens).
  split; [|split].
  - repeat (econstructor; [eassumption | discriminate|]). exact HC.
  - repeat (constructor; [exact I|]). exact HO.
  - exact HN.
Qed.

Lemma count_loads_app a b :
  count_loads (a ++ b) = count_loads a + count_loads b.
Proof. unfold count_loads. now rewrite filter_app, length_app. Qed.

(** The tokens of a program that is accepted: one [load] for every
    statement, and no other keyword. *)
Lemma parse_loop_consumed fuel program tk r :
  Parser.parse_loop fuel program tk = Some (Some r) ->
  exists tokens tk',
    consumed tk tokens tk'
    /\ fst (Tokenizer.tokenize tk') = Some TEof
    /\ Forall only_load tokens
    /\ Datatypes.length (statements r)
       = Datatypes.length (statements program) + count_loads tokens.
Proof.
  revert program tk; induction fuel as [|fuel IH]; intros program tk;
    [discriminate|].
  cbn [Parser.parse_loop].
  destruct (Tokenizer.tokenize tk) as [[[|kw| | |]|] tk1] eqn:E1;
    try discriminate.
  - destruct (token.Keyword_eqb kw token.Load) eqn:K; [|discriminate].
    apply Keyword_eqb_eq in K. subst kw.
    destruct (Parser.parse_load_stmt tk1) as [[load|] tk2] eqn:E2;
      [|discriminate].
    apply parse_load_stmt_consumed in E2 as (t2 & HC2 & HO2 & HN2).
    intros H. apply IH in H as (t3 & tk' & HC3 & HE & HO3 & HL).
    exists (TKeyword token.Load :: t2 ++ t3), tk'.
    split; [|split; [exact HE|split]].
    + econstructor; [exact E1 | discriminate|].
      eapply consumed_app; eassumption.
    + constructor; [reflexivity|]. apply Forall_app. now split.
    + cbn [statements] in HL. rewrite length_app in HL. simpl in HL.
      change (TKeyword token.Load :: t2 ++ t3)
        with ([TKeyword token.Load] ++ t2 ++ t3).
      rewrite !count_loads_app, HN2.
      change (count_loads [TKeyword token.Load]) with 1. lia.
  - intros [= <-]. exists [], tk. split; [constructor|].
    split; [now rewrite E1|]. split; [constructor|].
    change (count_loads []) with 0. lia.
Qed.

Lemma parse_tokens input program :
  parse input = Some program ->
  exists tokens,
    tokenize input = Some tokens /\ Forall only_load tokens
    /\ count_loads tokens = Datatypes.length (statements program).
Proof.
  unfold parse, Parser.parse.
  destruct (Parser.parse_loop _ _ _) as [r|] eqn:E; [|discriminate].
  intros ->. apply parse_loop_consumed in E
    as (tokens & tk' & HC & HE & HO & HL).
  exists tokens. split; [|split; [exact HO | simpl in HL; lia]].
  destruct (consumed_tokenize_loop _ _ _ HC HE []) as [fuel HF].
  exact (Progress.tokenize_from_loop _ _ _ HF).
Qed.

End Streams.

(** X10.  [parse] accepts only what [tokenize] accepts: when it returns a
    program, [tokenize] returns the tokens of the input; a keyword among
    them is [load], and there are as many [load]s as the program has
    statements.  When [tokenize] fails, so does [parse]. *)
Theorem parse_accepts_only_tokenized_input :
  (forall input program,
     parse input = Some program ->
     exists tokens,
       tokenize input = Some tokens /\ Forall only_load tokens
       /\ count_loads tokens = Datatypes.length (statements program))
  /\ (forall input, tokenize input = None -> parse input = None).
Proof.
  split; [exact Streams.parse_tokens|].
  intros input H. destruct (parse input) as [program|] eqn:E; [|reflexivity].
  destruct (Streams.parse_tokens input program E) as (tokens & HT & _).
  congruence.
Qed.

Lemma parse_accepts_only_tokenized_input_witness :
  (exists tokens,
     tokenize input_two_symbols = Some tokens /\ Forall only_load tokens
     /\ count_loads tokens = 1)
  /\ parse (input_one_symbol ++ sv " 1") = None.
Proof.
  split.
  - apply (proj1 parse_accepts_only_tokenized_input input_two_symbols
             (mkProgram [SLoadStmt (mkLoadStmt (sv "@rules_cc//cc:defs.bzl")
                [(sv "cc_library", sv "cc_library");
                 (sv "cc_test", sv "cc_test")])])).
    vm_compute. reflexivity.
  - apply (proj2 parse_accepts_only_tokenized_input).
    vm_compute. reflexivity.
Defined.

(* ================================================================= *)
(** ** Further properties: statement by statement *)

Module Statements.

Lemma statements_read_loop input read tk :
  statements_read input read tk ->
  exists n, forall fuel,
    Parser.parse_loop (n + fuel) (mkProgram []) (Tokenizer.make input)
    = Parser.parse_loop fuel (mkProgram read) tk.
Proof.
  induction 1 as [|read tk tk1 load tk2 HS [n IH] H1 H2].
  - exists 0. reflexivity.
  - exists (n + 1). intros fuel.
    replace (n + 1 + fuel) with (n + S fuel) by lia.
    rewrite IH. cbn [Parser.parse_loop]. rewrite H1.
    cbn [token.Keyword_eqb]. now rewrite H2.
Qed.

Lemma parse_loop_statements input fuel read tk r :
  statements_read input read tk ->
  Parser.parse_loop fuel (mkProgram read) tk = Some (Some r) ->
  exists tk',
    statements_read input (statements r) tk'
    /\ fst (Tokenizer.tokenize tk') = Some TEof.
Proof.
  revert read tk; induction fuel as [|fuel IH]; intros read tk HS;
    [discriminate|].
  cbn [Parser.parse_loop].
  destruct (Tokenizer.tokenize tk) as [[[|kw| | |]|] tk1] eqn:E1;
    try discriminate.
  - destruct (token.Keyword_eqb kw token.Load) eqn:K; [|discriminate].
    apply Keyword_eqb_eq in K. subst kw.
    destruct (Parser.parse_load_stmt tk1) as [[load|] tk2] eqn:E2;
      [|discriminate].
    cbn [statements]. apply IH. econstructor; eassumption.
  - intros [= <-]. exists tk. cbn [statements]. split; [exact HS|].
    now rewrite E1.
Qed.

Lemma parse_after input read tk r :
  statements_read input read tk ->
  Parser.parse_loop 1 (mkProgram read) tk = Some r ->
  parse input = r.
Proof.
  intros HS H. destruct (statements_read_loop input read tk HS) as [n E].
  apply (Progress.parse_from_loop _ (n + 1)). now rewrite E.
Qed.

End Statements.

(** X11.  [parse] is all or nothing.  When, after any number of accepted
    load statements, the next statement starts with [Eof], the result is
    the program of the statements read; when it starts with a failure of
    the tokenizer or with any token but [Eof] and [load], or when the load
    statement after [load] is refused, there is no result, whatever was
    read before.  Every program that is returned is reached in the first
    way. *)
Theorem parse_is_all_or_nothing :
  (forall input read tk,
     statements_read input read tk ->
     fst (Tokenizer.tokenize tk) = Some TEof ->
     parse input = Some (mkProgram read))
  /\ (forall input read tk tok,
        statements_read input read tk ->
        fst (Tokenizer.tokenize tk) = tok ->
        tok <> Some TEof -> tok <> Some (TKeyword token.Load) ->
        parse input = None)
  /\ (forall input read tk tk1,
        statements_read input read tk ->
        Tokenizer.tokenize tk = (Some (TKeyword token.Load), tk1) ->
        fst (Parser.parse_load_stmt tk1) = None ->
        parse input = None)
  /\ (forall input program,
        parse input = Some program ->
        exists tk,
          statements_read input (statements program) tk
          /\ fst (Tokenizer.tokenize tk) = Some TEof).
Proof.
  split; [|split; [|split]].
  - intros input read tk HS HE.
    apply (Statements.parse_after input read tk _ HS).
    cbn [Parser.parse_loop].
    destruct (Tokenizer.tokenize tk) as [tok tk']. simpl in HE.
    now subst tok.
  - intros input read tk tok HS HT N1 N2.
    apply (Statements.parse_after input read tk _ HS).
    cbn [Parser.parse_loop].
    destruct (Tokenizer.tokenize tk) as [t tk']. simpl in HT. subst t.
    destruct tok as [[|kw| | |]|]; try reflexivity; try congruence.
    destruct kw; try reflexivity; congruence.
  - intros input read tk tk1 HS HT HL.
    apply (Statements.parse_after input read tk _ HS).
    cbn [Parser.parse_loop]. rewrite HT. cbn [token.Keyword_eqb].
    destruct (Parser.parse_load_stmt tk1) as [load tk2]. simpl in HL.
    now subst load.
  - intros input program H. unfold parse, Parser.parse in H.
    destruct (Parser.parse_loop _ _ _) as [r|] eqn:E; [|discriminate].
    subst r.
    exact (Statements.parse_loop_statements input _ [] _ program
             (read_none input) E).
Qed.

Lemma parse_is_all_or_nothing_witness :
  statements_read (input_one_symbol ++ sv " x = 1")
    [SLoadStmt (mkLoadStmt (sv "m") [(sv "a", sv "a")])]
    (Tokenizer.mk (input_one_symbol ++ sv " x = 1") 14)
  /\ parse (input_one_symbol ++ sv " x = 1") = None
  /\ parse (input_one_symbol ++ sv " load(") = None
  /\ parse (input_one_symbol ++ sv " ")
     = Some (mkProgram [SLoadStmt (mkLoadStmt (sv "m") [(sv "a", sv "a")])]).
Proof.
  assert (R : forall tail,
            statements_read (input_one_symbol ++ tail)
              [SLoadStmt (mkLoadStmt (sv "m") [(sv "a", sv "a")])]
              (Tokenizer.mk (input_one_symbol ++ tail) 14)).
  { intros tail.
    apply (read_more (input_one_symbol ++ tail) []
             (Tokenizer.make (input_one_symbol ++ tail))
             (Tokenizer.mk (input_one_symbol ++ tail) 4)
             (mkLoadStmt (sv "m") [(sv "a", sv "a")]));
      [apply read_none | vm_compute; reflexivity | vm_compute; reflexivity]. }
  split; [exact (R (sv " x = 1"))|]. split; [|split].
  - apply (proj1 (proj2 parse_is_all_or_nothing) _ _ _
             (Some (TIdentifier (sv "x"))) (R (sv " x = 1")));
      [vm_compute; reflexivity | discriminate | discriminate].
  - apply (proj1 (proj2 (proj2 parse_is_all_or_nothing)) _ _ _
             (Tokenizer.mk (input_one_symbol ++ sv " load(") 19)
             (R (sv " load("))); vm_compute; reflexivity.
  - apply (proj1 parse_is_all_or_nothing _ _ _ (R (sv " "))).
    vm_compute. reflexivity.
Defined.

(* ================================================================= *)
(** ** Further properties: the names a load statement binds *)

Module Bindings.

Lemma load_symbols_bindings fuel acc tk syms tk' :
  Forall binding_ok acc ->
  Parser.load_symbols fuel acc tk = Some (Some syms, tk') ->
  Forall binding_ok syms.
Proof.
  revert acc tk; induction fuel as [|fuel IH]; intros acc tk HA;
    [discriminate|].
  cbn [Parser.load_symbols].
  destruct (Tokenizer.tokenize tk) as [[[p| | | |]|] tk1];
    try discriminate.
  destruct (token.Punctuator_eqb p token.RParen);
    [now intros [= <- <-]|].
  destruct (negb _); [discriminate|].
  destruct (Tokenizer.tokenize tk1) as [[[| |name|value|]|] tk2] eqn:E2;
    try discriminate.
  - destruct (Parser.expect_next_token _ tk2) as [ok tk3].
    destruct (negb ok); [discriminate|].
    destruct (Parser.next_token_as_StringLiteral tk3) as [[v|] tk4];
      [|discriminate].
    apply IH. apply Forall_app. split; [exact HA|].
    constructor; [|constructor]. right.
    exact (proj1 (Shapes.tokenize_identifier_shape _ _ _ E2)).
  - apply IH. apply Forall_app. split; [exact HA|].
    constructor; [|constructor]. now left.
Qed.

Lemma parse_load_stmt_bindings tk load tk' :
  Parser.parse_load_stmt tk = (Some load, tk') ->
  Forall binding_ok (symbols load).
Proof.
  unfold Parser.parse_load_stmt, Parser.parse_load_stmt_fuel.
  destruct (Tokenizer.tokenize tk) as [[[[]| | | |]|] tk1];
    try discriminate.
  destruct (Tokenizer.tokenize tk1) as [[[| | |m|]|] tk2]; try discriminate.
  destruct (Parser.load_symbols _ [] tk2) as [[[[|x l]|] tk3]|] eqn:E3;
    try discriminate.
  intros [= <- <-]. cbn [symbols].
  exact (load_symbols_bindings _ [] _ _ _ (Forall_nil _) E3).
Qed.

Lemma parse_loop_bindings fuel program tk r :
  Forall bindings_ok (statements program) ->
  Parser.parse_loop fuel program tk = Some (Some r) ->
  Forall bindings_ok (statements r).
Proof.
  revert program tk; induction fuel as [|fuel IH]; intros program tk HP;
    [discriminate|].
  simpl. destruct (Tokenizer.tokenize tk) as [[[|kw| | |]|] tk1];
    try discriminate.
  - destruct (token.Keyword_eqb kw token.Load); [|discriminate].
    destruct (Parser.parse_load_stmt tk1) as [[load|] tk2] eqn:E;
      [|discriminate].
    apply IH. cbn [statements]. apply Forall_app. split; [assumption|].
    constructor; [|constructor]. exact (parse_load_stmt_bindings _ _ _ E).
  - now intros [= <-].
Qed.

End Bindings.

(** X12.  In every load statement of a program that [parse] returns, the
    local name of a symbol is its exported name or an identifier: not
    empty, a letter or an underscore first, then letters, digits and
    underscores, and no reserved word. *)
Theorem local_names_are_identifiers (input : string_view)
    (program : Program) :
  parse input = Some program -> Forall bindings_ok (statements program).
Proof.
  unfold parse, Parser.parse.
  destruct (Parser.parse_loop _ _ _) as [r|] eqn:E; [|discriminate].
  intros ->. eapply Bindings.parse_loop_bindings; [|exact E]. constructor.
Qed.

Lemma local_names_are_identifiers_witness :
  Forall bindings_ok
    [SLoadStmt (mkLoadStmt (sv "@rules_cc//cc:defs.bzl")
       [(sv "foo", sv "cc_library")])].
Proof.
  apply (local_names_are_identifiers input_renamed_symbol
           (mkProgram [SLoadStmt (mkLoadStmt (sv "@rules_cc//cc:defs.bzl")
                         [(sv "foo", sv "cc_library")])])).
  vm_compute. reflexivity.
Defined.

(* ================================================================= *)
(** ** Further properties: only the remaining input matters *)

Module Locality.
Import TokenizerFacts.

Lemma tokenize_moved pre tk :
  Tokenizer.tokenize (moved pre tk)
  = (fst (Tokenizer.tokenize tk), moved pre (snd (Tokenizer.tokenize tk))).
Proof. destruct tk as [rest p]. apply tokenize_shift. Qed.

Lemma left_moved pre tk : Parser.left (moved pre tk) = Parser.left tk.
Proof.
  unfold Parser.left, moved. cbn [Tokenizer.input_ Tokenizer.pos_].
  rewrite length_app. lia.
Qed.

(** A tokenizer inside its input is the tokenizer over the remaining
    input, moved. *)
Lemma inside_moved tk :
  inside tk ->
  tk = moved (firstn (Tokenizer.pos_ tk) (Tokenizer.input_ tk))
         (Tokenizer.make (Tokenizer.remaining_input tk)).
Proof.
  destruct tk as [input pos]. unfold inside, moved, Tokenizer.remaining_input.
  cbn [Tokenizer.input_ Tokenizer.pos_ Tokenizer.make]. intros I.
  rewrite firstn_skipn, length_firstn. f_equal. lia.
Qed.

Lemma tokenize_loop_moved pre fuel tk acc :
  tokenize_loop fuel (moved pre tk) acc = tokenize_loop fuel tk acc.
Proof.
  revert tk acc; induction fuel as [|fuel IH]; intros tk acc;
    [reflexivity|].
  cbn [tokenize_loop]. rewrite tokenize_moved.
  destruct (Tokenizer.tokenize tk) as [[tok|] tk']; cbn [fst snd];
    [|reflexivity].
  destruct tok; try apply IH. reflexivity.
Qed.

Lemma expect_next_token_moved pre expected tk :
  Parser.expect_next_token expected (moved pre tk)
  = moved_result pre (Parser.expect_next_token expected tk).
Proof.
  unfold Parser.expect_next_token. rewrite tokenize_moved.
  destruct (Tokenizer.tokenize tk) as [[tok|] tk']; cbn [fst snd];
    [destruct (negb _)|]; reflexivity.
Qed.

Lemma next_token_as_StringLiteral_moved pre tk :
  Parser.next_token_as_StringLiteral (moved pre tk)
  = moved_result pre (Parser.next_token_as_StringLiteral tk).
Proof.
  unfold Parser.next_token_as_StringLiteral. rewrite tokenize_moved.
  destruct (Tokenizer.tokenize tk) as [[[]|] tk']; reflexivity.
Qed.

Lemma load_symbols_moved pre fuel acc tk :
  Parser.load_symbols fuel acc (moved pre tk)
  = option_map (moved_result pre) (Parser.load_symbols fuel acc tk).
Proof.
  revert acc tk; induction fuel as [|fuel IH]; intros acc tk;
    [reflexivity|].
  cbn [Parser.load_symbols]. rewrite tokenize_moved.
  destruct (Tokenizer.tokenize tk) as [[[p| | | |]|] tk1]; cbn [fst snd];
    try reflexivity.
  destruct (token.Punctuator_eqb p token.RParen); [reflexivity|].
  destruct (negb _); [reflexivity|].
  rewrite tokenize_moved.
  destruct (Tokenizer.tokenize tk1) as [[[| |name|value|]|] tk2];
    cbn [fst snd]; try reflexivity.
  - rewrite expect_next_token_moved.
    destruct (Parser.expect_next_token _ tk2) as [ok tk3].
    unfold moved_result at 1. cbn [fst snd].
    destruct (negb ok); [reflexivity|].
    rewrite next_token_as_StringLiteral_moved.
    destruct (Parser.next_token_as_StringLiteral tk3) as [[v|] tk4];
      unfold moved_result at 1; cbn [fst snd]; [apply IH | reflexivity].
  - apply IH.
Qed.

Lemma parse_load_stmt_moved pre tk :
  inside tk ->
  Parser.parse_load_stmt (moved pre tk)
  = moved_result pre (Parser.parse_load_stmt tk).
Proof.
  intros I.
  assert (F : Parser.parse_load_stmt_fuel (S (Parser.left tk)) (moved pre tk)
              = option_map (moved_result pre)
                  (Parser.parse_load_stmt_fuel (S (Parser.left tk)) tk)).
  { unfold Parser.parse_load_stmt_fuel. rewrite tokenize_moved.
    destruct (Tokenizer.tokenize tk) as [[[[]| | | |]|] tk1];
      cbn [fst snd]; try reflexivity.
    rewrite tokenize_moved.
    destruct (Tokenizer.tokenize tk1) as [[[| | |m|]|] tk2];
      cbn [fst snd]; try reflexivity.
    rewrite load_symbols_moved.
    destruct (Parser.load_symbols _ [] tk2) as [[[[|x l]|] tk3]|];
      reflexivity. }
  unfold Parser.parse_load_stmt. rewrite left_moved, F.
  rewrite (Progress.parse_load_stmt_fuel_ok _ tk I (Nat.lt_succ_diag_r _)).
  reflexivity.
Qed.

Lemma parse_loop_moved pre fuel program tk :
  inside tk ->
  Parser.parse_loop fuel program (moved pre tk)
  = Parser.parse_loop fuel program tk.
Proof.
  revert program tk; induction fuel as [|fuel IH]; intros program tk I;
    [reflexivity|].
  cbn [Parser.parse_loop]. rewrite tokenize_moved.
  destruct (Tokenizer.tokenize tk) as [[tok|] tk1] eqn:E1; cbn [fst snd];
    [|reflexivity].
  apply Progress.tokenize_later in E1 as [L1 _]; [|exact I].
  destruct tok as [|kw| | |]; try reflexivity.
  destruct (token.Keyword_eqb kw token.Load); [|reflexivity].
  rewrite parse_load_stmt_moved by (eapply Progress.later_inside; eauto).
  destruct (Parser.parse_load_stmt tk1) as [[load|] tk2] eqn:E2;
    unfold moved_result; cbn [fst snd]; [|reflexivity].
  apply IH. apply Progress.parse_load_stmt_later in E2.
  - eapply Progress.later_inside; eauto.
  - eapply Progress.later_inside; eauto.
Qed.

(** After leading whitespace the first call is the call behind it. *)
Lemma tokenize_behind_whitespace ws input :
  forallb Tokenizer.is_whitespace ws = true ->
  Tokenizer.tokenize (Tokenizer.make (ws ++ input))
  = Tokenizer.tokenize (moved ws (Tokenizer.make input)).
Proof.
  intros H. rewrite (Lexing.tokenize_whitespace ws input H), tokenize_moved.
  reflexivity.
Qed.

(** The loops depend on the tokenizer through its calls only. *)
Lemma tokenize_loop_same_call fuel tk1 tk2 acc :
  Tokenizer.tokenize tk1 = Tokenizer.tokenize tk2 ->
  tokenize_loop fuel tk1 acc = tokenize_loop fuel tk2 acc.
Proof.
  intros H. destruct fuel; [reflexivity|]. cbn [tokenize_loop].
  now rewrite H.
Qed.

Lemma parse_loop_same_call fuel program tk1 tk2 :
  Tokenizer.tokenize tk1 = Tokenizer.tokenize tk2 ->
  Parser.parse_loop fuel program tk1 = Parser.parse_loop fuel program tk2.
Proof.
  intros H. destruct fuel; [reflexivity|]. cbn [Parser.parse_loop].
  now rewrite H.
Qed.

End Locality.

(** X13.  The tokenizer and the parser see the input only from the cursor
    on.  Continued from a tokenizer inside its input, the loop of
    [tokenize] gives the tokens of [remaining_input()] and
    [Parser::parse] the program of [remaining_input()].  Whitespace in
    front of an input changes neither its tokens nor its program. *)
Theorem only_the_remaining_input_matters :
  (forall tk fuel,
     inside tk -> Parser.left tk < fuel ->
     tokenize_loop fuel tk []
     = Some (tokenize (Tokenizer.remaining_input tk)))
  /\ (forall tk,
        inside tk ->
        Parser.parse tk = parse (Tokenizer.remaining_input tk))
  /\ (forall ws input,
        forallb Tokenizer.is_whitespace ws = true ->
        tokenize (ws ++ input) = tokenize input
        /\ parse (ws ++ input) = parse input).
Proof.
  split; [|split].
  - intros tk fuel I F. rewrite (Locality.inside_moved tk I) at 1.
    rewrite Locality.tokenize_loop_moved.
    apply Progress.tokenize_loop_fuel.
    unfold Parser.left in F. unfold Tokenizer.remaining_input.
    rewrite length_skipn. exact F.
  - intros tk I. unfold parse, Parser.parse.
    rewrite (Locality.inside_moved tk I) at 2.
    rewrite Locality.parse_loop_moved by apply Progress.make_inside.
    unfold Parser.left, Tokenizer.remaining_input.
    cbn [Tokenizer.make Tokenizer.input_ Tokenizer.pos_].
    now rewrite length_skipn, Nat.sub_0_r.
  - intros ws input H.
    pose proof (Locality.tokenize_behind_whitespace ws input H) as E.
    split.
    + apply (Progress.tokenize_from_loop _ (S (size input))).
      rewrite (Locality.tokenize_loop_same_call _ _ _ _ E).
      rewrite Locality.tokenize_loop_moved.
      apply Progress.tokenize_loop_fuel. lia.
    + apply (Progress.parse_from_loop _ (S (size input))).
      rewrite (Locality.parse_loop_same_call _ _ _ _ E).
      rewrite Locality.parse_loop_moved by apply Progress.make_inside.
      apply Progress.parse_loop_fuel. lia.
Qed.

Lemma only_the_remaining_input_matters_witness :
  tokenize_loop 100 (Tokenizer.mk input_two_symbols 29) []
  = Some (tokenize
            (Tokenizer.remaining_input (Tokenizer.mk input_two_symbols 29)))
  /\ Parser.parse (Tokenizer.mk (sv "x = 1 # " ++ [LF] ++ input_one_symbol) 9)
     = parse (Tokenizer.remaining_input
                (Tokenizer.mk (sv "x = 1 # " ++ [LF] ++ input_one_symbol) 9))
  /\ tokenize ([LF; TAB] ++ input_one_symbol) = tokenize input_one_symbol
  /\ parse ([LF; TAB] ++ input_one_symbol) = parse input_one_symbol.
Proof.
  split; [|split].
  - apply (proj1 only_the_remaining_input_matters
             (Tokenizer.mk input_two_symbols 29) 100).
    + unfold inside. vm_compute. lia.
    + vm_compute. lia.
  - apply (proj1 (proj2 only_the_remaining_input_matters)
             (Tokenizer.mk (sv "x = 1 # " ++ [LF] ++ input_one_symbol) 9)).
    unfold inside. vm_compute. lia.
  - apply (proj2 (proj2 only_the_remaining_input_matters)
             [LF; TAB] input_one_symbol).
    reflexivity.
Defined.

(* ================================================================= *)
(** ** Further properties: the parser sees tokens only *)

Module Layout.

Lemma tokenize_loop_stream fuel tk acc tokens :
  tokenize_loop fuel tk acc = Some (Some tokens) ->
  exists more, tokens = acc ++ more /\ stream tk more.
Proof.
  revert tk acc; induction fuel as [|fuel IH]; intros tk acc;
    [discriminate|].
  cbn [tokenize_loop].
  destruct (Tokenizer.tokenize tk) as [[tok|] tk1] eqn:E; [|discriminate].
  assert (G : tok <> TEof ->
              tokenize_loop fuel tk1 (acc ++ [tok]) = Some (Some tokens) ->
              exists more, tokens = acc ++ more /\ stream tk more).
  { intros NE H. apply IH in H as (more & -> & tk' & HC & HE).
    exists (tok :: more). rewrite <- app_assoc. split; [reflexivity|].
    exists tk'. split; [|exact HE]. econstructor; eassumption. }
  destruct tok; try (apply G; discriminate).
  intros [= <-]. exists []. rewrite app_nil_r. split; [reflexivity|].
  exists tk. split; [constructor | now rewrite E].
Qed.

Lemma tokenize_stream input tokens :
  tokenize input = Some tokens -> stream (Tokenizer.make input) tokens.
Proof.
  unfold tokenize.
  destruct (tokenize_loop _ _ _) as [r|] eqn:E; [|discriminate].
  intros ->. apply tokenize_loop_stream in E as (more & -> & H). exact H.
Qed.

(** Both tokenizers return the same token; they have the same tokens ahead
    again unless it is [Eof]. *)
Lemma same_tokens_step tk1 tk2 :
  same_tokens tk1 tk2 ->
  exists tok tk1' tk2',
    Tokenizer.tokenize tk1 = (Some tok, tk1')
    /\ Tokenizer.tokenize tk2 = (Some tok, tk2')
    /\ (tok <> TEof -> same_tokens tk1' tk2').
Proof.
  intros (I1 & I2 & tokens & (e1 & C1 & E1) & (e2 & C2 & E2)).
  destruct tokens as [|tok tokens].
  - inversion C1; subst. inversion C2; subst.
    destruct (Tokenizer.tokenize e1) as [t1 n1].
    destruct (Tokenizer.tokenize e2) as [t2 n2].
    simpl in E1, E2. subst. exists TEof, n1, n2.
    split; [reflexivity|]. split; [reflexivity|]. congruence.
  - inversion C1 as [|? ? n1 ? ? T1 N1 R1]; subst.
    inversion C2 as [|? ? n2 ? ? T2 N2 R2]; subst.
    exists tok, n1, n2. split; [exact T1|]. split; [exact T2|].
    intros _.
    split; [exact (Progress.later_inside _ _
                     (proj1 (Progress.tokenize_later _ _ _ I1 T1)))|].
    split; [exact (Progress.later_inside _ _
                     (proj1 (Progress.tokenize_later _ _ _ I2 T2)))|].
    exists tokens. split; [exists e1 | exists e2]; auto.
Qed.

(** Read the next token from both tokenizers. *)
Ltac both tok n1 n2 T1 T2 R :=
  match goal with
  | H : same_tokens ?a ?b |- _ =>
      destruct (same_tokens_step a b H) as (tok & n1 & n2 & T1 & T2 & R);
      clear H
  end.

Lemma same_result_fail {A : Type} (tk1 tk2 : Tokenizer.t) :
  same_result (@None A, tk1) (@None A, tk2).
Proof. split; [reflexivity | intros H; now contradiction H]. Qed.

Lemma load_symbols_same fuel acc tk1 tk2 :
  same_tokens tk1 tk2 ->
  match Parser.load_symbols fuel acc tk1,
        Parser.load_symbols fuel acc tk2 with
  | Some r1, Some r2 => same_result r1 r2
  | None, None => True
  | _, _ => False
  end.
Proof.
  revert acc tk1 tk2; induction fuel as [|fuel IH]; intros acc tk1 tk2 H;
    [exact I|].
  cbn [Parser.load_symbols]. both t a1 a2 T1 T2 Hn. rewrite T1, T2.
  destruct t as [p| | | |]; try apply same_result_fail.
  destruct (token.Punctuator_eqb p token.RParen).
  { split; [reflexivity|]. intros _. apply Hn. discriminate. }
  destruct (negb _); [apply same_result_fail|].
  specialize (Hn ltac:(discriminate)). both t b1 b2 U1 U2 Hn1.
  rewrite U1, U2.
  destruct t as [| |name|value|]; try apply same_result_fail.
  - specialize (Hn1 ltac:(discriminate)).
    unfold Parser.expect_next_token, Parser.next_token_as_StringLiteral.
    both t c1 c2 V1 V2 Hn2. rewrite V1, V2.
    destruct (negb (Token_eqb t (TPunctuator token.Equals))) eqn:Q;
      [apply same_result_fail|]. cbn [negb].
    assert (NE : t <> TEof) by (intros ->; discriminate Q).
    specialize (Hn2 NE). both t' d1 d2 W1 W2 Hn3. rewrite W1, W2.
    destruct t' as [| | |v|]; try apply same_result_fail.
    apply IH. apply Hn3. discriminate.
  - apply IH. apply Hn1. discriminate.
Qed.

Lemma parse_load_stmt_fuel_same fuel tk1 tk2 :
  same_tokens tk1 tk2 ->
  match Parser.parse_load_stmt_fuel fuel tk1,
        Parser.parse_load_stmt_fuel fuel tk2 with
  | Some r1, Some r2 => same_result r1 r2
  | None, None => True
  | _, _ => False
  end.
Proof.
  intros H. unfold Parser.parse_load_stmt_fuel.
  both t a1 a2 T1 T2 Hn. rewrite T1, T2.
  destruct t as [[]| | | |]; try apply same_result_fail.
  specialize (Hn ltac:(discriminate)). both t b1 b2 U1 U2 Hn1.
  rewrite U1, U2.
  destruct t as [| | |m|]; try apply same_result_fail.
  specialize (Hn1 ltac:(discriminate)).
  pose proof (load_symbols_same fuel [] b1 b2 Hn1) as L.
  destruct (Parser.load_symbols fuel [] b1) as [[r1 e1]|];
    destruct (Parser.load_symbols fuel [] b2) as [[r2 e2]|];
    try contradiction; [|exact I].
  destruct L as [E R]. cbn [fst snd] in E, R. subst r2.
  destruct r1 as [[|x l]|]; try apply same_result_fail.
  split; [reflexivity|]. intros _. apply R. discriminate.
Qed.

Lemma parse_load_stmt_same tk1 tk2 :
  same_tokens tk1 tk2 ->
  same_result (Parser.parse_load_stmt tk1) (Parser.parse_load_stmt tk2).
Proof.
  intros H. pose proof H as (I1 & I2 & _).
  pose proof (parse_load_stmt_fuel_same
                (S (Parser.left tk1 + Parser.left tk2)) tk1 tk2 H) as L.
  rewrite (Progress.parse_load_stmt_fuel_ok _ tk1 I1) in L by lia.
  rewrite (Progress.parse_load_stmt_fuel_ok _ tk2 I2) in L by lia.
  exact L.
Qed.

Lemma parse_loop_same fuel program tk1 tk2 :
  same_tokens tk1 tk2 ->
  Parser.parse_loop fuel program tk1 = Parser.parse_loop fuel program tk2.
Proof.
  revert program tk1 tk2; induction fuel as [|fuel IH];
    intros program tk1 tk2 H; [reflexivity|].
  cbn [Parser.parse_loop]. both t a1 a2 T1 T2 Hn. rewrite T1, T2.
  destruct t as [|kw| | |]; try reflexivity.
  destruct (token.Keyword_eqb kw token.Load); [|reflexivity].
  specialize (Hn ltac:(discriminate)).
  destruct (parse_load_stmt_same a1 a2 Hn) as [E R].
  destruct (Parser.parse_load_stmt a1) as [r1 b1].
  destruct (Parser.parse_load_stmt a2) as [r2 b2].
  cbn [fst snd] in E, R. subst r2.
  destruct r1 as [load|]; [|reflexivity].
  apply IH. apply R. discriminate.
Qed.

Lemma parse_same_tokens a b tokens :
  tokenize a = Some tokens -> tokenize b = Some tokens -> parse a = parse b.
Proof.
  intros Ha Hb.
  assert (HS : same_tokens (Tokenizer.make a) (Tokenizer.make b)).
  { split; [apply Progress.make_inside|].
    split; [apply Progress.make_inside|].
    exists tokens. split; now apply tokenize_stream. }
  pose proof (parse_loop_same (S (size a + size b)) (mkProgram []) _ _ HS)
    as E.
  rewrite !Progress.parse_loop_fuel in E by lia. congruence.
Qed.

End Layout.

(** X14.  [parse] depends on the input through its tokens only: two inputs
    for which [tokenize] gives the same result have the same result of
    [parse].  So whitespace, comments and the way a string is quoted change
    nothing; and an input whose strings have no double quote is parsed as
    the text [to_string] gives for its tokens. *)
Theorem parse_depends_on_tokens_only :
  (forall a b, tokenize a = tokenize b -> parse a = parse b)
  /\ (forall input tokens,
        tokenize input = Some tokens -> Forall plain_strings tokens ->
        parse (Main.to_string tokens) = parse input).
Proof.
  assert (G : forall a b, tokenize a = tokenize b -> parse a = parse b).
  { intros a b E. destruct (tokenize a) as [tokens|] eqn:Ha.
    - exact (Layout.parse_same_tokens a b tokens Ha (eq_sym E)).
    - destruct (parse a) as [pa|] eqn:Pa.
      { destruct (Streams.parse_tokens a pa Pa) as (t & HT & _).
        congruence. }
      destruct (parse b) as [pb|] eqn:Pb; [|reflexivity].
      destruct (Streams.parse_tokens b pb Pb) as (t & HT & _). congruence. }
  split; [exact G|].
  intros input tokens H P. apply G. rewrite H.
  apply Rendering.Main_round_trip.
  pose proof (Shapes.tokenize_collects well_formed input tokens
                Shapes.tokenize_well_formed H) as W.
  rewrite Forall_forall in *. intros tok HI.
  apply Rendering.well_formed_spellable; auto.
Qed.

Lemma parse_depends_on_tokens_only_witness :
  parse (sv "load  ( # the module" ++ [LF] ++ triple_quote ++ sv "m"
         ++ triple_quote ++ sv "," ++ quoted (sv "a") ++ sv ")")
  = parse input_one_symbol.
Proof.
  apply (proj1 parse_depends_on_tokens_only).
  vm_compute. reflexivity.
Defined.

(* ================================================================= *)
(** ** Further properties: the grammar that is accepted *)

Module Grammar.

Lemma stream_first tk tok tokens :
  inside tk -> stream tk (tok :: tokens) ->
  exists tk1,
    Tokenizer.tokenize tk = (Some tok, tk1) /\ inside tk1
    /\ stream tk1 tokens.
Proof.
  intros I (tk' & C & E).
  inversion C as [|? ? tk1 ? ? T NE R]; subst.
  exists tk1. split; [exact T|]. split.
  - exact (Progress.later_inside _ _
             (proj1 (Progress.tokenize_later _ _ _ I T))).
  - exists tk'. now split.
Qed.

Lemma stream_end tk :
  stream tk [] -> fst (Tokenizer.tokenize tk) = Some TEof.
Proof. intros (tk' & C & E). inversion C; subst. exact E. Qed.

(** Read the next token of the stream. *)
Ltac next tk1 T I1 :=
  match goal with
  | I : inside ?tk, H : stream ?tk (_ :: _) |- _ =>
      let H1 := fresh "H" in
      destruct (stream_first _ _ _ I H) as (tk1 & T & I1 & H1);
      clear H; rename H1 into H; rewrite T
  end.

(** *** The tokens of the grammar are accepted *)

Lemma load_symbols_tokens l :
  forall fuel acc tk rest,
    inside tk -> stream tk (symbols_tokens l ++ rest) ->
    exists tk',
      Parser.load_symbols (Datatypes.length l + fuel) acc tk
      = Parser.load_symbols fuel (acc ++ map binding l) tk'
      /\ inside tk' /\ stream tk' rest.
Proof.
  induction l as [|s l IH]; intros fuel acc tk rest I H.
  - exists tk. simpl. rewrite app_nil_r. auto.
  - change (symbols_tokens (s :: l))
      with (symbol_tokens s ++ symbols_tokens l) in H.
    rewrite <- app_assoc in H.
    change (Datatypes.length (s :: l) + fuel)
      with (S (Datatypes.length l + fuel)).
    cbn [Parser.load_symbols map].
    destruct s as [e|n e]; cbn [symbol_tokens app binding] in H |- *.
    + next tk1 T1 I1. cbn [token.Punctuator_eqb negb].
      next tk2 T2 I2.
      destruct (IH fuel (acc ++ [(e, e)]) tk2 rest I2 H)
        as (tk' & E & I' & H').
      exists tk'. rewrite E, <- app_assoc. auto.
    + next tk1 T1 I1. cbn [token.Punctuator_eqb negb].
      next tk2 T2 I2. unfold Parser.expect_next_token.
      next tk3 T3 I3. cbn [Token_eqb token.Punctuator_eqb negb].
      unfold Parser.next_token_as_StringLiteral.
      next tk4 T4 I4.
      destruct (IH fuel (acc ++ [(n, e)]) tk4 rest I4 H)
        as (tk' & E & I' & H').
      exists tk'. rewrite E, <- app_assoc. auto.
Qed.

Lemma parse_load_stmt_tokens st tk rest :
  has_imports st -> inside tk ->
  stream tk ([TPunctuator token.LParen; TStringLiteral (from_module st)]
             ++ symbols_tokens (imports st) ++ [TPunctuator token.RParen]
             ++ rest) ->
  exists tk',
    Parser.parse_load_stmt tk
    = (Some (mkLoadStmt (from_module st) (map binding (imports st))), tk')
    /\ inside tk' /\ stream tk' rest.
Proof.
  intros NE I H. cbn [app] in H.
  assert (G : exists tk',
            Parser.parse_load_stmt_fuel
              (Datatypes.length (imports st) + 1) tk
            = Some (Some (mkLoadStmt (from_module st)
                            (map binding (imports st))), tk')
            /\ inside tk' /\ stream tk' rest).
  { unfold Parser.parse_load_stmt_fuel.
    next tk1 T1 I1. next tk2 T2 I2.
    destruct (load_symbols_tokens (imports st) 1 [] tk2
                (TPunctuator token.RParen :: rest) I2 H)
      as (tk3 & E & I3 & H3). clear H.
    rewrite E. cbn [Parser.load_symbols app].
    next tk4 T4 I4. cbn [token.Punctuator_eqb].
    exists tk4. split; [|auto].
    unfold has_imports in NE.
    destruct (imports st) as [|s l]; [congruence | reflexivity]. }
  destruct G as (tk' & E & I' & H').
  exists tk'. split; [|auto].
  exact (Progress.parse_load_stmt_from_fuel _ _ _ I E).
Qed.

Lemma parse_loop_tokens l :
  Forall has_imports l ->
  forall fuel program tk,
    inside tk -> stream tk (program_tokens l) ->
    Parser.parse_loop (Datatypes.length l + S fuel) program tk
    = Some (Some (mkProgram (statements program ++ map meaning l))).
Proof.
  induction 1 as [|st l Hs Hl IH]; intros fuel program tk I H.
  - cbn [Datatypes.length Nat.add Parser.parse_loop].
    apply stream_end in H.
    destruct (Tokenizer.tokenize tk) as [tok tk1]. simpl in H. subst tok.
    simpl. rewrite app_nil_r. now destruct program.
  - change (program_tokens (st :: l))
      with (statement_tokens st ++ program_tokens l) in H.
    unfold statement_tokens in H. rewrite <- !app_assoc in H.
    cbn [app] in H.
    change (Datatypes.length (st :: l) + S fuel)
      with (S (Datatypes.length l + S fuel)).
    cbn [Parser.parse_loop]. next tk1 T1 I1. cbn [token.Keyword_eqb].
    destruct (parse_load_stmt_tokens st tk1 (program_tokens l) Hs I1 H)
      as (tk2 & E & I2 & H2).
    rewrite E, (IH fuel _ tk2 I2 H2). cbn [statements map].
    unfold meaning at 2. now rewrite <- app_assoc.
Qed.

(** *** What is accepted has the tokens of the grammar *)

Lemma load_symbols_grammar fuel acc tk syms tk' :
  Parser.load_symbols fuel acc tk = Some (Some syms, tk') ->
  exists l,
    syms = acc ++ map binding l
    /\ consumed tk (symbols_tokens l ++ [TPunctuator token.RParen]) tk'.
Proof.
  revert acc tk; induction fuel as [|fuel IH]; intros acc tk;
    [discriminate|].
  cbn [Parser.load_symbols].
  destruct (Tokenizer.tokenize tk) as [[[p| | | |]|] tk1] eqn:E1;
    try discriminate.
  destruct (token.Punctuator_eqb p token.RParen) eqn:P1.
  { apply Punctuator_eqb_eq in P1. subst p. intros [= <- <-].
    exists []. split; [now rewrite app_nil_r|].
    econstructor; [exact E1 | discriminate | constructor]. }
  destruct (negb (token.Punctuator_eqb p token.Comma)) eqn:P2;
    [discriminate|].
  apply negb_false_iff, Punctuator_eqb_eq in P2. subst p.
  destruct (Tokenizer.tokenize tk1) as [[[| |name|value|]|] tk2] eqn:E2;
    try discriminate.
  - unfold Parser.expect_next_token, Parser.next_token_as_StringLiteral.
    destruct (Tokenizer.tokenize tk2) as [[t3|] tk3] eqn:E3;
      [|discriminate].
    destruct (negb (Token_eqb t3 (TPunctuator token.Equals))) eqn:Q;
      [discriminate|]. cbn [negb].
    assert (t3 = TPunctuator token.Equals).
    { apply negb_false_iff in Q.
      destruct t3 as [q| | | |]; try discriminate Q.
      apply Punctuator_eqb_eq in Q. now subst q. }
    subst t3.
    destruct (Tokenizer.tokenize tk3) as [[[| | |v|]|] tk4] eqn:E4;
      try discriminate.
    intros H. apply IH in H as (l & -> & HC).
    exists (Renamed name v :: l). split; [now rewrite <- app_assoc|].
    change (symbols_tokens (Renamed name v :: l))
      with (symbol_tokens (Renamed name v) ++ symbols_tokens l).
    cbn [symbol_tokens app].
    repeat (econstructor; [eassumption | discriminate|]). exact HC.
  - intros H. apply IH in H as (l & -> & HC).
    exists (Bare value :: l). split; [now rewrite <- app_assoc|].
    change (symbols_tokens (Bare value :: l))
      with (symbol_tokens (Bare value) ++ symbols_tokens l).
    cbn [symbol_tokens app].
    repeat (econstructor; [eassumption | discriminate|]). exact HC.
Qed.

Lemma parse_load_stmt_grammar tk load tk' :
  Parser.parse_load_stmt tk = (Some load, tk') ->
  exists st,
    has_imports st /\ SLoadStmt load = meaning st
    /\ consumed tk
         ([TPunctuator token.LParen; TStringLiteral (from_module st)]
          ++ symbols_tokens (imports st) ++ [TPunctuator token.RParen]) tk'.
Proof.
  unfold Parser.parse_load_stmt, Parser.parse_load_stmt_fuel.
  destruct (Tokenizer.tokenize tk) as [[[[]| | | |]|] tk1] eqn:E1;
    try discriminate.
  destruct (Tokenizer.tokenize tk1) as [[[| | |m|]|] tk2] eqn:E2;
    try discriminate.
  destruct (Parser.load_symbols _ [] tk2) as [[[[|x l]|] tk3]|] eqn:E3;
    try discriminate.
  intros [= <- <-].
  apply load_symbols_grammar in E3 as (ss & E & HC). cbn [app] in E.
  exists (mk_statement [] m ss). split; [|split].
  - unfold has_imports. cbn [imports]. intros ->. discriminate E.
  - unfold meaning. cbn [from_module imports]. now rewrite E.
  - cbn [from_module imports app].
    repeat (econstructor; [eassumption | discriminate|]). exact HC.
Qed.

Lemma parse_loop_grammar fuel program tk r :
  Parser.parse_loop fuel program tk = Some (Some r) ->
  exists l,
    Forall has_imports l
    /\ statements r = statements program ++ map meaning l
    /\ stream tk (program_tokens l).
Proof.
  revert program tk; induction fuel as [|fuel IH]; intros program tk;
    [discriminate|].
  cbn [Parser.parse_loop].
  destruct (Tokenizer.tokenize tk) as [[[|kw| | |]|] tk1] eqn:E1;
    try discriminate.
  - destruct (token.Keyword_eqb kw token.Load) eqn:K; [|discriminate].
    apply Keyword_eqb_eq in K. subst kw.
    destruct (Parser.parse_load_stmt tk1) as [[load|] tk2] eqn:E2;
      [|discriminate].
    apply parse_load_stmt_grammar in E2 as (st & NE & EM & HC).
    intros H. apply IH in H as (l & HF & HS & tk' & HC' & HE).
    exists (st :: l). split; [now constructor|]. split.
    + cbn [statements] in HS. rewrite HS, EM, <- app_assoc. reflexivity.
    + exists tk'. split; [|exact HE].
      change (program_tokens (st :: l))
        with (statement_tokens st ++ program_tokens l).
      unfold statement_tokens. rewrite <- app_assoc. cbn [app].
      econstructor; [exact E1 | discriminate|].
      change (TPunctuator token.LParen :: TStringLiteral (from_module st)
              :: (symbols_tokens (imports st) ++ [TPunctuator token.RParen])
                 ++ program_tokens l)
        with (([TPunctuator token.LParen; TStringLiteral (from_module st)]
               ++ symbols_tokens (imports st) ++ [TPunctuator token.RParen])
              ++ program_tokens l).
      eapply Streams.consumed_app; eassumption.
  - intros [= <-]. exists []. split; [constructor|].
    split; [now rewrite app_nil_r|].
    exists tk. split; [constructor | now rewrite E1].
Qed.

End Grammar.

(** X15.  The programs [parse] accepts are those whose tokens are the
    tokens of load statements, each [load], an opening parenthesis, a
    string, one or more symbols (a comma and then a string, or an
    identifier, [=] and a string) and a closing parenthesis, with nothing
    between the last symbol and the parenthesis; the program returned has
    these statements in order. *)
Theorem accepted_programs (input : string_view) (program : Program) :
  parse input = Some program
  <-> exists l,
        Forall has_imports l
        /\ tokenize input = Some (program_tokens l)
        /\ program = mkProgram (map meaning l).
Proof.
  split.
  - unfold parse, Parser.parse.
    destruct (Parser.parse_loop _ _ _) as [r|] eqn:E; [|discriminate].
    intros ->. apply Grammar.parse_loop_grammar in E
      as (l & HF & HS & tk' & HC & HE).
    exists l. split; [exact HF|]. split.
    + destruct (Streams.consumed_tokenize_loop _ _ _ HC HE []) as [fuel H].
      exact (Progress.tokenize_from_loop _ _ _ H).
    + destruct program as [sts]. cbn [statements app] in HS. now subst sts.
  - intros (l & HF & HT & ->).
    apply (Progress.parse_from_loop _ (Datatypes.length l + 1)).
    apply (Grammar.parse_loop_tokens l HF 0 (mkProgram []));
      [apply Progress.make_inside | now apply Layout.tokenize_stream].
Qed.

Lemma accepted_programs_witness :
  (exists l,
     Forall has_imports l
     /\ tokenize input_renamed_symbol = Some (program_tokens l)
     /\ mkProgram [SLoadStmt (mkLoadStmt (sv "@rules_cc//cc:defs.bzl")
                     [(sv "foo", sv "cc_library")])]
        = mkProgram (map meaning l))
  /\ parse (sv "load (" ++ triple_quote ++ sv "m" ++ triple_quote
            ++ sv ",x=" ++ quoted (sv "y") ++ sv ")")
     = Some (mkProgram [SLoadStmt (mkLoadStmt (sv "m") [(sv "x", sv "y")])]).
Proof.
  split.
  - apply (proj1 (accepted_programs input_renamed_symbol _)).
    vm_compute. reflexivity.
  - apply (proj2 (accepted_programs _ _)).
    exists [mk_statement [] (sv "m") [Renamed (sv "x") (sv "y")]].
    split; [repeat constructor; discriminate|].
    split; vm_compute; reflexivity.
Defined.
